(** * liste_rappel: the watcher for paginated recall lists

    A shallow embedding of the Python package [liste_rappel]
    (parser.py, state.py, notifier.py, watcher.py) and the properties of
    its monitoring engine: pagination with content fingerprints, selection
    of the best record per (list, target), change detection against the
    persisted state, cooldown-gated alerts and persistence.

    Conventions of the embedding.
    - A Python [str] is a [string]; a character is a code point below 256
      (the Latin-1 part of Unicode), which fixes what the classes \d, \w
      and \s of [re] contain.
    - A Python [int] is a [Z].
    - [datetime] values are microseconds on a naive UTC time line, a [Z];
      the ISO-8601 text that the state file holds for them is identified
      with the instant it denotes ([isoformat] and [fromisoformat] are
      inverse to each other at microsecond precision).
    - Exceptions are values of [exn]; a computation that may raise returns
      a [result]. *)

From Stdlib Require Import ZArith Lia Ascii String.
From stdpp Require Import base tactics option list strings pretty gmap sorting.

Local Open Scope string_scope.
Local Open Scope Z_scope.

(* ===================================================================== *)
(** * Characters and text *)
(* ===================================================================== *)

Module Text.

Definition code (a : ascii) : N := Ascii.N_of_ascii a.

Definition between (lo hi : N) (a : ascii) : bool :=
  ((lo <=? code a) && (code a <=? hi))%N.

Definition is_char (c a : ascii) : bool := (code a =? code c)%N.

(** \d : the decimal digits below code point 256 are 0-9. *)
Definition is_digit : ascii → bool := between 48 57.

Definition is_upper_AZ : ascii → bool := between 65 90.

(** [str.isspace] and \s below 256. *)
Definition is_space (a : ascii) : bool :=
  between 9 13 a || between 28 32 a || is_char "133" a || is_char "160" a.

(** \w : [str.isalnum] or underscore, below 256. *)
Definition is_word (a : ascii) : bool :=
  between 48 57 a || between 65 90 a || between 97 122 a || is_char "_" a
  || is_char "170" a || between 178 179 a || is_char "181" a
  || between 185 186 a || between 188 190 a
  || between 192 214 a || between 216 246 a || between 248 255 a.

Definition chars (s : string) : list ascii := String.list_ascii_of_string s.
Definition text (l : list ascii) : string := String.string_of_list_ascii l.

(** [s[i:j]] *)
Definition slice (l : list ascii) (i j : nat) : list ascii :=
  take (j - i) (drop i l).

(** [str.upper] on the ASCII letters; no other character below 256
    becomes an ASCII letter under [upper]. *)
Definition upper_char (a : ascii) : ascii :=
  if between 97 122 a then Ascii.ascii_of_N (code a - 32) else a.

Definition upper (s : string) : string := text (upper_char <$> chars s).

(** [int(s)] for a string of decimal digits. *)
Definition digit_value (a : ascii) : Z := Z.of_N (code a) - 48.

Definition int_of_digits (l : list ascii) : Z :=
  foldl (λ acc a, 10 * acc + digit_value a) 0 l.

Definition digit_char (d : Z) : ascii := Ascii.ascii_of_N (Z.to_N (48 + d)).

(** The decimal digits of a natural number, least significant first,
    [n] of them. *)
Fixpoint low_digits (n : nat) (v : Z) : list ascii :=
  match n with
  | O => []
  | S n' => digit_char (v mod 10) :: low_digits n' (v / 10)
  end.

(** [f"{v:0{w}d}"] for [0 <= v < 10^w]. *)
Definition zero_padded (w : nat) (v : Z) : list ascii :=
  reverse (low_digits w v).

(** [str.split()] : the maximal runs of non-space characters. *)
Fixpoint split_ws_go (cur : list ascii) (l : list ascii) : list (list ascii) :=
  match l with
  | [] => match cur with [] => [] | _ => [reverse cur] end
  | a :: l' =>
      if is_space a
      then match cur with
           | [] => split_ws_go [] l'
           | _ => reverse cur :: split_ws_go [] l'
           end
      else split_ws_go (a :: cur) l'
  end.

Definition split_ws (l : list ascii) : list (list ascii) := split_ws_go [] l.

Fixpoint drop_while (p : ascii → bool) (l : list ascii) : list ascii :=
  match l with
  | [] => []
  | a :: l' => if p a then drop_while p l' else l
  end.

(** [str.strip()] *)
Definition lstrip (l : list ascii) : list ascii := drop_while is_space l.

Definition strip (s : string) : string :=
  text (reverse (lstrip (reverse (lstrip (chars s))))).

(** [s.rstrip('/')] *)
Definition rstrip_slash (s : string) : string :=
  text (reverse (drop_while (is_char "/") (reverse (chars s)))).

(** [" ".join(parts)] *)
Fixpoint join_sp (parts : list (list ascii)) : list ascii :=
  match parts with
  | [] => []
  | [p] => p
  | p :: ps => p ++ " "%char :: join_sp ps
  end.

End Text.

(* ===================================================================== *)
(** * A backtracking matcher for the regular expressions of parser.py *)
(* ===================================================================== *)

Module Re.
Import Text.

Inductive regex : Type :=
| Cls (p : ascii → bool)            (* one character of a class *)
| Seq (r1 r2 : regex)
| Alt (r1 r2 : regex)                (* r1|r2, r1 tried first *)
| Rep (r : regex) (lo extra : nat)   (* greedy r{lo,lo+extra} *)
| Star (r : regex)                   (* greedy r* *)
| WordB                              (* \b *)
| Group (n : nat) (r : regex).       (* capturing group number n *)

(** The spans [(start, end)] of the groups that took part in the match. *)
Definition captures : Type := list (nat * (nat * nat)).

(** The span a group was last given. *)
Fixpoint group_span (c : captures) (n : nat) : option (nat * nat) :=
  match c with
  | [] => None
  | (m, sp) :: c' => if (m =? n)%nat then Some sp else group_span c' n
  end.

Definition cont : Type := nat → captures → option (nat * captures).

Definition stepper : Type := nat → captures → cont → option (nat * captures).

(** Greedy optional rounds: up to [extra] more, giving back one round at
    a time when the rest fails. *)
Fixpoint rep_extra (step : stepper) (extra : nat) (i : nat) (c : captures)
    (k : cont) : option (nat * captures) :=
  match extra with
  | S extra' =>
      match step i c (λ j c', rep_extra step extra' j c' k) with
      | Some m => Some m
      | None => k i c
      end
  | O => k i c
  end.

(** Bounded repetition: [lo] mandatory rounds, then the optional ones. *)
Fixpoint rep (step : stepper) (lo extra : nat) (i : nat) (c : captures)
    (k : cont) : option (nat * captures) :=
  match lo with
  | S lo' => step i c (λ j c', rep step lo' extra j c' k)
  | O => rep_extra step extra i c k
  end.

Definition word_at (s : list ascii) (i : nat) : bool :=
  from_option is_word false (s !! i).

(** \b at position [i]: exactly one side is a word character. *)
Definition at_boundary (s : list ascii) (i : nat) : bool :=
  xorb (match i with O => false | S j => word_at s j end) (word_at s i).

(** [exec r s i c k]: match [r] in [s] from position [i], then continue
    with [k]; the first success in backtracking order is the result. *)
Fixpoint exec (r : regex) (s : list ascii) (i : nat) (c : captures)
    (k : cont) : option (nat * captures) :=
  match r with
  | Cls p =>
      match s !! i with
      | Some a => if p a then k (S i) c else None
      | None => None
      end
  | Seq r1 r2 => exec r1 s i c (λ j c', exec r2 s j c' k)
  | Alt r1 r2 =>
      match exec r1 s i c k with
      | Some m => Some m
      | None => exec r2 s i c k
      end
  | Rep r' lo extra => rep (exec r' s) lo extra i c k
  | Star r' => rep (exec r' s) O (length s) i c k
  | WordB => if at_boundary s i then k i c else None
  | Group n r' => exec r' s i c (λ j c', k j ((n, (i, j)) :: c'))
  end.

(** [pattern.match(s, pos)] : anchored at [pos]; the end of the match and
    the groups. *)
Definition match_at (r : regex) (s : list ascii) (pos : nat)
    : option (nat * captures) :=
  exec r s pos [] (λ j c, Some (j, c)).

Record found : Type := Found { m_start : nat; m_end : nat; m_groups : captures }.

(** The leftmost match starting at [pos], [pos+1], ..., at most [n]
    starting points. *)
Fixpoint search_from (r : regex) (s : list ascii) (n : nat) (pos : nat)
    : option found :=
  match match_at r s pos with
  | Some (e, c) => Some (Found pos e c)
  | None =>
      match n with
      | O => None
      | S n' => search_from r s n' (S pos)
      end
  end.

(** [pattern.search(s)] *)
Definition search (r : regex) (s : list ascii) : option found :=
  search_from r s (length s) O.

(** [m.group(n)] *)
Definition group (s : list ascii) (m : found) (n : nat) : option (list ascii) :=
  match n with
  | O => Some (slice s (m_start m) (m_end m))
  | _ => (λ sp, slice s sp.1 sp.2) <$> group_span (m_groups m) n
  end.

(** [pattern.findall(s)] for a pattern with one group: group 1 of the
    successive non-overlapping matches, left to right.  After an empty
    match the scan moves one character on. *)
Fixpoint findall_from (r : regex) (s : list ascii) (fuel : nat) (pos : nat)
    : list (list ascii) :=
  match fuel with
  | O => []
  | S fuel' =>
      match search_from r s (length s - pos) pos with
      | None => []
      | Some m =>
          from_option id [] (group s m 1)
          :: findall_from r s fuel'
               (if (m_end m =? m_start m)%nat then S (m_end m) else m_end m)
      end
  end.

Definition findall (r : regex) (s : list ascii) : list (list ascii) :=
  findall_from r s (S (length s)) O.

(** Shorthands. *)
Definition d : regex := Cls is_digit.
Definition chr (c : ascii) : regex := Cls (is_char c).
Definition times (r : regex) (n : nat) : regex := Rep r n 0.
Fixpoint seqs (rs : list regex) : regex :=
  match rs with
  | [] => Rep (Cls (λ _, false)) 0 0
  | [r] => r
  | r :: rs' => Seq r (seqs rs')
  end.

End Re.

(* ===================================================================== *)
(** * parser.py *)
(* ===================================================================== *)

Module Parser.
Import Text Re.

(** [MATRICULE_REGEX = \b([A-Z]\d{4})\b] *)
Definition MATRICULE_REGEX : regex :=
  seqs [WordB; Group 1 (Seq (Cls is_upper_AZ) (times d 4)); WordB].

(** [RANK_REGEX = \b(\d{1,3})\b] *)
Definition RANK_REGEX : regex :=
  seqs [WordB; Group 1 (Rep d 1 2); WordB].

(** [DATE_REGEX = \b((\d{4}-\d{2}-\d{2})|(\d{1,2}/\d{1,2}/\d{4}))\b] *)
Definition DATE_REGEX : regex :=
  seqs [WordB;
        Group 1
          (Alt (Group 2 (seqs [times d 4; chr "-"; times d 2; chr "-"; times d 2]))
               (Group 3 (seqs [Rep d 1 1; chr "/"; Rep d 1 1; chr "/"; times d 4])));
        WordB].

(** [SHIFT_REGEX = (\d{1,2}[:h]\d{2})\s*[-à]\s*(\d{1,2}[:h]\d{2})] *)
Definition clock_time : regex :=
  seqs [Rep d 1 1; Cls (λ a, is_char ":" a || is_char "h" a); times d 2].

Definition SHIFT_REGEX : regex :=
  seqs [Group 1 clock_time; Star (Cls is_space);
        Cls (λ a, is_char "-" a || is_char "224" a);
        Star (Cls is_space); Group 2 clock_time].

Record Entry : Type := mkEntry {
  label : string;
  page : Z;
  rank : Z;
  target : string;
  shift : option string;
  date : option string;
  raw : string;
}.

#[global] Instance Entry_eq_dec : EqDecision Entry.
Proof. solve_decision. Defined.

(** [_extract_rank]: the first token of one to three digits whose value
    is positive, 9999 when there is none. *)
Definition _extract_rank (line : list ascii) : Z :=
  from_option id 9999
    (head (filter (λ v, 0 < v) (int_of_digits <$> findall RANK_REGEX line))).

(** [value.replace("h", ":").split(":")] *)
Fixpoint split_colon_go (cur : list ascii) (l : list ascii) : list (list ascii) :=
  match l with
  | [] => [reverse cur]
  | a :: l' =>
      if is_char ":" a || is_char "h" a
      then reverse cur :: split_colon_go [] l'
      else split_colon_go (a :: cur) l'
  end.

(** [f"{v:02d}"] for a value of at most two digits, which is what one or
    two captured digits denote. *)
Definition fmt_02d (v : Z) : list ascii := zero_padded 2 v.

(** [_normalise_time], called on the text of a [clock_time] group: both
    parts are digits, so neither [int] raises. *)
Definition _normalise_time (value : list ascii) : list ascii :=
  let parts := split_colon_go [] value in
  let hour := int_of_digits (from_option id [] (parts !! 0%nat)) in
  let minute :=
    match parts !! 1%nat with
    | Some p => int_of_digits p
    | None => 0
    end in
  fmt_02d hour ++ ":"%char :: fmt_02d minute.

Definition _extract_shift (line : list ascii) : option string :=
  match search SHIFT_REGEX line with
  | None => None
  | Some m =>
      let start := from_option id [] (group line m 1) in
      let end_ := from_option id [] (group line m 2) in
      Some (text (_normalise_time start ++ "-"%char :: _normalise_time end_))
  end.

(** ** [datetime.strptime] and [strftime] for the two formats used *)

Definition cls_range (lo hi : ascii) : regex := Cls (between (code lo) (code hi)).

(** The patterns [_strptime] compiles for the directives. *)
Definition re_pct_d : regex :=
  Alt (Seq (chr "3") (cls_range "0" "1"))
 (Alt (Seq (cls_range "1" "2") d)
 (Alt (Seq (chr "0") (cls_range "1" "9"))
 (Alt (cls_range "1" "9")
      (Seq (chr " ") (cls_range "1" "9"))))).

Definition re_pct_m : regex :=
  Alt (Seq (chr "1") (cls_range "0" "2"))
 (Alt (Seq (chr "0") (cls_range "1" "9"))
      (cls_range "1" "9")).

Definition re_pct_Y : regex := seqs [d; d; d; d].

Inductive directive : Type := pct_d | pct_m | pct_Y.

Definition directive_re (x : directive) : regex :=
  match x with pct_d => re_pct_d | pct_m => re_pct_m | pct_Y => re_pct_Y end.

Definition directive_group (x : directive) : nat :=
  match x with pct_d => 1%nat | pct_m => 2%nat | pct_Y => 3%nat end.

(** A format [%a/%b/%c] as the sequence of its three directives. *)
Definition format_re (a b c : directive) : regex :=
  seqs [Group (directive_group a) (directive_re a); chr "/";
        Group (directive_group b) (directive_re b); chr "/";
        Group (directive_group c) (directive_re c)].

Definition is_leap (y : Z) : bool :=
  (y mod 4 =? 0) && (negb (y mod 100 =? 0) || (y mod 400 =? 0)).

Definition days_in_month (y m : Z) : Z :=
  if m =? 2 then (if is_leap y then 29 else 28)
  else if (m =? 4) || (m =? 6) || (m =? 9) || (m =? 11) then 30
  else 31.

Record date_t : Type := mkDate { year : Z; month : Z; day : Z }.

(** [datetime(year, month, day)] raises [ValueError] outside these. *)
Definition valid_date (dt : date_t) : bool :=
  (1 <=? year dt) && (year dt <=? 9999)
  && (1 <=? month dt) && (month dt <=? 12)
  && (1 <=? day dt) && (day dt <=? days_in_month (year dt) (month dt)).

(** [int] of a captured group; a space may lead the day. *)
Definition int_of_group (l : list ascii) : Z :=
  int_of_digits (filter (λ a, is_digit a = true) l).

(** [datetime.strptime(value, fmt)] for [fmt = %a/%b/%c]; [None] is
    [ValueError]: no match at the start, unconverted data left over, or
    no such day. *)
Definition strptime (value : list ascii) (a b c : directive) : option date_t :=
  match match_at (format_re a b c) value 0 with
  | None => None
  | Some (e, caps) =>
      if negb (e =? length value)%nat then None
      else
        let grp n := int_of_group
                       (from_option (λ sp, slice value sp.1 sp.2) []
                          (group_span caps n)) in
        let dt := mkDate (grp 3%nat) (grp 2%nat) (grp 1%nat) in
        if valid_date dt then Some dt else None
  end.

(** [dt.strftime("%Y-%m-%d")] as the C library of the platform the
    program runs on gives it: glibc writes the year in as many digits as
    it has, so a year below 1000 comes out unpadded (999-03-15); month and
    day have two digits. *)
Definition strftime_ymd (dt : date_t) : list ascii :=
  chars (pretty (year dt)) ++ "-"%char :: zero_padded 2 (month dt)
    ++ "-"%char :: zero_padded 2 (day dt).

Definition _normalise_date (value : list ascii) : list ascii :=
  match strptime value pct_d pct_m pct_Y with
  | Some dt => strftime_ymd dt
  | None =>
      match strptime value pct_Y pct_m pct_d with
      | Some dt => strftime_ymd dt
      | None => value
      end
  end.

Definition _extract_date (line : list ascii) : option string :=
  match search DATE_REGEX line with
  | None => None
  | Some m =>
      let value := from_option id [] (group line m 1) in
      if bool_decide ("-"%char ∈ value) then Some (text value)
      else Some (text (_normalise_date value))
  end.

(** One line of [parse_entries]. *)
Definition parse_line (raw_line : string) (label : string) (page : Z)
    (targets_set : list string) : list Entry :=
  let line := join_sp (split_ws (chars raw_line)) in
  let matches := findall MATRICULE_REGEX line in
  let matched_targets :=
    filter (λ m, upper (text m) ∈ targets_set) matches in
  match matched_targets with
  | [] => []
  | _ =>
      let rank := _extract_rank line in
      let shift := _extract_shift line in
      let date := _extract_date line in
      (λ t, mkEntry label page rank (upper (text t)) shift date (text line))
        <$> matched_targets
  end.

Definition parse_entries (lines : list string) (label : string) (page : Z)
    (targets : list string) : list Entry :=
  let targets_set := upper <$> targets in
  lines ≫= (λ raw_line, parse_line raw_line label page targets_set).

End Parser.


(* ===================================================================== *)
(** * Exceptions, the outside world and the effect monad *)
(* ===================================================================== *)

Inductive exn : Type :=
| HTTPError (status : Z)      (* requests.HTTPError *)
| ConnectionError             (* requests.ConnectionError *)
| Timeout                     (* requests.Timeout *)
| RuntimeError                (* login form not found *)
| UnicodeDecodeError          (* a file that is not UTF-8 text *)
| KeyboardInterrupt
| KeyError                    (* str.format: a field the context lacks *)
| IndexError                  (* str.format: a positional field *)
| ValueError                  (* str.format: a stray brace, a bad specification *)
| AttributeError              (* an attribute the value does not have *)
| TypeError                   (* an operation the value does not support *)
| OverflowError               (* timedelta: a duration out of range *)
| RecursionError              (* json.load: a document nested too deep *)
| OSError.                    (* a file that cannot be opened or read *)

#[global] Instance exn_eq_dec : EqDecision exn.
Proof. solve_decision. Defined.

Inductive result (A : Type) : Type :=
| Ok (a : A)
| Raise (e : exn).
Arguments Ok {A} a.
Arguments Raise {A} e.

(* ===================================================================== *)
(** * state.py: the data *)
(* ===================================================================== *)

Module State.

Record EntryState : Type := mkEntryState {
  rank : Z;
  page : Z;
  shift : option string;
  date : option string;
  raw : string;
  updated_at : Z;
}.

Record AlertState : Type := mkAlertState { sent_at : Z }.

Record State : Type := mkState {
  entries : gmap string (gmap string EntryState);
  alerts : gmap string AlertState;
}.

#[global] Instance EntryState_eq_dec : EqDecision EntryState.
Proof. solve_decision. Defined.
#[global] Instance AlertState_eq_dec : EqDecision AlertState.
Proof. solve_decision. Defined.
#[global] Instance State_eq_dec : EqDecision State.
Proof. solve_decision. Defined.

(** [State()] *)
Definition empty : State := mkState ∅ ∅.

(** [self.entries.get(label, {}).get(target)] *)
Definition best_previous (s : State) (label target : string)
    : option EntryState :=
  default ∅ (entries s !! label) !! target.

(** ** The state document

    The JSON text of the state file is identified with the document it
    decodes to.  A JSON object is the list of its members in the order of
    the text, which is the order in which [dict.items()] yields them
    after [json.load].  The members that [load_state] reads with a
    default may be missing. *)

Record EntryJson : Type := mkEntryJson {
  j_rank : option Z;
  j_page : option Z;
  j_shift : option string;      (* missing or null *)
  j_date : option string;       (* missing or null *)
  j_raw : option string;
  j_updated_at : option Z;
}.

Record AlertJson : Type := mkAlertJson { j_sent_at : option Z }.

Record Payload : Type := mkPayload {
  p_entries : option (list (string * list (string * EntryJson)));
  p_alerts : option (list (string * AlertJson));
}.

(** What [load_state] meets in the file, opened as UTF-8 text:
    - bytes that are not UTF-8, on which [json.load] raises
      UnicodeDecodeError;
    - text that is not JSON, on which it raises json.JSONDecodeError;
    - JSON nested deeper than the interpreter's stack admits, on which it
      raises RecursionError;
    - JSON of another shape than the one [save_state] writes ([[]], [null],
      a number where an object is expected): the first [.get] or
      [.items()] that meets a value without that method raises
      AttributeError, after one reading of the clock for each entry and
      alert loaded before it, [readings] in all;
    - a file on which [open] or [json.load] raises another exception
      still: OSError when the path is a directory or may not be read,
      ValueError for a number of more digits than [int] converts;
    - a document of the shape [save_state] writes, its members holding
      values of the types the program writes. *)
Inductive FileContent : Type :=
| Undecodable
| Malformed
| TooDeep
| Misshapen (readings : nat)
| Refused (e : exn)
| Document (p : Payload).

(** [entry.__dict__] and [alert.__dict__] *)
Definition entry_dict (e : EntryState) : EntryJson :=
  mkEntryJson (Some (rank e)) (Some (page e)) (shift e) (date e)
    (Some (raw e)) (Some (updated_at e)).

Definition alert_dict (a : AlertState) : AlertJson :=
  mkAlertJson (Some (sent_at a)).

(** [sort_keys=True]: the members of every object in the order of their
    keys. *)
Definition key_le {V : Type} (a b : string * V) : Prop :=
  String.leb a.1 b.1 = true.

#[global] Instance key_le_dec {V : Type} (a b : string * V) : Decision (key_le a b).
Proof. unfold key_le. apply _. Defined.

Definition sorted_items {V : Type} (m : gmap string V) : list (string * V) :=
  merge_sort key_le (map_to_list m).

(** The document [save_state] writes. *)
Definition payload_of (s : State) : Payload :=
  mkPayload
    (Some (sorted_items ((λ targets, sorted_items (entry_dict <$> targets))
                           <$> entries s)))
    (Some (sorted_items (alert_dict <$> alerts s))).

End State.

(** The configuration (config.py), as far as the watcher reads it. *)
Record DiscordConfig : Type := mkDiscordConfig {
  webhook_url : string;
  ping : string;
  top_template : string;
  warn_template : string;
  update_template : string;
}.

Record WatchConfig : Type := mkWatchConfig {
  list_urls : list string;
  list_labels : list string;
  target_ids : list string;
  page_limit : Z;
  sleep_seconds : Z;
  cooldown_minutes : Z;
  top_threshold : Z;
  warn_threshold : Z;
}.

Record AppConfig : Type := mkAppConfig {
  discord : option DiscordConfig;
  watch : WatchConfig;
}.

(** [FetchResult] (http.py); [content_type] is the property computed from
    the headers. *)
Record FetchResult : Type := mkFetchResult {
  status_code : Z;
  content : string;
  content_type : string;
}.

(** The message handed to the webhook: the template and the context that
    [str.format] renders it with. *)
Record Message : Type := mkMessage {
  msg_template : string;
  msg_ping : string;
  msg_label : string;
  msg_rank : Z;
  msg_target : string;
  msg_shift : string;
  msg_date : string;
}.

#[global] Instance Message_eq_dec : EqDecision Message.
Proof. solve_decision. Defined.

(** What the process cannot decide: the readings of the clock, the answers
    of the servers, the libraries that turn a payload into lines.  The
    n-th reading, the n-th fetch and the n-th POST of a run are numbered
    from 0.  [str_format] is [str.format] on a template and the context of
    a message: the text, or the exception it raises (KeyError for a field
    that the context lacks, IndexError for a positional field, ValueError
    for a stray brace or a specification that does not fit the value,
    AttributeError or TypeError for an attribute or an index of a
    field that the value does not have). *)
Record Env : Type := mkEnv {
  clock : nat → Z;                              (* datetime.utcnow() *)
  login_outcome : result unit;                  (* WatcherSession.login, both *)
  site : nat → string → result FetchResult;     (* WatcherSession.fetch(url) *)
  webhook : nat → result Z;                     (* requests.post: the status *)
  sha256_hex : string → string;                 (* hashlib.sha256(b).hexdigest() *)
  extract_lines : string → string → list string;
  str_format : Message → result string;         (* str.format on the template *)
}.

(** What the process changes: its [State] object, the state file, and the
    record of what it asked of the outside. *)
Record World : Type := mkWorld {
  state : State.State;
  file : option State.FileContent;   (* [None]: the file does not exist *)
  reads : nat;                       (* clock readings so far *)
  fetched : list string;             (* URLs fetched so far, oldest first *)
  posted : list Message;             (* messages posted so far, oldest first *)
}.

Definition M (A : Type) : Type := World → result A * World.

Definition ret {A : Type} (a : A) : M A := λ w, (Ok a, w).

Definition bind {A B : Type} (m : M A) (f : A → M B) : M B :=
  λ w, match m w with
       | (Ok a, w') => f a w'
       | (Raise e, w') => (Raise e, w')
       end.

Definition raise {A : Type} (e : exn) : M A := λ w, (Raise e, w).

Declare Scope eff_scope.
Delimit Scope eff_scope with eff.
Notation "'let!' x ':=' m 'in' k" := (bind m (λ x, k))
  (at level 10, x name, m at level 100, k at level 200,
   only parsing) : eff_scope.
Notation "m '>>' k" := (bind m (λ _, k))
  (at level 80, right associativity, only parsing) : eff_scope.
Local Open Scope eff_scope.

(** [for x in l: body(x)] *)
Fixpoint for_each {A : Type} (l : list A) (body : A → M unit) : M unit :=
  match l with
  | [] => ret tt
  | x :: l' => body x >> for_each l' body
  end.

(** [try: ... finally: cleanup], applied to the outcome of the body. *)
Definition finally {A : Type} (cleanup : M unit) (o : result A * World)
    : result A * World :=
  match cleanup o.2 with
  | (Ok _, w') => (o.1, w')
  | (Raise e, w') => (Raise e, w')
  end.

(** [try: ... except KeyboardInterrupt: handler], applied to the outcome of
    the body. *)
Definition except_KeyboardInterrupt (handler : M unit)
    (o : result unit * World) : result unit * World :=
  match o with
  | (Raise KeyboardInterrupt, w') => handler w'
  | _ => o
  end.

(** The outcome of a computation that does not touch the world. *)
Definition lift {A : Type} (r : result A) : M A := λ w, (r, w).

Definition modify_state (f : State.State → State.State) : M unit :=
  λ w, (Ok tt, mkWorld (f (state w)) (file w) (reads w) (fetched w) (posted w)).

Definition get_state : M State.State := λ w, (Ok (state w), w).


(** A Python [dict] where the order of insertion is observed: the items in
    that order.  Assigning to a key that is present keeps its place. *)
Section Dict.
Context {K V : Type} `{EqDecision K}.

Fixpoint dict_get (d : list (K * V)) (k : K) : option V :=
  match d with
  | [] => None
  | (k', v) :: d' => if decide (k' = k) then Some v else dict_get d' k
  end.

Fixpoint dict_set (d : list (K * V)) (k : K) (v : V) : list (K * V) :=
  match d with
  | [] => [(k, v)]
  | (k', v') :: d' =>
      if decide (k' = k) then (k, v) :: d' else (k', v') :: dict_set d' k v
  end.
End Dict.

(** [x or "?"] and [f"{x}"] for an optional string. *)
Definition or_question (o : option string) : string :=
  match o with
  | Some s => if decide (s = "") then "?" else s
  | None => "?"
  end.

Definition str_of (o : option string) : string := default "None" o.

(** A duration of [n] minutes, in microseconds. *)
Definition minutes (n : Z) : Z := n * 60000000.

(** [timedelta(minutes=n)]: a [timedelta] holds from -999999999 days to
    999999999 days, 23 hours, 59 minutes and 59.999999 seconds, and the
    constructor raises OverflowError outside. *)
Definition timedelta_in_range (n : Z) : bool :=
  (-1439999998560 <=? n) && (n <=? 1439999999999).

Definition timedelta_minutes (n : Z) : result Z :=
  if timedelta_in_range n then Ok (minutes n) else Raise OverflowError.

(* ===================================================================== *)
(** * state.py, notifier.py and watcher.py: the operations *)
(* ===================================================================== *)

Import Text.

Section Watcher.
Context (env : Env) (config : AppConfig) (once : bool).

(** [datetime.utcnow()] *)
Definition utcnow : M Z :=
  λ w, (Ok (clock env (reads w)),
        mkWorld (state w) (file w) (S (reads w)) (fetched w) (posted w)).

(** ** state.py *)

Definition entry_state (entry : Parser.Entry) (now : Z) : State.EntryState :=
  State.mkEntryState (Parser.rank entry) (Parser.page entry)
    (Parser.shift entry) (Parser.date entry) (Parser.raw entry) now.

Definition set_entry (label target : string) (es : State.EntryState)
    (s : State.State) : State.State :=
  State.mkState
    (<[label := <[target := es]> (default ∅ (State.entries s !! label))]>
       (State.entries s))
    (State.alerts s).

Definition record_entry (entry : Parser.Entry) : M unit :=
  let! now := utcnow in
  modify_state
    (set_entry (Parser.label entry) (Parser.target entry) (entry_state entry now)).

(** [should_alert]; the difference of the two times is taken before the
    cooldown is built. *)
Definition should_alert (key : string) (cooldown_minutes : Z) : M bool :=
  let! s := get_state in
  match State.alerts s !! key with
  | None => ret true
  | Some a =>
      let sent := State.sent_at a in
      let! now := utcnow in
      let! cooldown := lift (timedelta_minutes cooldown_minutes) in
      ret (cooldown <=? now - sent)
  end.

Definition record_alert (key : string) : M unit :=
  let! now := utcnow in
  modify_state
    (λ s, State.mkState (State.entries s)
            (<[key := State.mkAlertState now]> (State.alerts s))).

Definition load_entry (values : State.EntryJson) (now : Z) : State.EntryState :=
  State.mkEntryState
    (default 9999 (State.j_rank values))
    (default 9999 (State.j_page values))
    (State.j_shift values)
    (State.j_date values)
    (default "" (State.j_raw values))
    (default now (State.j_updated_at values)).

(** The default of [.get("updated_at", datetime.utcnow().isoformat())] is
    evaluated at every call: one reading of the clock per value. *)
Fixpoint load_targets (targets : list (string * State.EntryJson))
    (acc : gmap string State.EntryState) : M (gmap string State.EntryState) :=
  match targets with
  | [] => ret acc
  | (target, values) :: rest =>
      let! now := utcnow in
      load_targets rest (<[target := load_entry values now]> acc)
  end.

Fixpoint load_entries
    (items : list (string * list (string * State.EntryJson)))
    (acc : gmap string (gmap string State.EntryState))
    : M (gmap string (gmap string State.EntryState)) :=
  match items with
  | [] => ret acc
  | (label, targets) :: rest =>
      let! inner := load_targets targets ∅ in
      load_entries rest (<[label := inner]> acc)
  end.

Fixpoint load_alerts (items : list (string * State.AlertJson))
    (acc : gmap string State.AlertState) : M (gmap string State.AlertState) :=
  match items with
  | [] => ret acc
  | (key, values) :: rest =>
      let! now := utcnow in
      load_alerts rest
        (<[key := State.mkAlertState (default now (State.j_sent_at values))]> acc)
  end.

Definition load_state : M State.State :=
  λ w,
    match file w with
    | None => (Ok State.empty, w)
    | Some State.Undecodable => (Raise UnicodeDecodeError, w)
    | Some State.Malformed => (Ok State.empty, w)
    | Some State.TooDeep => (Raise RecursionError, w)
    | Some (State.Refused e) => (Raise e, w)
    | Some (State.Misshapen readings) =>
        (Raise AttributeError,
         mkWorld (state w) (file w) (readings + reads w) (fetched w) (posted w))
    | Some (State.Document payload) =>
        (let entries_payload := default [] (State.p_entries payload) in
         let alerts_payload := default [] (State.p_alerts payload) in
         let! entries := load_entries entries_payload ∅ in
         let! alerts := load_alerts alerts_payload ∅ in
         ret (State.mkState entries alerts)) w
    end.

(** [save_state]: the temporary file replaces the state file. *)
Definition save_state : M unit :=
  λ w, (Ok tt,
        mkWorld (state w) (Some (State.Document (State.payload_of (state w))))
          (reads w) (fetched w) (posted w)).

(** ** notifier.py *)

Definition enabled : bool := bool_decide (is_Some (discord config)).

(** [response.raise_for_status()] raises for the client and server error
    statuses. *)
Definition raise_for_status (status : Z) : M unit :=
  if (400 <=? status) && (status <? 600) then raise (HTTPError status)
  else ret tt.

Definition post (message : Message) : M Z :=
  λ w, (webhook env (length (posted w)),
        mkWorld (state w) (file w) (reads w) (fetched w) (posted w ++ [message])%list).

Definition send (message : Message) : M unit :=
  if negb enabled then ret tt
  else
    let! status := post message in
    raise_for_status status.

(** The template and the context that [format_message] hands to
    [str.format]. *)
Definition context_of (template : string) (label : string) (rank : Z)
    (target shift date : string) : Message :=
  match discord config with
  | None => mkMessage template "" label rank target shift date
  | Some dc => mkMessage template (strip (ping dc)) label rank target shift date
  end.

(** [format_message]: the message whose text is posted, or the exception
    of [str.format]. *)
Definition format_message (template : string) (label : string) (rank : Z)
    (target shift date : string) : M Message :=
  let message := context_of template label rank target shift date in
  let! _ := lift (str_format env message) in
  ret message.

(** ** watcher.py *)

Definition tier (rank : Z) : string * string :=
  let tpl (f : DiscordConfig → string) := from_option f "" (discord config) in
  if rank <=? top_threshold (watch config) then ("top", tpl top_template)
  else if rank <=? warn_threshold (watch config) then ("warn", tpl warn_template)
  else ("update", tpl update_template).

Definition alert_key (entry : Parser.Entry) (threshold : string) : string :=
  Parser.label entry +:+ "|" +:+ Parser.target entry +:+ "|"
    +:+ str_of (Parser.date entry) +:+ "|" +:+ str_of (Parser.shift entry)
    +:+ "|" +:+ threshold.

Definition _maybe_notify (entry : Parser.Entry) (change_type : string) : M unit :=
  if negb enabled then ret tt
  else
    let '(threshold, template) := tier (Parser.rank entry) in
    if decide (template = "") then ret tt
    else
      let key := alert_key entry threshold in
      let! go := should_alert key (cooldown_minutes (watch config)) in
      if negb go then ret tt
      else
        let! message :=
          format_message template (Parser.label entry) (Parser.rank entry)
            (Parser.target entry) (or_question (Parser.shift entry))
            (or_question (Parser.date entry)) in
        send message >>
        record_alert key >>
        save_state.

(** The first loop of [_handle_entries]. *)
Definition better (entry previous : Parser.Entry) : bool :=
  (Parser.rank entry <? Parser.rank previous)
  || ((Parser.rank entry =? Parser.rank previous)
      && (Parser.page entry <? Parser.page previous)).

Definition entry_key (entry : Parser.Entry) : string * string :=
  (Parser.label entry, Parser.target entry).

Definition select_step (best : list (string * string * Parser.Entry))
    (entry : Parser.Entry) : list (string * string * Parser.Entry) :=
  let key := entry_key entry in
  match dict_get best key with
  | None => dict_set best key entry
  | Some previous =>
      if better entry previous then dict_set best key entry else best
  end.

Definition select_best (entries : list Parser.Entry)
    : list (string * string * Parser.Entry) :=
  foldl select_step [] entries.

(** The second loop: the three branches of the body, named. *)
Inductive classification : Type := new | changed | unchanged.

Definition differs (entry : Parser.Entry) (previous_state : State.EntryState)
    : bool :=
  (Parser.rank entry <? State.rank previous_state)
  || (Parser.page entry <? State.page previous_state)
  || negb (bool_decide (Parser.shift entry = State.shift previous_state))
  || negb (bool_decide (Parser.date entry = State.date previous_state)).

Definition classify (previous_state : option State.EntryState)
    (entry : Parser.Entry) : classification :=
  match previous_state with
  | None => new
  | Some p => if differs entry p then changed else unchanged
  end.

Definition handle_best (item : string * string * Parser.Entry) : M unit :=
  let '(label, target, entry) := item in
  let! s := get_state in
  let previous_state := State.best_previous s label target in
  record_entry entry >>
  match classify previous_state entry with
  | new => _maybe_notify entry "new"
  | changed => _maybe_notify entry "update"
  | unchanged => ret tt
  end.

Definition _handle_entries (entries : list Parser.Entry) : M unit :=
  for_each (select_best entries) handle_best.

(** [self.config.watch.paired_labels] *)
Fixpoint paired_from (index : nat) (urls : list string) : list (string * string) :=
  match urls with
  | [] => []
  | url :: urls' =>
      (url, default ("Liste " +:+ pretty index)
              (list_labels (watch config) !! index))
      :: paired_from (S index) urls'
  end.

Definition paired_labels : list (string * string) :=
  paired_from 0 (list_urls (watch config)).

Definition fetch (url : string) : M FetchResult :=
  λ w, (site env (length (fetched w)) url,
        mkWorld (state w) (file w) (reads w) (fetched w ++ [url])%list (posted w)).

Definition page_url (base_url : string) (page : Z) : string :=
  rstrip_slash base_url +:+ "/" +:+ pretty page.

(** What the pagination loop carries: [seen_pages] and [new_entries]. *)
Definition pass_acc : Type := gmap string (list string) * list Parser.Entry.

(** [while page < page_limit], entered with [page = 0]: [remaining] is
    [page_limit - page], the number of rounds the test still admits. *)
Fixpoint fetch_pages (remaining : nat) (base_url label : string) (page : Z)
    (acc : pass_acc) : M pass_acc :=
  match remaining with
  | O => ret acc
  | S remaining' =>
      let '(seen_pages, new_entries) := acc in
      let url := page_url base_url page in
      let! result := fetch url in
      let previous_contents : list string := default [] (seen_pages !! label) in
      let content_hash := sha256_hex env (content result) in
      if bool_decide (content_hash ∈@{list string} previous_contents)
      then ret acc
      else
        let seen_pages' :=
          <[label := (previous_contents ++ [content_hash])%list]> seen_pages in
        let lines := extract_lines env (content result) (content_type result) in
        let entries :=
          Parser.parse_entries lines label page (target_ids (watch config)) in
        fetch_pages remaining' base_url label (page + 1)
          (seen_pages', (new_entries ++ entries)%list)
  end.

Fixpoint fetch_lists (lists : list (string * string)) (acc : pass_acc)
    : M pass_acc :=
  match lists with
  | [] => ret acc
  | (base_url, label) :: lists' =>
      let! acc' :=
        fetch_pages (Z.to_nat (page_limit (watch config))) base_url label 0 acc in
      fetch_lists lists' acc'
  end.

Definition _run_once : M unit :=
  let! acc := fetch_lists paired_labels (∅, []) in
  _handle_entries acc.2 >>
  save_state.

Definition _login : M unit := λ w, (login_outcome env, w).

(** One round of [while True]; [true] when the loop is left by [break]. *)
Definition run_round : M bool :=
  let! start_ts := utcnow in
  _run_once >>
  let! end_ts := utcnow in
  ret once.

(** [fuel] rounds of the loop; [None] when they all end without leaving
    it, the loop still running. *)
Fixpoint run_loop (fuel : nat) : World → option (result unit * World) :=
  λ w,
    match fuel with
    | O => None
    | S fuel' =>
        match run_round w with
        | (Ok true, w') => Some (Ok tt, w')
        | (Ok false, w') => run_loop fuel' w'
        | (Raise e, w') => Some (Raise e, w')
        end
    end.

(** The body of [try] in [Watcher.run]. *)
Definition run_body (fuel : nat) : World → option (result unit * World) :=
  λ w,
    match _login w with
    | (Ok _, w') => run_loop fuel w'
    | (Raise e, w') => Some (Raise e, w')
    end.

(** [Watcher.run]: [except KeyboardInterrupt] logs, [finally] saves the
    state. *)
Definition run (fuel : nat) : World → option (result unit * World) :=
  λ w,
    (λ o, finally save_state (except_KeyboardInterrupt (ret tt) o))
      <$> run_body fuel w.

(** [Watcher.__init__]: the state is loaded from the state file. *)
Definition init : M unit :=
  let! s := load_state in
  modify_state (λ _, s).

End Watcher.

(* ===================================================================== *)
(** * Definitions used to state the properties *)
(* ===================================================================== *)

(** The order of the selection: rank first, page second. *)
Definition lex_lt (e p : Parser.Entry) : Prop :=
  Parser.rank e < Parser.rank p
  ∨ (Parser.rank e = Parser.rank p ∧ Parser.page e < Parser.page p).

(** The fold of the selection on the records of one key. *)
Definition keep_better (o : option Parser.Entry) (e : Parser.Entry)
    : option Parser.Entry :=
  match o with
  | None => Some e
  | Some p => if better e p then Some e else Some p
  end.

Definition of_key (k : string * string) (l : list Parser.Entry)
    : list Parser.Entry :=
  filter (λ e, entry_key e = k) l.

(** What a [PositionState] holds apart from the time it was written. *)
Definition position (es : State.EntryState)
    : Z * Z * option string * option string * string :=
  (State.rank es, State.page es, State.shift es, State.date es, State.raw es).

(** The world after [k] rounds of the loop of [Watcher.run] that all came
    back to the top of the loop. *)
Fixpoint after_rounds (env : Env) (config : AppConfig) (once : bool)
    (k : nat) (w : World) : option World :=
  match k with
  | O => Some w
  | S k' =>
      match run_round env config once w with
      | (Ok false, w') => after_rounds env config once k' w'
      | _ => None
      end
  end.

(** The fingerprint of a fetched page, and the records page [page] of the
    list [label] contributes when the server returns [r] for it. *)
Definition fingerprint (env : Env) (r : FetchResult) : string :=
  sha256_hex env (content r).

Definition records_of (env : Env) (config : AppConfig) (label : string)
    (page : nat) (r : FetchResult) : list Parser.Entry :=
  Parser.parse_entries (extract_lines env (content r) (content_type r))
    label (Z.of_nat page) (target_ids (watch config)).

Definition url_of (base_url : string) (page : nat) : string :=
  page_url base_url (Z.of_nat page).

(** The same for the pages of a list, [res j] being what the server
    returns for page [j]. *)
Definition hash_at (env : Env) (res : nat → FetchResult) (j : nat) : string :=
  fingerprint env (res j).

Definition records_at (env : Env) (config : AppConfig) (label : string)
    (res : nat → FetchResult) (j : nat) : list Parser.Entry :=
  records_of env config label j (res j).

(** The world after [n] more readings of the clock. *)
Definition bump (n : nat) (w : World) : World :=
  mkWorld (state w) (file w) (n + reads w) (fetched w) (posted w).

(** The items of a selection: one item per key, each under the key of its
    record. *)
Definition keyed (items : list (string * string * Parser.Entry)) : Prop :=
  NoDup items.*1 ∧ Forall (λ it, entry_key it.2 = it.1) items.

(** The world after the URLs [urls] have been fetched. *)
Definition add_fetched (urls : list string) (w : World) : World :=
  mkWorld (state w) (file w) (reads w) (fetched w ++ urls)%list (posted w).

(** The world after one reading of the clock. *)
Definition tick (w : World) : World :=
  mkWorld (state w) (file w) (S (reads w)) (fetched w) (posted w).

(** The world once [save_state] has run. *)
Definition flushed (w : World) : World :=
  mkWorld (state w) (Some (State.Document (State.payload_of (state w))))
    (reads w) (fetched w) (posted w).

(** What the dispatcher goes on with once the cooldown test has let it
    pass: the text is formatted, the message posted, the alert recorded and
    the state saved. *)
Definition dispatch (env : Env) (config : AppConfig) (entry : Parser.Entry)
    (threshold template : string) : M unit :=
  let! message :=
    format_message env config template (Parser.label entry)
      (Parser.rank entry) (Parser.target entry)
      (or_question (Parser.shift entry)) (or_question (Parser.date entry)) in
  send env config message >>
  record_alert env (alert_key entry threshold) >>
  save_state.

(** The message a dispatch of a record posts: the template of the tier
    of its rank with the context of the record. *)
Definition message_of (config : AppConfig) (entry : Parser.Entry) : Message :=
  context_of config (tier config (Parser.rank entry)).2 (Parser.label entry)
    (Parser.rank entry) (Parser.target entry)
    (or_question (Parser.shift entry)) (or_question (Parser.date entry)).

(** Unfold the operations on the world. *)
Ltac unfold_eff :=
  unfold _maybe_notify, should_alert, format_message, send, post,
    raise_for_status, record_alert, save_state, record_entry, utcnow,
    modify_state, get_state, lift, bind, ret, raise in *.

(** Unfold the operations and split on every test they make. *)
Ltac crunch_eff :=
  unfold_eff; simpl in *;
  repeat (case_match; simpl in *; simplify_eq; try done).

(* ===================================================================== *)
(** * Sample data *)
(* ===================================================================== *)

Module Sample.

(** Two records of one target at rank 5, on pages 0 and 1. *)
Definition e0 : Parser.Entry :=
  Parser.mkEntry "L" 0 5 "A1234" None None "5 A1234".
Definition e1 : Parser.Entry :=
  Parser.mkEntry "L" 1 5 "A1234" None None "5 A1234".

(** Two lines of one page that name the same target at the same rank. *)
Definition tied_lines : list string :=
  ["5 A1234 08:00-12:00"; "5 A1234 13:00-17:00"].

Definition tied : list Parser.Entry :=
  Parser.parse_entries tied_lines "L" 0 ["A1234"].
Definition tied_rev : list Parser.Entry :=
  Parser.parse_entries (reverse tied_lines) "L" 0 ["A1234"].

(** Two records of one page at different ranks. *)
Definition ra : Parser.Entry :=
  Parser.mkEntry "L" 0 5 "A1234" (Some "08:00-12:00") None "a".
Definition rb : Parser.Entry :=
  Parser.mkEntry "L" 0 7 "A1234" (Some "13:00-17:00") None "b".

(** A watcher of one list for one target, with a webhook. *)
Definition dc : DiscordConfig :=
  mkDiscordConfig "https://hook" "@here" "TOP {label} #{rank}"
    "WARN {label} #{rank}" "INFO {label} #{rank}".

Definition config : AppConfig :=
  mkAppConfig (Some dc)
    (mkWatchConfig ["https://intranet/liste/"] ["L"] ["A1234"] 20 300 30 6 10).

(** A list of four pages of which the third repeats the first. *)
Definition page_text (url : string) : string :=
  if decide (url = "https://intranet/liste/0") then "5 A1234 08:00-12:00 15/03/2024"
  else if decide (url = "https://intranet/liste/1") then "7 B0001 9h00-17h00"
  else if decide (url = "https://intranet/liste/2") then "5 A1234 08:00-12:00 15/03/2024"
  else "3 A1234 08:00-12:00 15/03/2024".

(** What [str.format] makes of the templates of the sample, which name
    the label and the rank, and of one that names a field [foo] that the
    context lacks. *)
Definition render (m : Message) : result string :=
  if decide (msg_template m = "TOP {label} {foo}") then Raise KeyError
  else Ok (String.substring 0 (String.length (msg_template m) - 15)
             (msg_template m)
           +:+ msg_label m +:+ " #" +:+ pretty (msg_rank m)).

(** The n-th reading of the clock is n minutes; every page is served;
    the webhook answers every POST with [status]; a payload is its own
    fingerprint and its own single line. *)
Definition env (status : Z) : Env :=
  mkEnv (λ n, minutes (Z.of_nat n)) (Ok tt)
    (λ _ url, Ok (mkFetchResult 200 (page_text url) "text/plain"))
    (λ _, Ok status) (λ payload, payload) (λ payload _, [payload]) render.

(** What the server returns for page [j] of the list. *)
Definition res (j : nat) : FetchResult :=
  mkFetchResult 200 (page_text (url_of "https://intranet/liste/" j)) "text/plain".

(** The same watcher with a ceiling of two pages. *)
Definition config2 : AppConfig :=
  mkAppConfig (Some dc)
    (mkWatchConfig ["https://intranet/liste/"] ["L"] ["A1234"] 2 300 30 6 10).

(** A state document with an entry and an alert that lack every member
    that has a default. *)
Definition bare_entry : State.EntryJson :=
  State.mkEntryJson None None None None None None.

Definition bare_document : State.Payload :=
  State.mkPayload (Some [("L", [("A1234", bare_entry)])])
    (Some [("k", State.mkAlertJson None)]).

Definition w_file (f : option State.FileContent) : World :=
  mkWorld State.empty f 7 [] [].

(** A process that has just started, no state file. *)
Definition w_start : World := mkWorld State.empty None 0 [] [].

(** The world after a first pass, and after the state has then been
    saved and loaded again and a second pass made over the same pages. *)
Definition after_first_pass : World :=
  (_run_once (env 204) config w_start).2.

Definition restart_and_pass : M unit :=
  save_state >> init (env 204) >> _run_once (env 204) config.

Definition after_restart : World := (restart_and_pass after_first_pass).2.

(** The record of page 0 and the position a pass leaves for it. *)
Definition seen5 : Parser.Entry :=
  Parser.mkEntry "L" 0 5 "A1234" (Some "08:00-12:00") (Some "2024-03-15")
    "5 A1234 08:00-12:00 15/03/2024".

Definition worse9 : Parser.Entry :=
  Parser.mkEntry "L" 0 9 "A1234" (Some "08:00-12:00") (Some "2024-03-15")
    "9 A1234 08:00-12:00 15/03/2024".

Definition key5 : string := "L|A1234|2024-03-15|08:00-12:00|top".

(** A world whose state holds [seen5], written at minute 0, and an alert
    for its key sent at minute [sent]; the clock has been read [n]
    times. *)
Definition w_seen (sent : Z) (n : nat) : World :=
  mkWorld
    (State.mkState {["L" := {["A1234" := entry_state seen5 0]}]}
       {[key5 := State.mkAlertState (minutes sent)]})
    None n [] [].

End Sample.

(* ===================================================================== *)
(** * Further definitions used to state properties *)
(* ===================================================================== *)

(** The elements of a list in the order of their first occurrence, each
    once: the order in which a [dict] yields keys that were assigned in
    the order of the list. *)
Fixpoint first_seen {K : Type} `{EqDecision K} (l : list K) : list K :=
  match l with
  | [] => []
  | x :: l' => x :: filter (λ y, y ≠ x) (first_seen l')
  end.

(* ===================================================================== *)
(** * config.py: [_split_csv] *)
(* ===================================================================== *)

Module Config.
Import Text.

(** [value.split(",")] *)
Fixpoint split_comma_go (cur : list ascii) (l : list ascii) : list (list ascii) :=
  match l with
  | [] => [reverse cur]
  | a :: l' =>
      if is_char "," a then reverse cur :: split_comma_go [] l'
      else split_comma_go (a :: cur) l'
  end.

Definition split_comma (value : string) : list string :=
  text <$> split_comma_go [] (chars value).

(** [_split_csv]; [None] is a key that the file does not have. *)
Definition _split_csv (value : option string) : list string :=
  match value with
  | None => []
  | Some value =>
      if decide (value = "") then []
      else split_comma value ≫=
             (λ item, if decide (strip item = "") then [] else [strip item])
  end.

(** [",".join(items)] *)
Fixpoint join_comma (items : list string) : string :=
  match items with
  | [] => ""
  | [item] => item
  | item :: items' => item +:+ "," +:+ join_comma items'
  end.

End Config.

(* ===================================================================== *)
(** * http.py: [WatcherSession.fetch] *)
(* ===================================================================== *)

Module Http.

(** What [session.get] gives for the n-th request of the session, n
    counted from 0: a response, held as the [FetchResult] that is built
    from it, or an exception. *)
Record Server : Type := mkServer { get : nat → string → result FetchResult }.

(** The URLs requested so far and the naps taken; a nap is held as the
    number of times [backoff] had been multiplied by [retry_backoff]
    before it, the first one lasting 1.0 second. *)
Record Session : Type := mkSession {
  requested : list string;
  slept : list nat;
}.

(** The body of the [try]: the request, the test on the status and
    [raise_for_status]. *)
Definition try_get (answer : result FetchResult) : result FetchResult :=
  match answer with
  | Raise e => Raise e
  | Ok response =>
      if (500 <=? status_code response) || (status_code response =? 429)
      then Raise (HTTPError (status_code response))
      else if (400 <=? status_code response) && (status_code response <? 600)
      then Raise (HTTPError (status_code response))
      else Ok response
  end.

(** How an attempt ends: with the result, with an exception that leaves
    [fetch], or past the handlers. *)
Inductive ending : Type :=
| Return (result : FetchResult)
| Reraise (e : exn)
| Retry.

(** The two [except] clauses. *)
Definition handlers (r : result FetchResult) : ending :=
  match r with
  | Ok result => Return result
  | Raise Timeout | Raise ConnectionError => Retry
  | Raise (HTTPError status) =>
      if (400 <=? status) && (status <? 500) && negb (status =? 429)
      then Reraise (HTTPError status)
      else Retry
  | Raise e => Reraise e
  end.

(** [for attempt in range(1, max_retries + 1)], with [todo] rounds to go.
    The [raise] after the handlers has no exception to raise again (the
    handlers have ended, and [fetch] is called from the body of a [try],
    not from a handler), which is a [RuntimeError]; so is the [raise]
    after the loop. *)
Fixpoint fetch_loop (srv : Server) (max_retries : Z) (url : string)
    (todo : nat) (attempt : Z) (backoff : nat) (s : Session)
    : result FetchResult * Session :=
  match todo with
  | O => (Raise RuntimeError, s)
  | S todo' =>
      let answer := get srv (length (requested s)) url in
      let s1 := mkSession (requested s ++ [url])%list (slept s) in
      match handlers (try_get answer) with
      | Return result => (Ok result, s1)
      | Reraise e => (Raise e, s1)
      | Retry =>
          if attempt =? max_retries then (Raise RuntimeError, s1)
          else fetch_loop srv max_retries url todo' (attempt + 1) (S backoff)
                 (mkSession (requested s1) (slept s1 ++ [backoff])%list)
      end
  end.

Definition fetch (srv : Server) (max_retries : Z) (url : string) (s : Session)
    : result FetchResult * Session :=
  fetch_loop srv max_retries url (Z.to_nat max_retries) 1 0 s.

(** The answers after which [fetch] tries again: a timeout, a connection
    error, a status of 500 or more, or 429. *)
Definition transient (answer : result FetchResult) : Prop :=
  match answer with
  | Raise Timeout | Raise ConnectionError => True
  | Raise (HTTPError status) => ¬ (400 ≤ status < 500 ∧ status ≠ 429)
  | Raise _ => False
  | Ok response => 500 ≤ status_code response ∨ status_code response = 429
  end.

#[global] Instance transient_dec answer : Decision (transient answer).
Proof.
  unfold transient. destruct answer as [response|[status| | | | | | | | | | | | |]];
    apply _.
Defined.

(** What [fetch] ends with on an answer it does not try again after. *)
Definition final (answer : result FetchResult) : result FetchResult :=
  match answer with
  | Ok response =>
      if 400 <=? status_code response
      then Raise (HTTPError (status_code response))
      else Ok response
  | Raise e => Raise e
  end.

(** [str.lower] below code point 256: the ASCII capitals and the
    accented capitals of Latin-1. *)
Definition lower_char (a : ascii) : ascii :=
  if Text.between 65 90 a || Text.between 192 214 a || Text.between 216 222 a
  then Ascii.ascii_of_N (Text.code a + 32)
  else a.

Definition lower (s : string) : string :=
  Text.text (lower_char <$> Text.chars s).

(** [needle in hay] *)
Fixpoint starts_with (needle hay : list ascii) : bool :=
  match needle, hay with
  | [], _ => true
  | _ :: _, [] => false
  | a :: needle', b :: hay' =>
      bool_decide (a = b) && starts_with needle' hay'
  end.

Fixpoint contains (needle hay : list ascii) : bool :=
  starts_with needle hay
  || match hay with
     | [] => false
     | _ :: hay' => contains needle hay'
     end.

(** [{key.lower(): key for key in payload}] *)
Definition lower_keys (payload : list (string * string))
    : list (string * string) :=
  foldl (λ acc key, dict_set acc (lower key) key) [] payload.*1.

(** The loop over the candidates. *)
Fixpoint first_candidate (keys : list (string * string))
    (candidates : list string) : option string :=
  match candidates with
  | [] => None
  | candidate :: candidates' =>
      match dict_get keys candidate with
      | Some key => Some key
      | None => first_candidate keys candidates'
      end
  end.

(** The fallback loop. *)
Fixpoint first_other (keys : list string) : option string :=
  match keys with
  | [] => None
  | key :: keys' =>
      if contains (Text.chars "pass") (Text.chars (lower key))
      then first_other keys'
      else Some key
  end.

(** [_detect_user_field]; the payload is a [dict] in the order of its
    insertions, and [credentials] is not used. *)
Definition _detect_user_field (payload : list (string * string))
    : option string :=
  match first_candidate (lower_keys payload)
          ["username"; "user"; "email"; "login"] with
  | Some key => Some key
  | None => first_other payload.*1
  end.

End Http.

(** Turn the boolean tests of a hypothesis into (in)equalities. *)
Ltac bools :=
  repeat match goal with
         | H : _ && _ = true |- _ => apply andb_true_iff in H as [? ?]
         | H : _ && _ = false |- _ => apply andb_false_iff in H as [?|?]
         | H : _ || _ = true |- _ => apply orb_true_iff in H as [?|?]
         | H : _ || _ = false |- _ => apply orb_false_iff in H as [? ?]
         | H : negb _ = true |- _ => apply negb_true_iff in H
         | H : negb _ = false |- _ => apply negb_false_iff in H
         end;
  rewrite ?Z.leb_le, ?Z.ltb_lt, ?Z.eqb_eq, ?Z.leb_gt, ?Z.ltb_ge, ?Z.eqb_neq in *.

(* ===================================================================== *)
(** * More sample data *)
(* ===================================================================== *)

Module Cases.

(** The watcher of [Sample] without a webhook. *)
Definition config_silent : AppConfig :=
  mkAppConfig None (watch Sample.config).

(** The environment of [Sample] with a server that fails on page 1 of
    the list with [e], and one whose login fails with [e]. *)
Definition env_failing_page (e : exn) : Env :=
  mkEnv (clock (Sample.env 204)) (Ok tt)
    (λ n url, if decide (url = "https://intranet/liste/1") then Raise e
              else site (Sample.env 204) n url)
    (webhook (Sample.env 204)) (sha256_hex (Sample.env 204))
    (extract_lines (Sample.env 204)) Sample.render.

Definition env_failing_login (e : exn) : Env :=
  mkEnv (clock (Sample.env 204)) (Raise e) (site (Sample.env 204))
    (webhook (Sample.env 204)) (sha256_hex (Sample.env 204))
    (extract_lines (Sample.env 204)) Sample.render.

(** The watcher of [Sample] with a cooldown one minute beyond what a
    [timedelta] holds. *)
Definition config_far_cooldown : AppConfig :=
  mkAppConfig (Some Sample.dc)
    (mkWatchConfig ["https://intranet/liste/"] ["L"] ["A1234"] 20 300
       (-1439999998561) 6 10).

(** A watcher of two lists of which the first is labelled "Liste 1", the
    label the second gets for want of one of its own. *)
Definition config_one_label : AppConfig :=
  mkAppConfig None
    (mkWatchConfig ["https://intranet/x"; "https://intranet/y"] ["Liste 1"]
       ["A1234"] 20 300 30 6 10).

(** A watcher of two lists with a label for the first only. *)
Definition config_two_lists : AppConfig :=
  mkAppConfig None
    (mkWatchConfig ["https://intranet/liste/"; "https://intranet/autre"] ["L"]
       ["A1234"] 20 300 30 6 10).


Definition server_flaky : Http.Server :=
  Http.mkServer (λ n _, if (n <? 2)%nat then Ok (mkFetchResult 503 "" "")
                        else Ok (mkFetchResult 200 "page" "text/html")).

Definition session_start : Http.Session := Http.mkSession [] [].

End Cases.

(* ===================================================================== *)
(** * Dictionaries *)
(* ===================================================================== *)

Section DictFacts.
Context {K V : Type} `{EqDecision K}.
Implicit Types (d : list (K * V)) (k : K) (v : V).

Lemma dict_get_set_eq d k v : dict_get (dict_set d k v) k = Some v.
Proof.
  induction d as [|[k' v'] d IH]; simpl.
  - by rewrite decide_True.
  - destruct (decide (k' = k)) as [->|Hne]; simpl.
    + by rewrite decide_True.
    + by rewrite decide_False.
Qed.

Lemma dict_get_set_ne d k k' v :
  k ≠ k' → dict_get (dict_set d k v) k' = dict_get d k'.
Proof.
  intros Hne. induction d as [|[k0 v0] d IH]; simpl.
  - by rewrite decide_False.
  - destruct (decide (k0 = k)) as [->|Hne0]; simpl.
    + by rewrite !decide_False.
    + by rewrite IH.
Qed.

Lemma dict_set_keys d k v :
  (dict_set d k v).*1 =
    match dict_get d k with Some _ => d.*1 | None => (d.*1 ++ [k])%list end.
Proof.
  induction d as [|[k0 v0] d IH]; csimpl; [done|].
  destruct (decide (k0 = k)) as [->|Hne]; csimpl; [done|].
  rewrite IH. by destruct (dict_get d k).
Qed.

Lemma dict_get_None d k : dict_get d k = None ↔ k ∉ d.*1.
Proof.
  induction d as [|[k0 v0] d IH]; simpl.
  - split; [intros _; apply not_elem_of_nil | done].
  - rewrite not_elem_of_cons. destruct (decide (k0 = k)) as [->|Hne].
    + split; [done | intros [? _]; done].
    + rewrite IH. split; [intros ?; split; [congruence|done] | intros [_ ?]; done].
Qed.

Lemma dict_set_NoDup d k v : NoDup d.*1 → NoDup (dict_set d k v).*1.
Proof.
  intros Hnd. rewrite dict_set_keys.
  destruct (dict_get d k) eqn:Hget; [done|].
  apply NoDup_app. split_and!; [done| |apply NoDup_singleton].
  intros x Hx ->%list_elem_of_singleton. by apply dict_get_None in Hget.
Qed.

Lemma dict_get_elem_of d k v : dict_get d k = Some v → (k, v) ∈ d.
Proof.
  induction d as [|[k0 v0] d IH]; simpl; [done|].
  destruct (decide (k0 = k)) as [->|Hne].
  - intros [= ->]. left.
  - intros ?. right. by apply IH.
Qed.

Lemma dict_elem_of_get d k v : NoDup d.*1 → (k, v) ∈ d → dict_get d k = Some v.
Proof.
  induction d as [|[k0 v0] d IH]; simpl; [by intros _ ?%elem_of_nil|].
  intros [Hk0 Hnd]%NoDup_cons [Heq|Hin]%elem_of_cons.
  - injection Heq as -> ->. by rewrite decide_True.
  - destruct (decide (k0 = k)) as [->|Hne]; [|by apply IH].
    exfalso. apply Hk0. apply list_elem_of_fmap. by exists (k, v).
Qed.
End DictFacts.

(* ===================================================================== *)
(** * The selection of the best record *)
(* ===================================================================== *)

Lemma better_lex e p : better e p = true ↔ lex_lt e p.
Proof. unfold better, lex_lt. lia. Qed.

Lemma better_false e p : better e p = false ↔ ¬ lex_lt e p.
Proof. rewrite <-better_lex. by destruct (better e p). Qed.

Lemma select_step_keys best e : NoDup best.*1 → NoDup (select_step best e).*1.
Proof.
  intros Hnd. unfold select_step.
  destruct (dict_get best (entry_key e)) as [p|]; [destruct (better e p)|];
    auto using dict_set_NoDup.
Qed.

Lemma select_fold_keys l best : NoDup best.*1 → NoDup (foldl select_step best l).*1.
Proof.
  revert best. induction l as [|e l IH]; intros best Hnd; simpl; [done|].
  by apply IH, select_step_keys.
Qed.

Lemma select_best_keys l : NoDup (select_best l).*1.
Proof. apply select_fold_keys. constructor. Qed.

Lemma select_step_get best e k :
  dict_get (select_step best e) k =
    if decide (entry_key e = k) then keep_better (dict_get best k) e
    else dict_get best k.
Proof.
  unfold select_step. destruct (decide (entry_key e = k)) as [<-|Hne].
  - destruct (dict_get best (entry_key e)) as [p|] eqn:Hget; simpl.
    + destruct (better e p); [apply dict_get_set_eq | done].
    + apply dict_get_set_eq.
  - destruct (dict_get best (entry_key e)) as [p|]; [destruct (better e p)|];
      by rewrite ?dict_get_set_ne.
Qed.

Lemma select_fold_get l best k :
  dict_get (foldl select_step best l) k =
    foldl keep_better (dict_get best k) (of_key k l).
Proof.
  revert best. induction l as [|e l IH]; intros best; simpl; [done|].
  rewrite IH, select_step_get. unfold of_key. rewrite filter_cons.
  by destruct (decide (entry_key e = k)).
Qed.

(** The record selected for a key is the result of folding the records of
    that key alone. *)
Lemma select_best_get l k :
  dict_get (select_best l) k = foldl keep_better None (of_key k l).
Proof. apply select_fold_get. Qed.

Lemma select_step_key_of best e :
  Forall (λ it, entry_key it.2 = it.1) best →
  Forall (λ it, entry_key it.2 = it.1) (select_step best e).
Proof.
  intros Hall. rewrite Forall_forall. intros [k v] Hin. simpl.
  assert (NoDup_or : dict_get (select_step best e) k = Some v
                     ∨ (k, v) ∈ best).
  { unfold select_step in *.
    assert (Hset : ∀ d, (k, v) ∈ dict_set d (entry_key e) e →
                        (k, v) = (entry_key e, e) ∨ (k, v) ∈ d).
    { clear. induction d as [|[k0 v0] d IH]; simpl.
      - intros ->%list_elem_of_singleton. by left.
      - destruct (decide (k0 = entry_key e)) as [->|Hne].
        + intros [->|?]%elem_of_cons; [by left | right; by right].
        + intros [->|?]%elem_of_cons; [right; left|].
          destruct (IH H) as [?|?]; [by left | right; by right]. }
    destruct (dict_get best (entry_key e)) as [p|]; [destruct (better e p)|].
    - destruct (Hset _ Hin) as [[= -> ->]|?]; [left; apply dict_get_set_eq | by right].
    - by right.
    - destruct (Hset _ Hin) as [[= -> ->]|?]; [left; apply dict_get_set_eq | by right]. }
  destruct NoDup_or as [Hget|Hin'].
  - rewrite select_step_get in Hget. destruct (decide (entry_key e = k)) as [<-|Hne].
    + destruct (dict_get best (entry_key e)) as [p|] eqn:Hp; simpl in Hget.
      * destruct (better e p); injection Hget as <-; [done|].
        apply dict_get_elem_of in Hp.
        rewrite Forall_forall in Hall. by apply (Hall _ Hp).
      * by injection Hget as <-.
    + apply dict_get_elem_of in Hget.
      rewrite Forall_forall in Hall. by apply (Hall _ Hget).
  - rewrite Forall_forall in Hall. by apply (Hall _ Hin').
Qed.

(** Every item of the selection sits under the key of its record. *)
Lemma select_best_key_of l :
  Forall (λ it, entry_key it.2 = it.1) (select_best l).
Proof.
  unfold select_best.
  assert (H : ∀ best, Forall (λ it, entry_key it.2 = it.1) best →
                Forall (λ it, entry_key it.2 = it.1) (foldl select_step best l)).
  { induction l as [|e l IH]; intros best Hb; simpl; [done|].
    by apply IH, select_step_key_of. }
  apply H. constructor.
Qed.

(** The fold keeps a least record for [lex_lt], and the first of them. *)
Lemma keep_better_fold_Some l o :
  (o ≠ None ∨ l ≠ []) → is_Some (foldl keep_better o l).
Proof.
  revert o. induction l as [|e l IH]; intros o Hne; simpl.
  - destruct o; [done | destruct Hne; done].
  - apply IH. left. destruct o as [p|]; simpl; [by destruct (better e p) | done].
Qed.

Lemma keep_better_fold_min l o m :
  foldl keep_better o l = Some m →
  (m ∈ l ∨ o = Some m)
  ∧ (∀ e, e ∈ l → ¬ lex_lt e m)
  ∧ (∀ p, o = Some p → ¬ lex_lt p m).
Proof.
  revert o. induction l as [|e l IH]; intros o Hm; simpl in *.
  - subst o. split_and!; [by right | by intros e ?%elem_of_nil |].
    intros p [= ->]. unfold lex_lt. lia.
  - destruct (IH _ Hm) as (Hin & Hl & Ho). split_and!.
    + destruct Hin as [?|Hin]; [left; by right|].
      destruct o as [p|]; simpl in Hin.
      * destruct (better e p); injection Hin as <-; [left; left | by right].
      * injection Hin as <-. left; left.
    + intros e' [->|?]%elem_of_cons; [|by apply Hl].
      destruct o as [p|]; simpl in Ho.
      * destruct (better e p) eqn:Hb; [by apply Ho|].
        apply better_false in Hb. specialize (Ho p eq_refl).
        unfold lex_lt in *. lia.
      * by apply Ho.
    + intros p ->. simpl in Ho.
      destruct (better e p) eqn:Hb.
      * apply better_lex in Hb. specialize (Ho e eq_refl).
        unfold lex_lt in *. lia.
      * by apply Ho.
Qed.

Lemma lex_lt_tie e p :
  ¬ lex_lt e p → ¬ lex_lt p e →
  Parser.rank e = Parser.rank p ∧ Parser.page e = Parser.page p.
Proof. unfold lex_lt. lia. Qed.

Lemma of_key_elem e k l : e ∈ of_key k l ↔ e ∈ l ∧ entry_key e = k.
Proof. unfold of_key. rewrite list_elem_of_filter. tauto. Qed.

(** Two orders of the same records select records that tie on rank and
    page. *)
Lemma select_best_perm_tie l l' k m m' :
  l ≡ₚ l' →
  dict_get (select_best l) k = Some m →
  dict_get (select_best l') k = Some m' →
  m ∈ l ∧ m' ∈ l ∧ entry_key m = k ∧ entry_key m' = k
  ∧ Parser.rank m = Parser.rank m' ∧ Parser.page m = Parser.page m'.
Proof.
  intros Hperm Hm Hm'. rewrite select_best_get in Hm, Hm'.
  apply keep_better_fold_min in Hm as ([Hin|?] & Hmin & _); [|done].
  apply keep_better_fold_min in Hm' as ([Hin'|?] & Hmin' & _); [|done].
  assert (Hp : of_key k l ≡ₚ of_key k l') by (unfold of_key; by rewrite Hperm).
  assert (Hc : m' ∈ of_key k l) by (by rewrite Hp).
  assert (Hc' : m ∈ of_key k l') by (by rewrite <-Hp).
  destruct (lex_lt_tie m m' (Hmin' _ Hc') (Hmin _ Hc)) as [? ?].
  apply of_key_elem in Hin as [? ?]. apply of_key_elem in Hc as [? ?].
  done.
Qed.

Lemma select_best_perm_is_Some l l' k :
  l ≡ₚ l' →
  is_Some (dict_get (select_best l) k) → is_Some (dict_get (select_best l') k).
Proof.
  intros Hperm [m Hm]. rewrite select_best_get in *.
  apply keep_better_fold_Some. right.
  apply keep_better_fold_min in Hm as ([Hin|?] & _); [|done].
  assert (Hp : of_key k l ≡ₚ of_key k l') by (unfold of_key; by rewrite Hperm).
  rewrite Hp in Hin. intros Hnil. rewrite Hnil in Hin. by apply elem_of_nil in Hin.
Qed.

(** C3: in the fold of the selection, a record replaces the current best
    of its (list, target) pair exactly when its rank is strictly lower, or
    its rank is equal and its page index strictly lower; every pair is
    folded on its own records; and of two records of rank 5 on pages 1 and
    0 the one of page 0 is selected, in either order of arrival. *)
Theorem C3_rank_tie_break :
  (∀ best entry previous,
     dict_get best (entry_key entry) = Some previous →
     (lex_lt entry previous →
        select_step best entry = dict_set best (entry_key entry) entry)
     ∧ (¬ lex_lt entry previous → select_step best entry = best))
  ∧ (∀ l k, dict_get (select_best l) k = foldl keep_better None (of_key k l))
  ∧ (∀ e1 e0,
       entry_key e1 = entry_key e0 →
       Parser.rank e1 = 5 → Parser.page e1 = 1 →
       Parser.rank e0 = 5 → Parser.page e0 = 0 →
       dict_get (select_best [e0; e1]) (entry_key e0) = Some e0
       ∧ dict_get (select_best [e1; e0]) (entry_key e0) = Some e0).
Proof.
  split_and!.
  - intros best entry previous Hget. unfold select_step. rewrite Hget. split.
    + intros Hlt%better_lex. by rewrite Hlt.
    + intros Hlt%better_false. by rewrite Hlt.
  - apply select_best_get.
  - intros e1 e0 Hkey Hr1 Hp1 Hr0 Hp0.
    rewrite !select_best_get. unfold of_key.
    rewrite !filter_cons, filter_nil, !decide_True by done. simpl.
    assert (better e1 e0 = false) as -> by (apply better_false; unfold lex_lt; lia).
    assert (better e0 e1 = true) as -> by (apply better_lex; unfold lex_lt; lia).
    done.
Qed.

Lemma C3_rank_tie_break_witness :
  select_step [(("L", "A1234"), Sample.e1)] Sample.e0
    = [(("L", "A1234"), Sample.e0)]
  ∧ select_step [(("L", "A1234"), Sample.e0)] Sample.e1
    = [(("L", "A1234"), Sample.e0)]
  ∧ dict_get (select_best [Sample.e0; Sample.e1]) ("L", "A1234") = Some Sample.e0
  ∧ dict_get (select_best [Sample.e1; Sample.e0]) ("L", "A1234") = Some Sample.e0.
Proof.
  destruct C3_rank_tie_break as (Hstep & _ & Hex).
  split_and!.
  - apply (Hstep [(("L", "A1234"), Sample.e1)] Sample.e0 Sample.e1); [reflexivity|].
    unfold lex_lt; simpl; lia.
  - apply (Hstep [(("L", "A1234"), Sample.e0)] Sample.e1 Sample.e0); [reflexivity|].
    unfold lex_lt; simpl; lia.
  - apply (Hex Sample.e1 Sample.e0); reflexivity.
  - apply (Hex Sample.e1 Sample.e0); reflexivity.
Defined.

Lemma keep_better_fold_first l :
  ∀ p m,
    foldl keep_better (Some p) l = Some m →
    (m = p ∧ ∀ e, e ∈ l → ¬ lex_lt e p)
    ∨ (∃ l1 l2, l = (l1 ++ m :: l2)%list ∧ lex_lt m p
                ∧ (∀ e, e ∈ l1 → lex_lt m e)
                ∧ (∀ e, e ∈ l2 → ¬ lex_lt e m)).
Proof.
  induction l as [|e l IH]; intros p m Hm; simpl in Hm.
  - left. split; [congruence|]. by intros e ?%elem_of_nil.
  - destruct (better e p) eqn:Hb.
    + apply better_lex in Hb.
      destruct (IH _ _ Hm) as [[-> Hall]|(l1 & l2 & -> & Hlt & H1 & H2)].
      * right. exists [], l. split_and!; [done|done| |done].
        by intros e' ?%elem_of_nil.
      * right. exists (e :: l1), l2. split_and!; [done| | |done].
        -- unfold lex_lt in *. lia.
        -- intros e' [->|?]%elem_of_cons; [done|by apply H1].
    + apply better_false in Hb.
      destruct (IH _ _ Hm) as [[-> Hall]|(l1 & l2 & -> & Hlt & H1 & H2)].
      * left. split; [done|]. intros e' [->|?]%elem_of_cons; [done|by apply Hall].
      * right. exists (e :: l1), l2. split_and!; [done|done| |done].
        intros e' [->|?]%elem_of_cons; [|by apply H1].
        unfold lex_lt in *. lia.
Qed.

(** The records of a page read in one order are a permutation of those
    read in the other, all of one page, and the selection differs: the
    record that comes first is kept. *)
Lemma C8_first_of_a_tie_is_kept :
  Sample.tied ≡ₚ Sample.tied_rev
  ∧ Forall (λ e, Parser.page e = 0) Sample.tied
  ∧ dict_get (select_best Sample.tied) ("L", "A1234")
    ≠ dict_get (select_best Sample.tied_rev) ("L", "A1234").
Proof.
  vm_compute. split_and!.
  - apply perm_swap.
  - repeat constructor.
  - discriminate.
Qed.

(** C8 (amended): for every (list, target) pair and every reordering of
    the records of a pass, the rank and the page index of the selected
    record are the same; the selected record is the first one traversed
    among the records of the pair that tie with it on rank and page index
    (every record of the pair before it is strictly worse, none after it
    is strictly better); so the selected record itself is the same when
    no two distinct records of the pair tie on both. *)
Theorem C8_selection_order (l l' : list Parser.Entry) (k : string * string) :
  l ≡ₚ l' →
  (λ e, (Parser.rank e, Parser.page e)) <$> dict_get (select_best l') k
  = (λ e, (Parser.rank e, Parser.page e)) <$> dict_get (select_best l) k
  ∧ (∀ m, dict_get (select_best l) k = Some m →
       ∃ l1 l2,
         of_key k l = (l1 ++ m :: l2)%list
         ∧ (∀ e, e ∈ l1 → lex_lt m e)
         ∧ (∀ e, e ∈ l2 → ¬ lex_lt e m)
         ∧ (∀ e, e ∈ l1 →
              ¬ (Parser.rank e = Parser.rank m ∧ Parser.page e = Parser.page m)))
  ∧ ((∀ e1 e2, e1 ∈ l → e2 ∈ l → entry_key e1 = k → entry_key e2 = k →
        Parser.rank e1 = Parser.rank e2 → Parser.page e1 = Parser.page e2 →
        e1 = e2) →
     dict_get (select_best l') k = dict_get (select_best l) k).
Proof.
  intros Hperm. split_and!.
  - destruct (dict_get (select_best l) k) as [m|] eqn:Hm;
      destruct (dict_get (select_best l') k) as [m'|] eqn:Hm'; [| | |done].
    + destruct (select_best_perm_tie _ _ _ _ _ Hperm Hm Hm')
        as (_ & _ & _ & _ & Hr & Hp).
      simpl. by rewrite Hr, Hp.
    + destruct (select_best_perm_is_Some l l' k Hperm) as [? ?];
        [by eexists|congruence].
    + destruct (select_best_perm_is_Some l' l k) as [? ?];
        [by symmetry | by eexists | congruence].
  - intros m. rewrite select_best_get.
    destruct (of_key k l) as [|e l0] eqn:Hl; simpl; [done|].
    intros Hm.
    assert (Hdec : ∃ l1 l2, e :: l0 = (l1 ++ m :: l2)%list
                            ∧ (∀ e', e' ∈ l1 → lex_lt m e')
                            ∧ (∀ e', e' ∈ l2 → ¬ lex_lt e' m)).
    { destruct (keep_better_fold_first _ _ _ Hm)
        as [[-> Hall]|(l1 & l2 & -> & Hlt & H1 & H2)].
      - exists [], l0. split_and!; [done| |done]. by intros e' ?%elem_of_nil.
      - exists (e :: l1), l2. split_and!; [done| |done].
        intros e' [->|?]%elem_of_cons; [done|by apply H1]. }
    destruct Hdec as (l1 & l2 & Heq & H1 & H2).
    exists l1, l2. split_and!; [done..|].
    intros e' Hin [Hr Hp]. specialize (H1 _ Hin). unfold lex_lt in H1. lia.
  - intros Huniq.
    destruct (dict_get (select_best l) k) as [m|] eqn:Hm;
      destruct (dict_get (select_best l') k) as [m'|] eqn:Hm'; [| | |done].
    + destruct (select_best_perm_tie _ _ _ _ _ Hperm Hm Hm')
        as (Hin & Hin' & Hk & Hk' & Hr & Hp).
      f_equal. symmetry. by apply Huniq.
    + destruct (select_best_perm_is_Some l l' k Hperm) as [? ?];
        [by eexists|congruence].
    + destruct (select_best_perm_is_Some l' l k) as [? ?];
        [by symmetry | by eexists | congruence].
Qed.

Lemma C8_selection_order_witness :
  (λ e, (Parser.rank e, Parser.page e))
    <$> dict_get (select_best [Sample.rb; Sample.ra]) ("L", "A1234")
  = (λ e, (Parser.rank e, Parser.page e))
    <$> dict_get (select_best [Sample.ra; Sample.rb]) ("L", "A1234")
  ∧ dict_get (select_best [Sample.rb; Sample.ra]) ("L", "A1234")
    = dict_get (select_best [Sample.ra; Sample.rb]) ("L", "A1234")
  ∧ ∃ l1 l2,
      of_key ("L", "A1234") [Sample.e0; Sample.ra; Sample.rb]
      = (l1 ++ Sample.e0 :: l2)%list
      ∧ (∀ e, e ∈ l1 → lex_lt Sample.e0 e)
      ∧ (∀ e, e ∈ l2 → ¬ lex_lt e Sample.e0)
      ∧ (∀ e, e ∈ l1 →
           ¬ (Parser.rank e = Parser.rank Sample.e0
              ∧ Parser.page e = Parser.page Sample.e0)).
Proof.
  destruct (C8_selection_order [Sample.ra; Sample.rb] [Sample.rb; Sample.ra]
              ("L", "A1234")) as (H1 & _ & H2); [apply perm_swap|].
  split_and!; [exact H1| |].
  - apply H2.
    intros e1 e2 H1' H2' _ _ Hr _.
    apply elem_of_cons in H1' as [->|H1']; apply elem_of_cons in H2' as [->|H2'];
      try reflexivity;
      repeat match goal with
             | H : _ ∈ [_] |- _ => apply list_elem_of_singleton in H; subst
             | H : _ ∈ [] |- _ => by apply elem_of_nil in H
             end;
      try reflexivity; simpl in Hr; lia.
  - destruct (C8_selection_order [Sample.e0; Sample.ra; Sample.rb]
                [Sample.e0; Sample.ra; Sample.rb] ("L", "A1234"))
      as (_ & Hfirst & _); [reflexivity|].
    apply Hfirst. vm_compute. reflexivity.
Defined.

(* ===================================================================== *)
(** * The effects of the operations *)
(* ===================================================================== *)

Section Effects.
Context (env : Env) (config : AppConfig).
Implicit Types (w : World) (entry : Parser.Entry).

Lemma record_entry_run entry w :
  record_entry env entry w =
    (Ok tt,
     mkWorld
       (set_entry (Parser.label entry) (Parser.target entry)
          (entry_state entry (clock env (reads w))) (state w))
       (file w) (S (reads w)) (fetched w) (posted w)).
Proof. done. Qed.

Lemma best_previous_set_eq label target es s :
  State.best_previous (set_entry label target es s) label target = Some es.
Proof.
  unfold State.best_previous, set_entry. simpl.
  by rewrite lookup_insert_eq; simpl; rewrite lookup_insert_eq.
Qed.

Lemma best_previous_set_ne label target label' target' es s :
  (label, target) ≠ (label', target') →
  State.best_previous (set_entry label target es s) label' target'
  = State.best_previous s label' target'.
Proof.
  intros Hne. unfold State.best_previous, set_entry. simpl.
  destruct (decide (label = label')) as [<-|Hl].
  - rewrite lookup_insert_eq. simpl. rewrite lookup_insert_ne; [done|congruence].
  - by rewrite lookup_insert_ne.
Qed.

(** A dispatch leaves the positions alone: it reads the clock, posts,
    records an alert and saves. *)
Lemma _maybe_notify_entries entry change_type w r w' :
  _maybe_notify env config entry change_type w = (r, w') →
  State.entries (state w') = State.entries (state w).
Proof. intros H. crunch_eff. Qed.

(** A dispatch that raises has changed nothing but the record of the
    posts and the count of clock readings. *)
Lemma _maybe_notify_raise entry change_type w e w' :
  _maybe_notify env config entry change_type w = (Raise e, w') →
  state w' = state w ∧ file w' = file w
  ∧ (posted w' = posted w
     ∨ ∃ message, posted w' = (posted w ++ [message])%list).
Proof. intros H. crunch_eff; eauto. Qed.

End Effects.

(* ===================================================================== *)
(** * Change detection, cooldown and dispatch *)
(* ===================================================================== *)

Section Dispatch.
Context (env : Env) (config : AppConfig).
Implicit Types (w : World) (entry : Parser.Entry).


Lemma handle_best_run entry w :
  handle_best env config (Parser.label entry, Parser.target entry, entry) w =
    match classify (State.best_previous (state w) (Parser.label entry)
                      (Parser.target entry)) entry with
    | new => (record_entry env entry >> _maybe_notify env config entry "new") w
    | changed => (record_entry env entry >> _maybe_notify env config entry "update") w
    | unchanged => record_entry env entry w
    end.
Proof.
  unfold handle_best. unfold bind at 1. unfold get_state. simpl.
  by destruct (classify _ _).
Qed.

(** Whatever the branch and its outcome, the position of the pair is the
    new record, stamped with the reading of the clock. *)
Lemma handle_best_overwrites entry w r w' :
  handle_best env config (Parser.label entry, Parser.target entry, entry) w
    = (r, w') →
  State.best_previous (state w') (Parser.label entry) (Parser.target entry)
    = Some (entry_state entry (clock env (reads w))).
Proof.
  rewrite handle_best_run. intros H.
  assert (Hent : State.entries (state w')
                 = State.entries (state (record_entry env entry w).2)).
  { destruct (classify _ _); unfold bind in H; rewrite record_entry_run in H.
    - by apply _maybe_notify_entries in H.
    - by apply _maybe_notify_entries in H.
    - by injection H as <- <-. }
  unfold State.best_previous. rewrite Hent. apply best_previous_set_eq.
Qed.


Lemma should_alert_run key cooldown w :
  should_alert env key cooldown w =
    match State.alerts (state w) !! key with
    | None => (Ok true, w)
    | Some a =>
        (match timedelta_minutes cooldown with
         | Ok c => Ok (c <=? clock env (reads w) - State.sent_at a)
         | Raise e => Raise e
         end, tick w)
    end.
Proof.
  unfold should_alert, bind, get_state, utcnow, lift, ret. simpl.
  destruct (State.alerts (state w) !! key) as [a|]; [|done].
  by destruct (timedelta_minutes cooldown).
Qed.

Lemma _maybe_notify_gate entry change_type dc threshold template w :
  discord config = Some dc →
  tier config (Parser.rank entry) = (threshold, template) →
  template ≠ "" →
  _maybe_notify env config entry change_type w =
    match should_alert env (alert_key entry threshold)
            (cooldown_minutes (watch config)) w with
    | (Ok true, w1) => dispatch env config entry threshold template w1
    | (Ok false, w1) => (Ok tt, w1)
    | (Raise e, w1) => (Raise e, w1)
    end.
Proof.
  intros Hdc Htier Htpl.
  assert (Hen : enabled config = true).
  { unfold enabled. apply bool_decide_eq_true. rewrite Hdc. by eexists. }
  unfold _maybe_notify. rewrite Hen, Htier. simpl.
  rewrite decide_False by done. unfold bind at 1.
  by destruct (should_alert _ _ _ w) as [[[]|] w1].
Qed.

Lemma dispatch_run entry dc threshold template w :
  discord config = Some dc →
  let message :=
    context_of config template (Parser.label entry) (Parser.rank entry)
      (Parser.target entry) (or_question (Parser.shift entry))
      (or_question (Parser.date entry)) in
  dispatch env config entry threshold template w =
    match str_format env message with
    | Raise e => (Raise e, w)
    | Ok _ =>
        (send env config message
         >> record_alert env (alert_key entry threshold)
         >> save_state) w
    end.
Proof.
  intros Hdc message. unfold dispatch, format_message, bind at 1 2, lift, ret.
  fold message. by destruct (str_format env message).
Qed.

Lemma send_posts dc message w :
  discord config = Some dc →
  ∃ r, send env config message w
       = (r, mkWorld (state w) (file w) (reads w) (fetched w)
               (posted w ++ [message])%list)
       ∧ (r = Ok tt ∨ ∃ e, r = Raise e)
       ∧ (r = Ok tt ↔
            ∃ status, webhook env (length (posted w)) = Ok status
                      ∧ ¬ (400 ≤ status < 600)).
Proof.
  intros Hdc.
  assert (Hen : enabled config = true).
  { unfold enabled. apply bool_decide_eq_true. rewrite Hdc. by eexists. }
  unfold send. rewrite Hen. simpl.
  unfold bind, post, raise_for_status, raise, ret. simpl.
  destruct (webhook env (length (posted w))) as [status|e] eqn:Hw.
  - destruct ((400 <=? status) && (status <? 600)) eqn:Hst.
    + eexists. split_and!; [done|right; by eexists|].
      split; [done|]. intros (st & [= <-] & Hn).
      apply andb_true_iff in Hst as [?%Z.leb_le ?%Z.ltb_lt]. lia.
    + eexists. split_and!; [done|by left|]. split; [|done]. intros _.
      exists status. split; [done|].
      apply andb_false_iff in Hst as [?%Z.leb_gt|?%Z.ltb_ge]; lia.
  - eexists. split_and!; [done|right; by eexists|].
    split; [done|]. by intros (st & ? & _).
Qed.

Lemma send_outcome message w dc :
  discord config = Some dc →
  (send env config message w).1
  = match webhook env (length (posted w)) with
    | Ok status =>
        if (400 <=? status) && (status <? 600) then Raise (HTTPError status)
        else Ok tt
    | Raise e => Raise e
    end.
Proof.
  intros Hdc.
  assert (Hen : enabled config = true).
  { unfold enabled. apply bool_decide_eq_true. rewrite Hdc. by eexists. }
  unfold send. rewrite Hen. simpl.
  unfold bind, post, raise_for_status, raise, ret. simpl.
  destruct (webhook env (length (posted w))) as [status|e]; [|done].
  by destruct ((400 <=? status) && (status <? 600)).
Qed.

(** C2: for an alert key and a cooldown that a [timedelta] can hold, the
    cooldown test lets the dispatcher pass if and only if the key has no
    alert record or the time since [sent_at] is at least the cooldown;
    when it passes, the dispatcher goes on to format the text and to post
    it, and when it does not, nothing is posted and nothing is changed.
    With a cooldown of 30 minutes a record sent 10 minutes ago suppresses
    the send, and one sent 30 minutes ago or more does not.  With a
    cooldown that no [timedelta] holds, a key that has a record makes the
    test raise OverflowError, and nothing is posted. *)
Theorem C2_cooldown (key : string) (cooldown : Z) w :
  let now := clock env (reads w) in
  let eligible :=
    State.alerts (state w) !! key = None
    ∨ ∃ a, State.alerts (state w) !! key = Some a
           ∧ minutes cooldown ≤ now - State.sent_at a in
  (timedelta_in_range cooldown = true →
     (∃ b w', should_alert env key cooldown w = (Ok b, w')
              ∧ (b = true ↔ eligible)
              ∧ state w' = state w ∧ file w' = file w ∧ posted w' = posted w)
     ∧ (∀ entry change_type dc threshold template,
          discord config = Some dc →
          tier config (Parser.rank entry) = (threshold, template) →
          template ≠ "" →
          key = alert_key entry threshold →
          cooldown = cooldown_minutes (watch config) →
          let message :=
            context_of config template (Parser.label entry)
              (Parser.rank entry) (Parser.target entry)
              (or_question (Parser.shift entry))
              (or_question (Parser.date entry)) in
          (eligible →
             ∃ w1, state w1 = state w ∧ file w1 = file w ∧ posted w1 = posted w
                   ∧ _maybe_notify env config entry change_type w
                     = dispatch env config entry threshold template w1
                   ∧ (∀ text, str_format env message = Ok text →
                        posted (_maybe_notify env config entry change_type w).2
                        = (posted w ++ [message])%list)
                   ∧ (∀ e, str_format env message = Raise e →
                        _maybe_notify env config entry change_type w
                        = (Raise e, w1)))
          ∧ (¬ eligible →
             ∃ w', _maybe_notify env config entry change_type w = (Ok tt, w')
                   ∧ posted w' = posted w ∧ state w' = state w
                   ∧ file w' = file w)))
  ∧ (∀ a, State.alerts (state w) !! key = Some a →
       (now - State.sent_at a = minutes 10 →
          (should_alert env key 30 w).1 = Ok false)
       ∧ (minutes 30 ≤ now - State.sent_at a →
          (should_alert env key 30 w).1 = Ok true))
  ∧ (timedelta_in_range cooldown = false →
     (State.alerts (state w) !! key = None →
        should_alert env key cooldown w = (Ok true, w))
     ∧ (is_Some (State.alerts (state w) !! key) →
        should_alert env key cooldown w = (Raise OverflowError, tick w)
        ∧ ∀ entry change_type dc threshold template,
            discord config = Some dc →
            tier config (Parser.rank entry) = (threshold, template) →
            template ≠ "" →
            key = alert_key entry threshold →
            cooldown = cooldown_minutes (watch config) →
            _maybe_notify env config entry change_type w
            = (Raise OverflowError, tick w))).
Proof.
  intros now eligible.
  assert (Hsa : ∀ cd, timedelta_in_range cd = true → ∃ b w',
            should_alert env key cd w = (Ok b, w')
            ∧ (b = true ↔
                 State.alerts (state w) !! key = None
                 ∨ ∃ a, State.alerts (state w) !! key = Some a
                        ∧ minutes cd ≤ now - State.sent_at a)
            ∧ state w' = state w ∧ file w' = file w ∧ posted w' = posted w).
  { intros cd Hcd. rewrite should_alert_run. unfold timedelta_minutes.
    rewrite Hcd.
    destruct (State.alerts (state w) !! key) as [a|] eqn:Ha; simpl.
    - do 2 eexists. split; [done|]. split; [|done].
      rewrite Z.leb_le. split; [intros ?; right; eauto|].
      intros [?|(a' & ? & ?)]; simplify_eq. done.
    - do 2 eexists. split; [done|]. split; [|done]. split; [by left|done]. }
  split_and!.
  - intros Hcd. split; [by apply Hsa|].
    intros entry change_type dc threshold template Hdc Htier Htpl -> -> message.
    destruct (Hsa (cooldown_minutes (watch config)) Hcd)
      as (b & w1 & Hrun & Hb & Hst & Hfile & Hpost).
    fold eligible in Hb.
    rewrite (_maybe_notify_gate _ _ dc threshold template) by done.
    rewrite Hrun. split.
    + intros Hel%Hb. subst b. exists w1. split_and!; try done.
      * intros text Htext. rewrite (dispatch_run _ dc) by done.
        fold message. rewrite Htext.
        destruct (send_posts dc message w1 Hdc) as (r & Hsend & Hr & _).
        unfold bind at 1 2. rewrite Hsend, <-Hpost.
        by destruct Hr as [->|[e ->]].
      * intros e He. rewrite (dispatch_run _ dc) by done.
        fold message. by rewrite He.
    + intros Hel. destruct b; [by destruct Hel; apply Hb|].
      exists w1. by split_and!.
  - intros a Ha. destruct (Hsa 30 eq_refl) as (b & w1 & Hrun & Hb & _).
    rewrite Hrun. simpl.
    split; intros Hel; f_equal.
    + destruct b; [|done]. destruct Hb as [Hb _].
      destruct (Hb eq_refl) as [?|(a' & ? & ?)]; simplify_eq.
      unfold minutes in *. lia.
    + apply Hb. right. eauto.
  - intros Hcd. split.
    + intros Hnone. by rewrite should_alert_run, Hnone.
    + intros [a Ha].
      assert (Hrun : should_alert env key cooldown w
                     = (Raise OverflowError, tick w)).
      { rewrite should_alert_run, Ha. unfold timedelta_minutes. by rewrite Hcd. }
      split; [done|].
      intros entry change_type dc threshold template Hdc Htier Htpl -> ->.
      rewrite (_maybe_notify_gate _ _ dc threshold template) by done.
      by rewrite Hrun.
Qed.

End Dispatch.

(* ===================================================================== *)
(** * Failure of the delivery *)
(* ===================================================================== *)

Section Failure.
Context (env : Env) (config : AppConfig).
Implicit Types (w : World) (entry : Parser.Entry).


Lemma should_alert_world key cooldown w r w1 :
  should_alert env key cooldown w = (r, w1) →
  state w1 = state w ∧ file w1 = file w ∧ posted w1 = posted w
  ∧ fetched w1 = fetched w.
Proof.
  rewrite should_alert_run.
  destruct (State.alerts (state w) !! key); by intros [= <- <-].
Qed.

Lemma should_alert_later key cooldown w b w1 w' :
  should_alert env key cooldown w = (Ok b, w1) →
  b = true →
  state w' = state w →
  clock env (reads w) ≤ clock env (reads w') →
  (should_alert env key cooldown w').1 = Ok true.
Proof.
  rewrite !should_alert_run. intros H -> Hs Hc. rewrite Hs.
  destruct (State.alerts (state w) !! key) as [a|]; simpl in *; [|done].
  destruct (timedelta_minutes cooldown) as [c|]; [|done].
  injection H as H _. f_equal. lia.
Qed.

(** The ways a dispatch can go, in the order of its steps. *)
Lemma _maybe_notify_cases entry change_type w r w' :
  _maybe_notify env config entry change_type w = (r, w') →
  (r = Ok tt ∧ w' = w
   ∧ (discord config = None ∨ (tier config (Parser.rank entry)).2 = ""))
  ∨ ∃ dc threshold template,
      discord config = Some dc
      ∧ tier config (Parser.rank entry) = (threshold, template)
      ∧ template ≠ ""
      ∧ ((∃ e, r = Raise e
               ∧ should_alert env (alert_key entry threshold)
                   (cooldown_minutes (watch config)) w = (Raise e, w'))
         ∨ (r = Ok tt
            ∧ should_alert env (alert_key entry threshold)
                (cooldown_minutes (watch config)) w = (Ok false, w'))
         ∨ ∃ w1,
             should_alert env (alert_key entry threshold)
               (cooldown_minutes (watch config)) w = (Ok true, w1)
             ∧ dispatch env config entry threshold template w1 = (r, w')).
Proof.
  intros H.
  destruct (discord config) as [dc|] eqn:Hdc.
  - destruct (tier config (Parser.rank entry)) as [threshold template] eqn:Ht.
    destruct (decide (template = "")) as [->|Hne].
    + left. unfold _maybe_notify in H. rewrite Ht in H.
      destruct (negb (enabled config)); simpl in H;
        unfold ret in H; injection H as <- <-; auto.
    + right. exists dc, threshold, template. split_and!; try done.
      rewrite (_maybe_notify_gate env config _ _ dc threshold template) in H by done.
      destruct (should_alert _ _ _ w) as [[[]|e] w1].
      * right. right. by exists w1.
      * right. left. by injection H as <- <-.
      * left. exists e. by injection H as <- <-.
  - left. unfold _maybe_notify, enabled in H. rewrite Hdc in H.
    rewrite bool_decide_eq_false_2 in H by (by intros [? ?]).
    simpl in H. unfold ret in H. injection H as <- <-. auto.
Qed.

(** The ways the steps after the cooldown test can go. *)
Lemma dispatch_cases entry dc threshold template w r w' :
  discord config = Some dc →
  dispatch env config entry threshold template w = (r, w') →
  let message :=
    context_of config template (Parser.label entry) (Parser.rank entry)
      (Parser.target entry) (or_question (Parser.shift entry))
      (or_question (Parser.date entry)) in
  (∃ e, str_format env message = Raise e ∧ r = Raise e ∧ w' = w)
  ∨ (∃ text, str_format env message = Ok text
       ∧ ((∃ e, send env config message w = (Raise e, w') ∧ r = Raise e
                ∧ reads w' = reads w
                ∧ state w' = state w ∧ file w' = file w
                ∧ posted w' = (posted w ++ [message])%list)
          ∨ (∃ w2, send env config message w = (Ok tt, w2) ∧ r = Ok tt
                   ∧ posted w2 = (posted w ++ [message])%list
                   ∧ reads w2 = reads w ∧ fetched w2 = fetched w
                   ∧ w' = flushed
                            (mkWorld
                               (State.mkState (State.entries (state w))
                                  (<[alert_key entry threshold
                                     := State.mkAlertState (clock env (reads w))]>
                                     (State.alerts (state w))))
                               (file w) (S (reads w)) (fetched w)
                               (posted w ++ [message])%list)))).
Proof.
  intros Hdc Hrun message. rewrite (dispatch_run env config _ dc) in Hrun by done.
  fold message in Hrun.
  destruct (str_format env message) as [text|e] eqn:Hfmt.
  - right. exists text. split; [done|].
    destruct (send_posts env config dc message w Hdc) as (r0 & Hsend & Hr0 & _).
    unfold bind at 1 2 in Hrun. rewrite Hsend in Hrun.
    destruct Hr0 as [->|[e ->]].
    + right. eexists. split_and!; [done| |done|done|done|].
      * unfold record_alert, save_state, bind, utcnow, modify_state in Hrun.
        simpl in Hrun. by injection Hrun as <- <-.
      * unfold record_alert, save_state, bind, utcnow, modify_state in Hrun.
        simpl in Hrun. by injection Hrun as <- <-.
    + left. exists e. injection Hrun as <- <-. by split_and!.
  - left. exists e. by injection Hrun as <- <-.
Qed.

(** C10: when a dispatch raises, be it the send, the formatting of the
    text or the cooldown test that raised, the state, its alert records
    among it, and the state file are as they were; when it is the send
    that raised (a message had been formatted and was posted), the key is
    at least as eligible afterwards as it was; and it is a dispatch that
    returns after posting that has recorded the alert and saved the
    state. *)
Theorem C10_failed_send_records_nothing entry change_type w :
  (∀ e w', _maybe_notify env config entry change_type w = (Raise e, w') →
     State.alerts (state w') = State.alerts (state w)
     ∧ state w' = state w
     ∧ file w' = file w
     ∧ (posted w' = posted w
        ∨ ∃ message,
            posted w' = (posted w ++ [message])%list
            ∧ (send env config message
                 (mkWorld (state w') (file w') (reads w') (fetched w')
                    (posted w))).1
              = Raise e
            ∧ ∀ threshold template,
                tier config (Parser.rank entry) = (threshold, template) →
                clock env (reads w) ≤ clock env (reads w') →
                (should_alert env (alert_key entry threshold)
                   (cooldown_minutes (watch config)) w').1 = Ok true))
  ∧ (∀ dc threshold template w1 message text e w2,
       discord config = Some dc →
       tier config (Parser.rank entry) = (threshold, template) →
       template ≠ "" →
       should_alert env (alert_key entry threshold)
         (cooldown_minutes (watch config)) w = (Ok true, w1) →
       message = context_of config template (Parser.label entry)
                   (Parser.rank entry) (Parser.target entry)
                   (or_question (Parser.shift entry))
                   (or_question (Parser.date entry)) →
       str_format env message = Ok text →
       send env config message w1 = (Raise e, w2) →
       _maybe_notify env config entry change_type w = (Raise e, w2)
       ∧ posted w2 = (posted w ++ [message])%list
       ∧ State.alerts (state w2) = State.alerts (state w)
       ∧ file w2 = file w)
  ∧ (∀ w', _maybe_notify env config entry change_type w = (Ok tt, w') →
       posted w' ≠ posted w →
       ∃ threshold template,
         tier config (Parser.rank entry) = (threshold, template)
         ∧ State.alerts (state w')
           = <[alert_key entry threshold
               := State.mkAlertState (clock env (pred (reads w')))]>
               (State.alerts (state w))
         ∧ file w' = Some (State.Document (State.payload_of (state w')))).
Proof.
  split_and!.
  - intros e w' H.
    apply _maybe_notify_cases in H
      as [(? & _)|(dc & threshold & template & Hdc & Htier & Htpl & H)]; [done|].
    destruct H as [(e' & [= <-] & Hsa)|[(? & _)|(w1 & Hsa & Hrun)]]; [|done|].
    + destruct (should_alert_world _ _ _ _ _ Hsa) as (Hs & Hf & Hp & _).
      split_and!; [by rewrite Hs|done|done|by left].
    + destruct (should_alert_world _ _ _ _ _ Hsa) as (Hs & Hf & Hp & _).
      destruct (dispatch_cases _ dc _ _ _ _ _ Hdc Hrun)
        as [(e' & _ & [= <-] & ->)
           |(text & _ & [(e' & Hsend & [= <-] & _ & Hs2 & Hf2 & Hp2)
                        |(? & _ & ? & _)])];
        [| |done].
      * split_and!; [by rewrite Hs|done|done|by left].
      * split_and!; [by rewrite Hs2, Hs|congruence|congruence|].
        right. eexists. split_and!; [by rewrite Hp2, Hp| |].
        -- pose proof (send_outcome env config
                         (context_of config template (Parser.label entry)
                            (Parser.rank entry) (Parser.target entry)
                            (or_question (Parser.shift entry))
                            (or_question (Parser.date entry)))) as Hout.
           rewrite (Hout _ dc Hdc). simpl.
           rewrite <-Hp, <-(Hout w1 dc Hdc). by rewrite Hsend.
        -- intros threshold' template' Htier' Hclock.
           rewrite Htier in Htier'. injection Htier' as <- <-.
           eapply should_alert_later; [exact Hsa|done|congruence|done].
  - intros dc threshold template w1 message text e w2
      Hdc Htier Htpl Hsa -> Hfmt Hsend.
    destruct (should_alert_world _ _ _ _ _ Hsa) as (Hs & Hf & Hp & _).
    rewrite (_maybe_notify_gate env config _ _ dc threshold template) by done.
    rewrite Hsa, (dispatch_run env config _ dc) by done. rewrite Hfmt.
    unfold bind at 1 2. rewrite Hsend.
    destruct (send_posts env config dc
                (context_of config template (Parser.label entry)
                   (Parser.rank entry) (Parser.target entry)
                   (or_question (Parser.shift entry))
                   (or_question (Parser.date entry))) w1 Hdc)
      as (r1 & Hsend1 & _).
    rewrite Hsend in Hsend1. injection Hsend1 as <- ->. simpl.
    split_and!; [done|by rewrite Hp|by rewrite Hs|done].
  - intros w' H Hposted.
    apply _maybe_notify_cases in H
      as [(_ & -> & _)|(dc & threshold & template & Hdc & Htier & Htpl & H)];
      [done|].
    exists threshold, template. split; [done|].
    destruct H as [(e' & ? & _)|[(_ & Hsa)|(w1 & Hsa & Hrun)]]; [done| |].
    + destruct (should_alert_world _ _ _ _ _ Hsa) as (_ & _ & Hp & _). done.
    + destruct (should_alert_world _ _ _ _ _ Hsa) as (Hs & Hf & Hp & _).
      destruct (dispatch_cases _ dc _ _ _ _ _ Hdc Hrun)
        as [(e' & _ & ? & _)
           |(text & _ & [(e' & _ & ? & _)|(w2 & _ & _ & _ & _ & _ & ->)])];
        [done|done|].
      simpl. by rewrite Hs.
Qed.

Context (once : bool).



Lemma run_loop_raise fuel k w wk e wf :
  after_rounds env config once k w = Some wk →
  run_round env config once wk = (Raise e, wf) →
  (k < fuel)%nat →
  run_loop env config once fuel w = Some (Raise e, wf).
Proof.
  revert k w. induction fuel as [|fuel IH]; intros k w Hk Hr Hlt; [lia|].
  destruct k as [|k]; simpl in *.
  - injection Hk as ->. by rewrite Hr.
  - destruct (run_round env config once w) as [[[]|e'] w'] eqn:Hw; try done.
    apply (IH k); [done|done|lia].
Qed.


End Failure.

(* ===================================================================== *)
(** * Pagination *)
(* ===================================================================== *)

Lemma parse_entries_page lines label page targets :
  Forall (λ e, Parser.page e = page ∧ Parser.label e = label)
    (Parser.parse_entries lines label page targets).
Proof.
  unfold Parser.parse_entries. rewrite Forall_forall. intros e Hin.
  apply list_elem_of_bind in Hin as (raw_line & Hin & _).
  unfold Parser.parse_line in Hin.
  destruct (filter _ _) as [|t ts]; [by apply elem_of_nil in Hin|].
  apply list_elem_of_fmap in Hin as (t' & -> & _). done.
Qed.

Section Pagination.
Context (env : Env) (config : AppConfig).
Context (base_url label : string) (res : nat → FetchResult).

Local Abbreviation hash := (hash_at env res).
Local Abbreviation url := (url_of base_url).
Local Abbreviation records := (records_at env config label res).

Lemma fetch_pages_walk remaining :
  ∀ (p k : nat) (seen : gmap string (list string)) acc w,
    (∀ j, (j ≤ k)%nat → (j < remaining)%nat →
       site env (length (fetched w) + j) (url (p + j)) = Ok (res (p + j))) →
    (∀ j, (j < k)%nat →
       hash (p + j) ∉ (default [] (seen !! label) ++ (hash <$> seq p j))%list) →
    ((k < remaining)%nat
     ∧ hash (p + k) ∈ (default [] (seen !! label) ++ (hash <$> seq p k))%list)
    ∨ k = remaining →
    ∃ seen' w',
      fetch_pages env config remaining base_url label (Z.of_nat p) (seen, acc) w
      = (Ok (seen', (acc ++ concat (records <$> seq p k))%list), w')
      ∧ fetched w'
        = (fetched w
           ++ (url <$> seq p (if decide (k < remaining)%nat then S k else k)))%list
      ∧ default [] (seen' !! label)
        = (default [] (seen !! label) ++ (hash <$> seq p k))%list.
Proof.
  induction remaining as [|remaining IH]; intros p k seen acc w Hsite Hfresh Hstop.
  - destruct Hstop as [[? _]| ->]; [lia|]. simpl.
    exists seen, w. unfold ret. by rewrite !app_nil_r.
  - simpl. unfold bind at 1. unfold fetch.
    specialize (Hsite O) as Hsite0. rewrite !Nat.add_0_r in Hsite0.
    change (page_url base_url (Z.of_nat p)) with (url p).
    rewrite Hsite0 by lia.
    change (sha256_hex env (content (res p))) with (hash p).
    destruct k as [|k].
    + destruct Hstop as [[_ Hin]|?]; [|lia].
      simpl in Hin. rewrite Nat.add_0_r, app_nil_r in Hin.
      case_bool_decide; [|done]. unfold ret.
      do 2 eexists. split; [by rewrite app_nil_r|].
      rewrite decide_True by lia. simpl. by rewrite app_nil_r.
    + specialize (Hfresh O) as Hfresh0. simpl in Hfresh0.
      rewrite Nat.add_0_r, app_nil_r in Hfresh0.
      case_bool_decide; [by destruct Hfresh0; [lia|]|].
      change (Parser.parse_entries _ label (Z.of_nat p) _) with (records p).
      replace (Z.of_nat p + 1) with (Z.of_nat (S p)) by lia.
      edestruct (IH (S p) k
                   (<[label := (default [] (seen !! label) ++ [hash p])%list]> seen)
                   (acc ++ records p)%list
                   (mkWorld (state w) (file w) (reads w)
                      (fetched w ++ [url p])%list (posted w)))
        as (seen' & w' & Hrun & Hfet & Hseen).
      * intros j Hj Hr. simpl. rewrite length_app. simpl.
        replace (length (fetched w) + 1 + j)%nat
          with (length (fetched w) + S j)%nat by lia.
        replace (S (p + j)) with (p + S j)%nat by lia.
        apply Hsite; lia.
      * intros j Hj. rewrite lookup_insert_eq. simpl.
        rewrite <-app_assoc. simpl.
        replace (S (p + j)) with (p + S j)%nat by lia.
        apply (Hfresh (S j)). lia.
      * rewrite lookup_insert_eq. simpl. rewrite <-app_assoc. simpl.
        replace (S (p + k)) with (p + S k)%nat by lia.
        destruct Hstop as [[? ?]|?]; [left; split; [lia|done] | right; lia].
      * exists seen', w'. rewrite Hrun, Hfet, Hseen. simpl.
        rewrite lookup_insert_eq. simpl. rewrite <-!app_assoc. simpl.
        split_and!; [done| |done].
        do 2 f_equal. by repeat case_decide; try lia.
Qed.

End Pagination.

(** The walk of a list records fingerprints under its own label only. *)
Lemma fetch_pages_other_labels env config remaining base_url label :
  ∀ page acc w acc' w' (other : string),
    fetch_pages env config remaining base_url label page acc w = (Ok acc', w') →
    other ≠ label →
    acc'.1 !! other = acc.1 !! other.
Proof.
  induction remaining as [|remaining IH];
    intros page [seen new_entries] w acc' w' other Hrun Hne; simpl in Hrun.
  - unfold ret in Hrun. by injection Hrun as <- _.
  - unfold bind, fetch in Hrun.
    destruct (site env _ _) as [result|e]; [|done].
    case_bool_decide.
    + unfold ret in Hrun. by injection Hrun as <- _.
    + apply (IH _ _ _ _ _ other) in Hrun; [|done].
      rewrite Hrun. simpl. by rewrite lookup_insert_ne.
Qed.

(** In a pass, no fingerprint is known for a label before the walk of the
    first list that bears it. *)
Lemma fetch_lists_fresh env config lists :
  ∀ acc w acc' w' (label : string),
    fetch_lists env config lists acc w = (Ok acc', w') →
    label ∉ lists.*2 →
    acc'.1 !! label = acc.1 !! label.
Proof.
  induction lists as [|[base_url l] lists IH];
    intros acc w acc' w' label Hrun Hnot; simpl in Hrun.
  - unfold ret in Hrun. by injection Hrun as <- _.
  - apply not_elem_of_cons in Hnot as [Hne Hnot]. unfold bind in Hrun.
    destruct (fetch_pages _ _ _ _ _ _ _ _) as [[acc1|e] w1] eqn:H1; [|done].
    rewrite (IH _ _ _ _ _ Hrun Hnot).
    by apply (fetch_pages_other_labels _ _ _ _ _ _ _ _ _ _ _ H1).
Qed.

Lemma fetch_lists_app env config l1 l2 acc w :
  fetch_lists env config (l1 ++ l2) acc w =
    match fetch_lists env config l1 acc w with
    | (Ok acc1, w1) => fetch_lists env config l2 acc1 w1
    | (Raise e, w1) => (Raise e, w1)
    end.
Proof.
  revert acc w. induction l1 as [|[base_url label] l1 IH]; intros acc w; [done|].
  simpl. unfold bind.
  destruct (fetch_pages _ _ _ _ _ _ _ _) as [[acc1|e] w1]; [apply IH|done].
Qed.

(** Every fingerprint that the walk of a list adds under its label is that
    of a page the walk fetched. *)
Lemma fetch_pages_origin env config remaining base_url label :
  ∀ page acc w acc' w',
    fetch_pages env config remaining base_url label page acc w = (Ok acc', w') →
    (∃ urls, fetched w' = (fetched w ++ urls)%list)
    ∧ ∀ h, h ∈ default [] (acc'.1 !! label) →
        h ∈ default [] (acc.1 !! label)
        ∨ ∃ n j r, (length (fetched w) ≤ n)%nat
                   ∧ fetched w' !! n = Some (page_url base_url j)
                   ∧ site env n (page_url base_url j) = Ok r
                   ∧ h = fingerprint env r.
Proof.
  induction remaining as [|remaining IH];
    intros page [seen new_entries] w acc' w' Hrun; simpl in Hrun.
  - unfold ret in Hrun. injection Hrun as <- <-.
    split; [exists []; by rewrite app_nil_r|]. intros h Hh. by left.
  - unfold bind, fetch in Hrun.
    destruct (site env _ _) as [result|e] eqn:Hsite; [|done].
    case_bool_decide as Hrep.
    + unfold ret in Hrun. injection Hrun as <- <-. simpl.
      split; [by eexists|]. intros h Hh. by left.
    + apply IH in Hrun as [[urls Hfet] Horigin]. simpl in *.
      split; [exists (page_url base_url page :: urls);
              by rewrite Hfet, <-app_assoc|].
      intros h Hh. destruct (Horigin h Hh) as [Hin|(n & j & r & Hn & Hl & Hs & ->)].
      * rewrite lookup_insert_eq in Hin. simpl in Hin.
        apply elem_of_app in Hin as [Hin|Hin%list_elem_of_singleton]; [by left|].
        right. exists (length (fetched w)), page, result.
        split_and!; [lia| |done|done].
        rewrite Hfet, <-app_assoc. by rewrite lookup_app_r, Nat.sub_diag by lia.
      * right. exists n, j, r. rewrite length_app in Hn. simpl in Hn.
        split_and!; [lia|done|done|done].
Qed.

(** Every fingerprint kept under a label in a pass is that of a page
    fetched in the pass from a list that bears the label. *)
Lemma fetch_lists_origin env config lists :
  ∀ acc w acc' w',
    fetch_lists env config lists acc w = (Ok acc', w') →
    (∃ urls, fetched w' = (fetched w ++ urls)%list)
    ∧ ∀ (label : string) h, h ∈ default [] (acc'.1 !! label) →
        h ∈ default [] (acc.1 !! label)
        ∨ ∃ n b j r, (b, label) ∈ lists
                     ∧ (length (fetched w) ≤ n)%nat
                     ∧ fetched w' !! n = Some (page_url b j)
                     ∧ site env n (page_url b j) = Ok r
                     ∧ h = fingerprint env r.
Proof.
  induction lists as [|[base_url l] lists IH];
    intros acc w acc' w' Hrun; simpl in Hrun.
  - unfold ret in Hrun. injection Hrun as <- <-.
    split; [exists []; by rewrite app_nil_r|]. intros label h Hh. by left.
  - unfold bind in Hrun.
    destruct (fetch_pages _ _ _ _ _ _ _ _) as [[acc1|e] w1] eqn:H1; [|done].
    destruct (fetch_pages_origin _ _ _ _ _ _ _ _ _ _ H1) as [[urls1 Hf1] Ho1].
    destruct (IH _ _ _ _ Hrun) as [[urls Hf] Ho].
    split; [exists (urls1 ++ urls)%list; by rewrite Hf, Hf1, app_assoc|].
    intros label h Hh.
    destruct (Ho label h Hh) as [Hin|(n & b & j & r & Hb & Hn & Hl & Hs & ->)].
    + destruct (decide (label = l)) as [->|Hne].
      * destruct (Ho1 h Hin) as [?|(n & j & r & Hn & Hl & Hs & ->)]; [by left|].
        right. exists n, base_url, j, r.
        split_and!; [left|done| |done|done].
        rewrite Hf. by apply lookup_app_l_Some.
      * left. by rewrite <-(fetch_pages_other_labels _ _ _ _ _ _ _ _ _ _ _ H1 Hne).
    + right. exists n, b, j, r. rewrite Hf1, length_app in Hn.
      split_and!; [by right|lia|done|done|done].
Qed.

(** C4 (amended): in a pass, for the list [(base_url, label)] that comes
    after the lists [before], [res j] being what the server returns for
    its page [j] and [known j] the fingerprints kept under its label in
    the pass before page [j] is looked at: when page [k] is the first
    whose fingerprint is among the known ones (it need not be that of
    page [k - 1]), pages 0 to [k] are fetched and no other, and pages 0
    to [k - 1] contribute their records; when no page below the ceiling
    repeats, exactly the pages below the ceiling are fetched and all
    contribute, without error; the pass then goes on with the lists that
    follow.  The fingerprints known at the start of the list are those of
    the pages kept earlier in the pass from the lists that bear the same
    label: none when the list has a label of its own.  In particular, for
    such a list, when page 2 has the content of page 0 and page 1 another
    fingerprint, pages 0, 1 and 2 are fetched, page 3 is not, and the
    records are those of pages 0 and 1. *)
Theorem C4_pagination (env : Env) (config : AppConfig)
    (before after : list (string * string)) (base_url label : string)
    (res : nat → FetchResult) (w0 : World)
    (seen : gmap string (list string)) (acc : list Parser.Entry) (w : World) :
  paired_labels config = (before ++ (base_url, label) :: after)%list →
  fetch_lists env config before (∅, []) w0 = (Ok (seen, acc), w) →
  let limit := Z.to_nat (page_limit (watch config)) in
  let known j :=
    (default [] (seen !! label) ++ (hash_at env res <$> seq 0 j))%list in
  (∀ k,
     (∀ j, (j ≤ k)%nat → (j < limit)%nat →
        site env (length (fetched w) + j) (url_of base_url j) = Ok (res j)) →
     (∀ j, (j < k)%nat → hash_at env res j ∉ known j) →
     (((k < limit)%nat ∧ hash_at env res k ∈ known k) ∨ k = limit) →
     ∃ seen' w',
       fetch_pages env config limit base_url label 0 (seen, acc) w
       = (Ok (seen',
              (acc ++ concat (records_at env config label res <$> seq 0 k))%list), w')
       ∧ fetched w'
         = (fetched w
            ++ (url_of base_url
                  <$> seq 0 (if decide (k < limit)%nat then S k else k)))%list
       ∧ default [] (seen' !! label) = known k
       ∧ fetch_lists env config (paired_labels config) (∅, []) w0
         = fetch_lists env config after
             (seen',
              (acc ++ concat (records_at env config label res <$> seq 0 k))%list)
             w')
  ∧ (∀ h, h ∈ default [] (seen !! label) →
       ∃ n b j r, (b, label) ∈ before
                  ∧ (length (fetched w0) ≤ n < length (fetched w))%nat
                  ∧ fetched w !! n = Some (page_url b j)
                  ∧ site env n (page_url b j) = Ok r
                  ∧ h = fingerprint env r)
  ∧ (label ∉ before.*2 → seen !! label = None)
  ∧ (3 ≤ page_limit (watch config) →
     label ∉ before.*2 →
     (∀ j, (j ≤ 2)%nat →
        site env (length (fetched w) + j) (url_of base_url j) = Ok (res j)) →
     content (res 2%nat) = content (res 0%nat) →
     fingerprint env (res 1%nat) ≠ fingerprint env (res 0%nat) →
     ∃ seen' w',
       fetch_pages env config limit base_url label 0 (seen, acc) w
       = (Ok (seen',
              (acc ++ records_of env config label 0%nat (res 0%nat)
                   ++ records_of env config label 1%nat (res 1%nat))%list), w')
       ∧ fetched w'
         = (fetched w
            ++ [url_of base_url 0%nat; url_of base_url 1%nat; url_of base_url 2%nat])%list
       ∧ (url_of base_url 3%nat ∉ drop (length (fetched w)) (fetched w'))
       ∧ Forall (λ e, 0 ≤ Parser.page e ≤ 1)
           (records_of env config label 0%nat (res 0%nat)
            ++ records_of env config label 1%nat (res 1%nat))%list
       ∧ fetch_lists env config (paired_labels config) (∅, []) w0
         = fetch_lists env config after
             (seen',
              (acc ++ records_of env config label 0%nat (res 0%nat)
                   ++ records_of env config label 1%nat (res 1%nat))%list)
             w').
Proof.
  intros Hlists Hbefore limit known.
  assert (Hfresh0 : label ∉ before.*2 → seen !! label = None).
  { intros Hnot.
    by apply (fetch_lists_fresh _ _ _ _ _ _ _ _ Hbefore Hnot). }
  assert (Hgen : ∀ k,
     (∀ j, (j ≤ k)%nat → (j < limit)%nat →
        site env (length (fetched w) + j) (url_of base_url j) = Ok (res j)) →
     (∀ j, (j < k)%nat → hash_at env res j ∉ known j) →
     (((k < limit)%nat ∧ hash_at env res k ∈ known k) ∨ k = limit) →
     ∃ seen' w',
       fetch_pages env config limit base_url label 0 (seen, acc) w
       = (Ok (seen',
              (acc ++ concat (records_at env config label res <$> seq 0 k))%list), w')
       ∧ fetched w'
         = (fetched w
            ++ (url_of base_url
                  <$> seq 0 (if decide (k < limit)%nat then S k else k)))%list
       ∧ default [] (seen' !! label) = known k
       ∧ fetch_lists env config (paired_labels config) (∅, []) w0
         = fetch_lists env config after
             (seen',
              (acc ++ concat (records_at env config label res <$> seq 0 k))%list)
             w').
  { intros k Hsite Hfresh Hstop.
    destruct (fetch_pages_walk env config base_url label res limit 0 k seen acc w)
      as (seen' & w' & Hrun & Hfet & Hseen); [done|done|done|].
    exists seen', w'. split_and!; [exact Hrun|exact Hfet|exact Hseen|].
    rewrite Hlists, fetch_lists_app, Hbefore. simpl. unfold bind.
    change (Z.of_nat 0) with 0 in Hrun. unfold limit in Hrun.
    by rewrite Hrun. }
  split_and!; [exact Hgen| |exact Hfresh0|].
  - intros h Hh.
    destruct (fetch_lists_origin _ _ _ _ _ _ _ Hbefore) as [_ Ho].
    destruct (Ho label h Hh) as [Hin|(n & b & j & r & Hb & Hn & Hl & Hs & ->)].
    + simpl in Hin. rewrite lookup_empty in Hin. by apply elem_of_nil in Hin.
    + exists n, b, j, r. split_and!; [done|lia| |done|done|done].
      by apply lookup_lt_Some in Hl.
  - intros Hlimit Hnot Hsite Hsame Hdiff.
    pose proof (Hfresh0 Hnot) as Hnone.
    assert (Hl : (3 ≤ limit)%nat) by (unfold limit; lia).
    destruct (Hgen 2%nat) as (seen' & w' & Hrun & Hfet & _ & Hpass).
    + intros j Hj _. by apply Hsite.
    + intros j Hj. unfold known. rewrite Hnone. simpl.
      destruct j as [|[|j]]; simpl; [apply not_elem_of_nil| |lia].
      by intros H%list_elem_of_singleton.
    + left. split; [lia|]. unfold known. rewrite Hnone. simpl.
      unfold hash_at, fingerprint. rewrite Hsame. left.
    + rewrite decide_True in Hfet by lia. simpl in Hrun, Hfet, Hpass.
      rewrite app_nil_r in Hrun, Hpass.
      exists seen', w'. split_and!; [done|done| | |done].
      * rewrite Hfet, drop_app_length.
        unfold url_of, page_url. simpl.
        rewrite !elem_of_cons, elem_of_nil.
        intros [H|[H|[H|[]]]]; apply (inj (String.append _)) in H;
          apply (inj (String.append _)) in H; discriminate.
      * apply Forall_app. split.
        -- eapply Forall_impl; [apply parse_entries_page|]. simpl.
           intros e [-> _]. lia.
        -- eapply Forall_impl; [apply parse_entries_page|]. simpl.
           intros e [-> _]. lia.
Qed.

(* ===================================================================== *)
(** * Loading the state *)
(* ===================================================================== *)

Section Loading.
Context (env : Env).

Lemma bump_0 w : bump 0 w = w.
Proof. by destruct w. Qed.

Lemma bump_tick n w : bump n (tick w) = bump (S n) w.
Proof. unfold bump, tick. simpl. f_equal. lia. Qed.

Lemma utcnow_run w : utcnow env w = (Ok (clock env (reads w)), tick w).
Proof. done. Qed.

Lemma load_targets_spec targets :
  ∀ acc w, ∃ m,
    load_targets env targets acc w = (Ok m, bump (length targets) w)
    ∧ (∀ target, target ∉ targets.*1 → m !! target = acc !! target)
    ∧ (NoDup targets.*1 →
       ∀ target values, (target, values) ∈ targets →
         ∃ n, (reads w ≤ n < length targets + reads w)%nat
              ∧ m !! target = Some (load_entry values (clock env n))).
Proof.
  induction targets as [|[t v] targets IH]; intros acc w; simpl.
  - exists acc. rewrite bump_0. split_and!; [done|done|].
    by intros _ ? ? ?%elem_of_nil.
  - unfold bind. rewrite utcnow_run.
    destruct (IH (<[t := load_entry v (clock env (reads w))]> acc) (tick w))
      as (m & Hrun & Hout & Hin).
    exists m. rewrite Hrun, bump_tick. split_and!; [done| |].
    + intros target [Hne Hnot]%not_elem_of_cons.
      rewrite (Hout _ Hnot). by rewrite lookup_insert_ne.
    + intros [Hfresh Hnd]%NoDup_cons target values [Heq|Hel]%elem_of_cons.
      * injection Heq as -> ->. exists (reads w). split; [lia|].
        rewrite (Hout _ Hfresh). by rewrite lookup_insert_eq.
      * destruct (Hin Hnd _ _ Hel) as (n & Hn & Hm). simpl in Hn.
        exists n. split; [lia|done].
Qed.

Lemma load_alerts_spec items :
  ∀ acc w, ∃ m,
    load_alerts env items acc w = (Ok m, bump (length items) w)
    ∧ (∀ key, key ∉ items.*1 → m !! key = acc !! key)
    ∧ (NoDup items.*1 →
       ∀ key values, (key, values) ∈ items →
         ∃ n, (reads w ≤ n < length items + reads w)%nat
              ∧ m !! key
                = Some (State.mkAlertState
                          (default (clock env n) (State.j_sent_at values)))).
Proof.
  induction items as [|[t v] items IH]; intros acc w; simpl.
  - exists acc. rewrite bump_0. split_and!; [done|done|].
    by intros _ ? ? ?%elem_of_nil.
  - unfold bind. rewrite utcnow_run.
    destruct (IH (<[t := State.mkAlertState
                           (default (clock env (reads w)) (State.j_sent_at v))]> acc)
                (tick w)) as (m & Hrun & Hout & Hin).
    exists m. rewrite Hrun, bump_tick. split_and!; [done| |].
    + intros key [Hne Hnot]%not_elem_of_cons.
      rewrite (Hout _ Hnot). by rewrite lookup_insert_ne.
    + intros [Hfresh Hnd]%NoDup_cons key values [Heq|Hel]%elem_of_cons.
      * injection Heq as -> ->. exists (reads w). split; [lia|].
        rewrite (Hout _ Hfresh). by rewrite lookup_insert_eq.
      * destruct (Hin Hnd _ _ Hel) as (n & Hn & Hm). simpl in Hn.
        exists n. split; [lia|done].
Qed.

Lemma load_entries_spec items :
  ∀ acc w, ∃ m k,
    load_entries env items acc w = (Ok m, bump k w)
    ∧ (∀ label, label ∉ items.*1 → m !! label = acc !! label)
    ∧ (NoDup items.*1 →
       ∀ label targets, (label, targets) ∈ items → NoDup targets.*1 →
         ∃ inner, m !! label = Some inner
           ∧ ∀ target values, (target, values) ∈ targets →
               ∃ n, (reads w ≤ n < k + reads w)%nat
                    ∧ inner !! target = Some (load_entry values (clock env n))).
Proof.
  induction items as [|[l ts] items IH]; intros acc w; simpl.
  - exists acc, O. rewrite bump_0. split_and!; [done|done|].
    by intros _ ? ? ?%elem_of_nil.
  - unfold bind.
    destruct (load_targets_spec ts ∅ w) as (inner & Hrun1 & _ & Hin1).
    rewrite Hrun1.
    destruct (IH (<[l := inner]> acc) (bump (length ts) w))
      as (m & k & Hrun & Hout & Hin).
    exists m, (k + length ts)%nat. rewrite Hrun. split_and!.
    + unfold bump. simpl. do 2 f_equal. lia.
    + intros label [Hne Hnot]%not_elem_of_cons.
      rewrite (Hout _ Hnot). by rewrite lookup_insert_ne.
    + intros [Hfresh Hnd]%NoDup_cons label targets [Heq|Hel]%elem_of_cons Hndt.
      * injection Heq as -> ->. exists inner. split.
        -- rewrite (Hout _ Hfresh). by rewrite lookup_insert_eq.
        -- intros target values Htv.
           destruct (Hin1 Hndt _ _ Htv) as (n & Hn & Hm).
           exists n. split; [lia|done].
      * destruct (Hin Hnd _ _ Hel Hndt) as (inner' & Hm & Hall).
        exists inner'. split; [done|].
        intros target values Htv. destruct (Hall _ _ Htv) as (n & Hn & Hv).
        simpl in Hn. exists n. split; [lia|done].
Qed.

(** C6: loading returns the empty state when the state file is absent,
    and returns it, without raising, when the content of the file is text
    on which [json.load] raises JSONDecodeError; a document is loaded
    without raising, every entry and every alert of it (the keys of an
    object being distinct) is in the loaded state, and a member that is
    missing has its default: rank 9999, page 9999, and for [updated_at]
    and [sent_at] a reading of the clock taken during the load.  But only
    JSONDecodeError is caught: a file that is corrupted in another way
    makes the load raise, and with it the start of the watcher:
    UnicodeDecodeError for bytes that are not UTF-8, RecursionError for
    JSON nested too deep, AttributeError for JSON of another shape, and
    whatever else [open] or [json.load] raises. *)
Theorem C6_load_state (w : World) :
  (file w = None → load_state env w = (Ok State.empty, w))
  ∧ (file w = Some State.Malformed → load_state env w = (Ok State.empty, w))
  ∧ (∀ payload, file w = Some (State.Document payload) →
       ∃ s w',
         load_state env w = (Ok s, w')
         ∧ (∀ items label targets target values,
              State.p_entries payload = Some items →
              NoDup items.*1 → (label, targets) ∈ items →
              NoDup targets.*1 → (target, values) ∈ targets →
              ∃ n, (reads w ≤ n < reads w')%nat
                   ∧ State.best_previous s label target
                     = Some (State.mkEntryState
                               (default 9999 (State.j_rank values))
                               (default 9999 (State.j_page values))
                               (State.j_shift values)
                               (State.j_date values)
                               (default "" (State.j_raw values))
                               (default (clock env n) (State.j_updated_at values))))
         ∧ (∀ items key values,
              State.p_alerts payload = Some items →
              NoDup items.*1 → (key, values) ∈ items →
              ∃ n, (reads w ≤ n < reads w')%nat
                   ∧ State.alerts s !! key
                     = Some (State.mkAlertState
                               (default (clock env n) (State.j_sent_at values)))))
  ∧ (file w = Some State.Undecodable →
     load_state env w = (Raise UnicodeDecodeError, w)
     ∧ init env w = (Raise UnicodeDecodeError, w))
  ∧ (file w = Some State.TooDeep →
     load_state env w = (Raise RecursionError, w)
     ∧ init env w = (Raise RecursionError, w))
  ∧ (∀ k, file w = Some (State.Misshapen k) →
     load_state env w = (Raise AttributeError, bump k w)
     ∧ init env w = (Raise AttributeError, bump k w))
  ∧ (∀ e, file w = Some (State.Refused e) →
     load_state env w = (Raise e, w) ∧ init env w = (Raise e, w)).
Proof.
  unfold init, bind, load_state.
  split_and!.
  - intros H. by rewrite H.
  - intros H. by rewrite H.
  - intros payload H. rewrite H. unfold bind, ret.
    destruct (load_entries_spec (default [] (State.p_entries payload)) ∅ w)
      as (entries & k & Hrun & _ & Hent).
    rewrite Hrun.
    destruct (load_alerts_spec (default [] (State.p_alerts payload)) ∅ (bump k w))
      as (alerts & Hrun2 & _ & Hal).
    rewrite Hrun2. do 2 eexists. split; [done|]. simpl. split.
    + intros items label targets target values Hitems Hnd Hin Hndt Htv.
      rewrite Hitems in Hent. simpl in Hent.
      destruct (Hent Hnd _ _ Hin Hndt) as (inner & Hinner & Hall).
      destruct (Hall _ _ Htv) as (n & Hn & Hv).
      exists n. split; [lia|].
      unfold State.best_previous. simpl. by rewrite Hinner.
    + intros items key values Hitems Hnd Hin.
      rewrite Hitems in *. simpl in *.
      destruct (Hal Hnd _ _ Hin) as (n & Hn & Hv). simpl in Hn.
      exists n. split; [lia|done].
  - intros H. rewrite H. by split.
  - intros H. rewrite H. by split.
  - intros k H. rewrite H. unfold bump. rewrite H. by split.
  - intros e H. rewrite H. by split.
Qed.

End Loading.

(* ===================================================================== *)
(** * Saving, then loading *)
(* ===================================================================== *)

Section RoundTrip.
Context (env : Env).

Lemma sorted_items_elem {V : Type} (m : gmap string V) k v :
  (k, v) ∈ State.sorted_items m ↔ m !! k = Some v.
Proof.
  unfold State.sorted_items. rewrite merge_sort_Permutation.
  apply elem_of_map_to_list.
Qed.

Lemma sorted_items_NoDup {V : Type} (m : gmap string V) :
  NoDup (State.sorted_items m).*1.
Proof.
  unfold State.sorted_items. rewrite merge_sort_Permutation.
  apply NoDup_fst_map_to_list.
Qed.

Lemma sorted_items_key {V : Type} (m : gmap string V) k :
  k ∈ (State.sorted_items m).*1 ↔ is_Some (m !! k).
Proof.
  rewrite list_elem_of_fmap. split.
  - intros ([k' v] & -> & Hin). apply sorted_items_elem in Hin. by eexists.
  - intros [v Hv]. exists (k, v). split; [done|]. by apply sorted_items_elem.
Qed.

Lemma load_entry_dict e now : load_entry (State.entry_dict e) now = e.
Proof. by destruct e. Qed.

Lemma load_targets_roundtrip (targets : gmap string State.EntryState) w :
  load_targets env (State.sorted_items (State.entry_dict <$> targets)) ∅ w
  = (Ok targets,
     bump (length (State.sorted_items (State.entry_dict <$> targets))) w).
Proof.
  destruct (load_targets_spec env
              (State.sorted_items (State.entry_dict <$> targets)) ∅ w)
    as (m & Hrun & Hout & Hin).
  rewrite Hrun. do 2 f_equal. apply map_eq. intros t.
  destruct (targets !! t) as [e|] eqn:Ht.
  - destruct (Hin (sorted_items_NoDup _) t (State.entry_dict e)) as (n & _ & Hm).
    + apply sorted_items_elem. by rewrite lookup_fmap, Ht.
    + by rewrite Hm, load_entry_dict.
  - rewrite Hout; [done|]. rewrite sorted_items_key, lookup_fmap, Ht.
    by intros [? ?].
Qed.

Lemma load_entries_sorted items :
  ∀ acc w, ∃ m k,
    load_entries env items acc w = (Ok m, bump k w)
    ∧ (∀ label, label ∉ items.*1 → m !! label = acc !! label)
    ∧ (NoDup items.*1 →
       ∀ label (g : gmap string State.EntryState),
         (label, State.sorted_items (State.entry_dict <$> g)) ∈ items →
         m !! label = Some g).
Proof.
  induction items as [|[l ts] items IH]; intros acc w; simpl.
  - exists acc, O. rewrite bump_0. split_and!; [done|done|].
    by intros _ ? ? ?%elem_of_nil.
  - unfold bind.
    destruct (load_targets_spec env ts ∅ w) as (inner & Hrun1 & _).
    rewrite Hrun1.
    destruct (IH (<[l := inner]> acc) (bump (length ts) w))
      as (m & k & Hrun & Hout & Hin).
    exists m, (k + length ts)%nat. rewrite Hrun. split_and!.
    + unfold bump. simpl. do 2 f_equal. lia.
    + intros label [Hne Hnot]%not_elem_of_cons.
      rewrite (Hout _ Hnot). by rewrite lookup_insert_ne.
    + intros [Hfresh Hnd]%NoDup_cons label g [Heq|Hel]%elem_of_cons.
      * injection Heq as -> <-.
        rewrite load_targets_roundtrip in Hrun1. injection Hrun1 as <-.
        rewrite (Hout _ Hfresh). by rewrite lookup_insert_eq.
      * by apply Hin.
Qed.

(** What [save_state] has written loads as the state it was written
    from; only the clock has been read. *)
Lemma load_state_flushed w :
  ∃ k, load_state env (flushed w) = (Ok (state w), bump k (flushed w)).
Proof.
  unfold load_state. simpl. unfold bind, ret.
  destruct (load_entries_sorted
              (State.sorted_items
                 ((λ targets, State.sorted_items (State.entry_dict <$> targets))
                    <$> State.entries (state w))) ∅ (flushed w))
    as (entries & k & Hrun & Hout & Hin).
  rewrite Hrun.
  destruct (load_alerts_spec env
              (State.sorted_items (State.alert_dict <$> State.alerts (state w)))
              ∅ (bump k (flushed w)))
    as (alerts & Hrun2 & Hout2 & Hin2).
  rewrite Hrun2.
  exists (length (State.sorted_items
                    (State.alert_dict <$> State.alerts (state w))) + k)%nat.
  assert (He : entries = State.entries (state w)).
  { apply map_eq. intros label.
    destruct (State.entries (state w) !! label) as [g|] eqn:Hg.
    - apply (Hin (sorted_items_NoDup _)). apply sorted_items_elem.
      by rewrite lookup_fmap, Hg.
    - rewrite Hout; [done|]. rewrite sorted_items_key, lookup_fmap, Hg.
      by intros [? ?]. }
  assert (Ha : alerts = State.alerts (state w)).
  { apply map_eq. intros key.
    destruct (State.alerts (state w) !! key) as [a|] eqn:Hk.
    - destruct (Hin2 (sorted_items_NoDup _) key (State.alert_dict a))
        as (n & _ & Hm).
      + apply sorted_items_elem. by rewrite lookup_fmap, Hk.
      + rewrite Hm. simpl. by destruct a.
    - rewrite Hout2; [done|]. rewrite sorted_items_key, lookup_fmap, Hk.
      by intros [? ?]. }
  rewrite He, Ha. f_equal; [by destruct (state w)|].
  unfold bump. simpl. f_equal. lia.
Qed.

Lemma init_flushed w :
  ∃ k, init env (flushed w) = (Ok tt, bump k (flushed w)).
Proof.
  destruct (load_state_flushed w) as (k & Hrun). exists k.
  unfold init, bind, modify_state. by rewrite Hrun.
Qed.

End RoundTrip.

(* ===================================================================== *)
(** * A second pass over the same pages *)
(* ===================================================================== *)

Section SamePages.
Context (env : Env) (config : AppConfig).

(** Every page has the same content whenever it is fetched. *)
Hypothesis same_pages : ∀ n m url, site env n url = site env m url.

Lemma add_fetched_nil w : add_fetched [] w = w.
Proof. unfold add_fetched. rewrite app_nil_r. by destruct w. Qed.

Lemma add_fetched_app urls urls' w :
  add_fetched urls' (add_fetched urls w) = add_fetched (urls ++ urls') w.
Proof. unfold add_fetched. simpl. by rewrite app_assoc. Qed.

Lemma fetch_pages_trace remaining base_url label :
  ∀ page acc, ∃ r urls,
    ∀ w, fetch_pages env config remaining base_url label page acc w
         = (r, add_fetched urls w).
Proof.
  induction remaining as [|remaining IH]; intros page [seen_pages new_entries].
  - exists (Ok (seen_pages, new_entries)), []. intros w. simpl.
    by rewrite add_fetched_nil.
  - simpl. unfold bind, fetch.
    destruct (site env 0 (page_url base_url page)) as [result|e] eqn:Hsite.
    + destruct (bool_decide
                  (sha256_hex env (content result)
                     ∈@{list string} default [] (seen_pages !! label))) eqn:Hrep.
      * exists (Ok (seen_pages, new_entries)), [page_url base_url page].
        intros w. rewrite (same_pages _ 0%nat), Hsite, Hrep. done.
      * edestruct IH as (r & urls & Hrun).
        exists r, (page_url base_url page :: urls). intros w.
        rewrite (same_pages _ 0%nat), Hsite, Hrep, Hrun.
        unfold add_fetched. simpl. by rewrite <-app_assoc.
    + exists (Raise e), [page_url base_url page]. intros w.
      by rewrite (same_pages _ 0%nat), Hsite.
Qed.

Lemma fetch_lists_trace lists :
  ∀ acc, ∃ r urls,
    ∀ w, fetch_lists env config lists acc w = (r, add_fetched urls w).
Proof.
  induction lists as [|[base_url label] lists IH]; intros acc.
  - exists (Ok acc), []. intros w. simpl. by rewrite add_fetched_nil.
  - simpl. unfold bind.
    destruct (fetch_pages_trace (Z.to_nat (page_limit (watch config)))
                base_url label 0 acc) as (r1 & urls1 & Hrun1).
    destruct r1 as [acc'|e].
    + destruct (IH acc') as (r & urls & Hrun).
      exists r, (urls1 ++ urls)%list. intros w.
      by rewrite Hrun1, Hrun, add_fetched_app.
    + exists (Raise e), urls1. intros w. by rewrite Hrun1.
Qed.

(** Handling an item leaves the positions of the other pairs alone. *)
Lemma handle_best_others entry w r w' label target :
  handle_best env config (entry_key entry, entry) w = (r, w') →
  entry_key entry ≠ (label, target) →
  State.best_previous (state w') label target
  = State.best_previous (state w) label target.
Proof.
  unfold entry_key. rewrite handle_best_run. intros H Hne.
  assert (Hent : State.entries (state w')
                 = State.entries (state (record_entry env entry w).2)).
  { destruct (classify _ _); unfold bind in H; rewrite record_entry_run in H.
    - by apply _maybe_notify_entries in H.
    - by apply _maybe_notify_entries in H.
    - by injection H as <- <-. }
  unfold State.best_previous at 1. rewrite Hent.
  by apply best_previous_set_ne.
Qed.

Lemma keyed_cons k e items :
  keyed ((k, e) :: items) →
  k = entry_key e ∧ (k ∉ items.*1) ∧ keyed items.
Proof.
  intros [[Hfresh Hnd]%NoDup_cons [Hk Hall]%Forall_cons].
  split_and!; [done|done|by split].
Qed.

Lemma select_best_keyed entries : keyed (select_best entries).
Proof. split; [apply select_best_keys | apply select_best_key_of]. Qed.

Lemma for_each_cons {A : Type} (body : A → M unit) x l w :
  for_each (x :: l) body w =
    match body x w with
    | (Ok _, w1) => for_each l body w1
    | (Raise e, w1) => (Raise e, w1)
    end.
Proof. done. Qed.

Lemma for_each_handle_others items :
  keyed items →
  ∀ w r w' label target,
    for_each items (handle_best env config) w = (r, w') →
    (label, target) ∉ items.*1 →
    State.best_previous (state w') label target
    = State.best_previous (state w) label target.
Proof.
  induction items as [|[k e] items IH]; intros Hk w r w' label target Hrun Hnot.
  - simpl in Hrun. unfold ret in Hrun. by injection Hrun as _ <-.
  - apply keyed_cons in Hk as (-> & Hfresh & Hk).
    apply not_elem_of_cons in Hnot as [Hne Hnot]. simpl in Hne.
    rewrite for_each_cons in Hrun.
    destruct (handle_best env config _ w) as [[[]|e'] w1] eqn:H1.
    + rewrite (IH Hk _ _ _ _ _ Hrun Hnot).
      eapply handle_best_others; [done|]. congruence.
    + injection Hrun as _ <-.
      eapply handle_best_others; [done|]. congruence.
Qed.

(** A pass that came to its end has written the position of every
    selected record. *)
Lemma for_each_handle_recorded items :
  keyed items →
  ∀ w w', for_each items (handle_best env config) w = (Ok tt, w') →
  ∀ k e, (k, e) ∈ items →
    ∃ t, State.best_previous (state w') k.1 k.2 = Some (entry_state e t).
Proof.
  induction items as [|[k0 e0] items IH]; intros Hk w w' Hrun k e Hin.
  - by apply elem_of_nil in Hin.
  - apply keyed_cons in Hk as (-> & Hfresh & Hk).
    rewrite for_each_cons in Hrun.
    destruct (handle_best env config _ w) as [[[]|e'] w1] eqn:H1; [|done].
    apply elem_of_cons in Hin as [Heq|Hin].
    + injection Heq as -> ->. eexists. unfold entry_key in *. simpl.
      rewrite (for_each_handle_others _ Hk _ _ _ _ _ Hrun Hfresh).
      by apply (handle_best_overwrites _ _ _ _ _ _ H1).
    + by apply (IH Hk _ _ Hrun).
Qed.

Lemma differs_same e t : differs e (entry_state e t) = false.
Proof.
  unfold differs. simpl. rewrite !Z.ltb_irrefl, !bool_decide_eq_true_2; done.
Qed.

(** A pass over records that are all in the state already posts nothing
    and changes no position but for the time it was written. *)
Lemma for_each_handle_unchanged items :
  keyed items →
  ∀ w,
    (∀ k e, (k, e) ∈ items →
       ∃ t, State.best_previous (state w) k.1 k.2 = Some (entry_state e t)) →
    ∃ w', for_each items (handle_best env config) w = (Ok tt, w')
          ∧ posted w' = posted w
          ∧ fetched w' = fetched w
          ∧ State.alerts (state w') = State.alerts (state w)
          ∧ ∀ label target,
              position <$> State.best_previous (state w') label target
              = position <$> State.best_previous (state w) label target.
Proof.
  induction items as [|[k e] items IH]; intros Hk w Hprev.
  - exists w. by split_and!.
  - apply keyed_cons in Hk as (-> & Hfresh & Hk).
    destruct (Hprev _ _ (list_elem_of_here _ _)) as (t & Ht). simpl in Ht.
    assert (H1 : handle_best env config (entry_key e, e) w = record_entry env e w).
    { unfold entry_key. rewrite handle_best_run, Ht. unfold classify.
      by rewrite differs_same. }
    destruct (IH Hk (record_entry env e w).2) as (w' & Hrun & Hp & Hf & Ha & Hpos).
    { intros k' e' Hin.
      destruct (Hprev _ _ (list_elem_of_further _ _ _ Hin)) as (t' & Ht').
      exists t'. rewrite <-Ht'. destruct k' as [l' t0']. simpl.
      apply best_previous_set_ne.
      intros Heq. apply Hfresh. unfold entry_key. rewrite Heq.
      apply list_elem_of_fmap. by exists (l', t0', e'). }
    exists w'. rewrite for_each_cons, H1, record_entry_run.
    rewrite record_entry_run in Hrun, Hp, Hf, Ha, Hpos. simpl in *.
    split_and!; [done|done|done|done|].
    intros label target. rewrite Hpos.
    destruct (decide ((Parser.label e, Parser.target e) = (label, target)))
      as [[= <- <-]|Hne].
    + rewrite best_previous_set_eq. unfold entry_key in Ht. simpl in Ht.
      by rewrite Ht.
    + by rewrite best_previous_set_ne.
Qed.

Lemma flushed_flushed w : flushed (flushed w) = flushed w.
Proof. done. Qed.

Lemma handle_best_reads item w r w' :
  handle_best env config item w = (r, w') → (reads w < reads w')%nat.
Proof.
  destruct item as [[label target] e]. unfold handle_best, bind at 1, get_state.
  unfold bind at 1. rewrite record_entry_run.
  assert (Hmn : ∀ ct w0 r0 w0',
            _maybe_notify env config e ct w0 = (r0, w0') →
            (reads w0 ≤ reads w0')%nat).
  { intros ct w0 r0 w0' H.
    apply _maybe_notify_cases in H
      as [(_ & -> & _)|(dc & threshold & template & Hdc & Htier & Htpl & H)];
      [done|].
    assert (Hsa : ∀ r1 w1, should_alert env (alert_key e threshold)
                             (cooldown_minutes (watch config)) w0 = (r1, w1) →
                           (reads w0 ≤ reads w1)%nat).
    { intros r1 w1. rewrite should_alert_run.
      destruct (State.alerts (state w0) !! _); intros [= <- <-]; simpl; lia. }
    destruct H as [(e' & _ & H)|[(_ & H)|(w1 & H & Hrun)]];
      [by apply Hsa in H..|].
    apply Hsa in H.
    destruct (dispatch_cases _ _ _ dc _ _ _ _ _ Hdc Hrun)
      as [(e' & _ & _ & ->)
         |(text & _ & [(e' & _ & _ & Hr & _)|(w2 & _ & _ & _ & _ & _ & ->)])];
      [done|lia|simpl; lia]. }
  destruct (classify _ _); intros H.
  - apply Hmn in H. simpl in H. lia.
  - apply Hmn in H. simpl in H. lia.
  - unfold ret in H. injection H as _ <-. simpl. lia.
Qed.

(** A pass that came to its end has stamped the position of every
    selected record with a reading of the clock made during the pass. *)
Lemma for_each_handle_stamped items :
  keyed items →
  ∀ w r w', for_each items (handle_best env config) w = (r, w') →
  (reads w ≤ reads w')%nat
  ∧ (r = Ok tt →
     ∀ k e, (k, e) ∈ items →
       ∃ n, (reads w ≤ n < reads w')%nat
            ∧ State.best_previous (state w') k.1 k.2
              = Some (entry_state e (clock env n))).
Proof.
  induction items as [|[k0 e0] items IH]; intros Hk w r w' Hrun.
  - simpl in Hrun. unfold ret in Hrun. injection Hrun as <- <-.
    split; [done|]. by intros _ k e ?%elem_of_nil.
  - apply keyed_cons in Hk as (-> & Hfresh & Hk).
    rewrite for_each_cons in Hrun.
    destruct (handle_best env config _ w) as [[[]|e'] w1] eqn:H1.
    + pose proof (handle_best_reads _ _ _ _ H1) as Hlt.
      destruct (IH Hk _ _ _ Hrun) as [Hle Hall].
      split; [lia|]. intros -> k e Hin.
      apply elem_of_cons in Hin as [Heq|Hin].
      * injection Heq as -> ->. exists (reads w). split; [lia|].
        unfold entry_key in *. simpl.
        rewrite (for_each_handle_others _ Hk _ _ _ _ _ Hrun Hfresh).
        by apply (handle_best_overwrites _ _ _ _ _ _ H1).
      * destruct (Hall eq_refl _ _ Hin) as (n & Hn & Hst).
        exists n. split; [lia|done].
    + injection Hrun as <- <-.
      pose proof (handle_best_reads _ _ _ _ H1) as Hlt. split; [lia|done].
Qed.

(** C5 (amended): after a pass that returned, saving the state, loading
    it again and making a pass over pages of the same content returns,
    posts nothing, leaves the alert records as they were and leaves the
    set of positions with the same keys and the same rank, page, shift,
    date and text; the [updated_at] of every position the pass selects is
    overwritten with a reading of the clock made during that pass, and
    the positions it does not select are left as they were. *)
Theorem C5_restart_same_pages (w0 w1 : World) :
  _run_once env config w0 = (Ok tt, w1) →
  ∃ w2,
    (save_state >> init env >> _run_once env config) w1 = (Ok tt, w2)
    ∧ posted w2 = posted w1
    ∧ State.alerts (state w2) = State.alerts (state w1)
    ∧ (∀ label target,
         position <$> State.best_previous (state w2) label target
         = position <$> State.best_previous (state w1) label target)
    ∧ ∃ acc wf,
        fetch_lists env config (paired_labels config) (∅, []) w0
        = (Ok acc, wf)
        ∧ (∀ k e, (k, e) ∈ select_best acc.2 →
             ∃ n, (reads w1 ≤ n < reads w2)%nat
                  ∧ State.best_previous (state w2) k.1 k.2
                    = Some (entry_state e (clock env n)))
        ∧ (∀ label target,
             (label, target) ∉ (select_best acc.2).*1 →
             State.best_previous (state w2) label target
             = State.best_previous (state w1) label target).
Proof.
  intros Hpass. unfold _run_once in Hpass. unfold bind in Hpass.
  destruct (fetch_lists_trace (paired_labels config) (∅, []))
    as (r & urls & Hfetch).
  rewrite Hfetch in Hpass. destruct r as [acc|e]; [|done].
  unfold _handle_entries in Hpass.
  destruct (for_each _ _ (add_fetched urls w0)) as [[[]|e] wb] eqn:Hhandle;
    [|done].
  unfold save_state in Hpass. injection Hpass as <-. fold (flushed wb).
  pose proof (for_each_handle_recorded _ (select_best_keyed _) _ _ Hhandle)
    as Hrec.
  destruct (init_flushed env wb) as (k & Hinit).
  destruct (for_each_handle_unchanged _ (select_best_keyed acc.2)
              (add_fetched urls (bump k (flushed wb))))
    as (w' & Hrun & Hp & Hf & Ha & Hpos); [exact Hrec|].
  exists (flushed w').
  unfold bind at 1. unfold save_state at 1. fold (flushed (flushed wb)).
  rewrite flushed_flushed. unfold bind at 1. rewrite Hinit.
  unfold _run_once, bind. rewrite Hfetch. unfold _handle_entries.
  rewrite Hrun. unfold save_state. fold (flushed w').
  split_and!; [done|exact Hp|exact Ha|exact Hpos|].
  exists acc, (add_fetched urls w0). split; [by rewrite Hfetch|].
  destruct (for_each_handle_stamped _ (select_best_keyed acc.2) _ _ _ Hrun)
    as [Hle Hall].
  split.
  - intros k0 e0 Hin. destruct (Hall eq_refl _ _ Hin) as (n & Hn & Hst).
    exists n. simpl in *. split; [lia|done].
  - intros label target Hnot. simpl.
    by rewrite (for_each_handle_others _ (select_best_keyed acc.2)
                  _ _ _ _ _ Hrun Hnot).
Qed.

End SamePages.

(* ===================================================================== *)
(** * Dates *)
(* ===================================================================== *)

Section Dates.
Import Re Parser.

Lemma is_char_eq c a : is_char c a = true → a = c.
Proof.
  unfold is_char, code. intros H%N.eqb_eq.
  by rewrite <-(ascii_N_embedding a), H, ascii_N_embedding.
Qed.

Lemma search_from_match r s n : ∀ pos m,
  search_from r s n pos = Some m →
  match_at r s (m_start m) = Some (m_end m, m_groups m).
Proof.
  induction n as [|n IH]; intros pos m; simpl.
  - destruct (match_at r s pos) as [[e c]|] eqn:H; [|done].
    by intros [= <-].
  - destruct (match_at r s pos) as [[e c]|] eqn:H; [by intros [= <-]|].
    apply IH.
Qed.

Lemma date_token_shape s pos e caps :
  match_at DATE_REGEX s pos = Some (e, caps) →
  group_span caps 1 = Some (pos, e)
  ∧ ((∃ a, s !! (4 + pos)%nat = Some a ∧ is_char "-" a = true ∧ (4 + pos < e)%nat)
     ∨ (∃ a, (s !! (1 + pos)%nat = Some a ∨ s !! (2 + pos)%nat = Some a)
             ∧ is_char "/" a = true ∧ (2 + pos < e)%nat)).
Proof.
  unfold match_at, DATE_REGEX. intros H. simpl in H.
  unfold times in H. simpl in H.
  repeat (case_match; simplify_eq; try done);
    (split; [reflexivity|]);
    first [ left; eexists; split_and!; [eassumption|eassumption|lia]
          | right; eexists; split_and!; [left; eassumption|eassumption|lia]
          | right; eexists; split_and!; [right; eassumption|eassumption|lia] ].
Qed.


Lemma exec_cls_seq p r s i c k res :
  exec (Seq (Cls p) r) s i c k = Some res →
  ∃ a, s !! i = Some a ∧ p a = true ∧ exec r s (S i) c k = Some res.
Proof.
  simpl. destruct (s !! i) as [a|]; [|done].
  destruct (p a) eqn:Hp; [|done]. eauto.
Qed.

Lemma exec_seq_group n r r2 s i c k :
  exec (Seq (Group n r) r2) s i c k
  = exec r s i c (λ j c', exec r2 s j ((n, (i, j)) :: c') k).
Proof. reflexivity. Qed.

Lemma year_first_needs_digits value dt :
  strptime value pct_Y pct_m pct_d = Some dt →
  (∃ a, value !! 1%nat = Some a ∧ is_digit a = true)
  ∧ (∃ a, value !! 2%nat = Some a ∧ is_digit a = true).
Proof.
  unfold strptime. intros H.
  destruct (match_at _ value 0) as [[e caps]|] eqn:Hm; [|done]. clear H.
  unfold match_at, format_re in Hm.
  cbn [seqs directive_re directive_group re_pct_Y d] in Hm.
  rewrite exec_seq_group in Hm.
  apply exec_cls_seq in Hm as (a0 & H0 & Hd0 & Hm).
  apply exec_cls_seq in Hm as (a1 & H1 & Hd1 & Hm).
  apply exec_cls_seq in Hm as (a2 & H2 & Hd2 & Hm).
  split; eauto.
Qed.

Lemma slice_lookup (s : list ascii) p e i :
  (p + i < e)%nat → slice s p e !! i = s !! (i + p)%nat.
Proof.
  intros Hlt. unfold slice. rewrite lookup_take_lt by lia.
  rewrite lookup_drop. f_equal. lia.
Qed.

Lemma year_first_format_unreachable line m :
  search DATE_REGEX line = Some m →
  "-"%char ∉ from_option id [] (group line m 1) →
  strptime (from_option id [] (group line m 1))
    pct_Y pct_m pct_d = None.
Proof.
  intros Hs%search_from_match Hdash.
  apply date_token_shape in Hs as [Hg Hshape].
  unfold group in *. rewrite Hg in *. simpl in *.
  destruct (strptime _ _ _ _) as [dt|] eqn:Hp; [exfalso|done].
  apply year_first_needs_digits in Hp as [(a1 & H1 & Hd1) (a2 & H2 & Hd2)].
  destruct Hshape as [(a & Ha & Hc & Hlt)|(a & Ha & Hc & Hlt)].
  - apply Hdash. apply is_char_eq in Hc as ->.
    apply list_elem_of_lookup. exists 4%nat. by rewrite slice_lookup by lia.
  - apply is_char_eq in Hc as ->.
    rewrite slice_lookup in H1, H2 by lia. simpl in H1, H2, Ha.
    destruct Ha as [Ha|Ha].
    + rewrite Ha in H1. injection H1 as <-. vm_compute in Hd1. discriminate Hd1.
    + rewrite Ha in H2. injection H2 as <-. vm_compute in Hd2. discriminate Hd2.
Qed.

End Dates.

(* ===================================================================== *)
(** * The properties on the sample data *)
(* ===================================================================== *)


Lemma C2_cooldown_witness :
  (should_alert (Sample.env 204) Sample.key5 30 (Sample.w_seen 0 10)).1 = Ok false
  ∧ (should_alert (Sample.env 204) Sample.key5 30 (Sample.w_seen 0 31)).1 = Ok true
  ∧ posted (_maybe_notify (Sample.env 204) Sample.config Sample.seen5 "update"
              (Sample.w_seen 0 10)).2 = []
  ∧ posted (_maybe_notify (Sample.env 204) Sample.config Sample.seen5 "update"
              (Sample.w_seen 0 31)).2
    = [context_of Sample.config (top_template Sample.dc) "L" 5 "A1234"
         "08:00-12:00" "2024-03-15"].
Proof.
  split_and!.
  - destruct (C2_cooldown (Sample.env 204) Sample.config Sample.key5 30
                (Sample.w_seen 0 10)) as (_ & H & _).
    apply (H (State.mkAlertState (minutes 0))); reflexivity.
  - destruct (C2_cooldown (Sample.env 204) Sample.config Sample.key5 30
                (Sample.w_seen 0 31)) as (_ & H & _).
    apply (H (State.mkAlertState (minutes 0))); [reflexivity|].
    vm_compute. discriminate.
  - destruct (C2_cooldown (Sample.env 204) Sample.config Sample.key5 30
                (Sample.w_seen 0 10)) as (H & _).
    destruct (H eq_refl) as [_ H2].
    destruct (H2 Sample.seen5 "update" Sample.dc "top" (top_template Sample.dc))
      as [_ Hno]; [reflexivity|reflexivity|discriminate|reflexivity|reflexivity|].
    destruct Hno as (w' & Hrun & Hp & _).
    + intros [Hnone|(a & Ha & Hle)]; [discriminate Hnone|].
      injection Ha as <-. vm_compute in Hle. by apply Hle.
    + by rewrite Hrun.
  - destruct (C2_cooldown (Sample.env 204) Sample.config Sample.key5 30
                (Sample.w_seen 0 31)) as (H & _).
    destruct (H eq_refl) as [_ H2].
    destruct (H2 Sample.seen5 "update" Sample.dc "top" (top_template Sample.dc))
      as [Hyes _]; [reflexivity|reflexivity|discriminate|reflexivity|reflexivity|].
    destruct Hyes as (w1 & _ & _ & _ & _ & Hpost & _).
    + right. eexists. split; [reflexivity|]. vm_compute. discriminate.
    + apply (Hpost "TOP L #5"). reflexivity.
Defined.

(** C2, as the claim states it, fails for a cooldown that no [timedelta]
    holds: the key has a record whose age is at least the cooldown, and
    the test raises instead of letting the dispatcher pass; nothing is
    posted. *)
Lemma C2_cooldown_beyond_timedelta :
  State.alerts (state (Sample.w_seen 0 31)) !! Sample.key5
    = Some (State.mkAlertState (minutes 0))
  ∧ cooldown_minutes (watch Cases.config_far_cooldown) = -1439999998561
  ∧ minutes (-1439999998561)
    ≤ clock (Sample.env 204) (reads (Sample.w_seen 0 31)) - minutes 0
  ∧ _maybe_notify (Sample.env 204) Cases.config_far_cooldown Sample.seen5
      "update" (Sample.w_seen 0 31)
    = (Raise OverflowError, tick (Sample.w_seen 0 31))
  ∧ posted (tick (Sample.w_seen 0 31)) = posted (Sample.w_seen 0 31).
Proof. split_and!; [reflexivity|reflexivity|by vm_compute|by vm_compute|reflexivity]. Qed.



Lemma C10_failed_send_records_nothing_witness :
  ∃ w',
    _maybe_notify (Sample.env 500) Sample.config Sample.seen5 "new"
      (Sample.w_seen 0 31)
      = (Raise (HTTPError 500), w')
    ∧ state w' = state (Sample.w_seen 0 31)
    ∧ file w' = None
    ∧ (should_alert (Sample.env 500) Sample.key5 30 w').1 = Ok true.
Proof.
  eexists. split; [vm_compute; reflexivity|].
  destruct (C10_failed_send_records_nothing (Sample.env 500) Sample.config
              Sample.seen5 "new" (Sample.w_seen 0 31)) as [H _].
  edestruct H as (_ & Hs & Hf & Hcase); [vm_compute; reflexivity|].
  split_and!; [exact Hs|exact Hf|].
  destruct Hcase as [Hsame|(message & _ & _ & Hretry)].
  - vm_compute in Hsame. discriminate Hsame.
  - apply (Hretry "top" (top_template Sample.dc)); [reflexivity|].
    vm_compute. discriminate.
Defined.

Lemma C4_pagination_witness :
  (∃ seen' w',
     fetch_pages (Sample.env 204) Sample.config 20 "https://intranet/liste/" "L" 0
       (∅, []) Sample.w_start
     = (Ok (seen', [Sample.seen5]), w')
     ∧ fetched w'
       = ["https://intranet/liste/0"; "https://intranet/liste/1";
          "https://intranet/liste/2"]
     ∧ fetch_lists (Sample.env 204) Sample.config (paired_labels Sample.config)
         (∅, []) Sample.w_start
       = (Ok (seen', [Sample.seen5]), w'))
  ∧ (∃ seen' w',
       fetch_pages (Sample.env 204) Sample.config2 2 "https://intranet/liste/" "L" 0
         (∅, []) Sample.w_start
       = (Ok (seen', [Sample.seen5]), w')
       ∧ fetched w' = ["https://intranet/liste/0"; "https://intranet/liste/1"]).
Proof.
  split.
  - destruct (C4_pagination (Sample.env 204) Sample.config [] []
                "https://intranet/liste/" "L" Sample.res Sample.w_start
                ∅ [] Sample.w_start eq_refl eq_refl)
      as (_ & _ & _ & H).
    destruct H as (seen' & w' & Hrun & Hfet & _ & _ & Hpass).
    + simpl. lia.
    + apply not_elem_of_nil.
    + intros j _. reflexivity.
    + reflexivity.
    + vm_compute. discriminate.
    + exists seen', w'. split_and!; [exact Hrun | exact Hfet | exact Hpass].
  - destruct (C4_pagination (Sample.env 204) Sample.config2 [] []
                "https://intranet/liste/" "L" Sample.res Sample.w_start
                ∅ [] Sample.w_start eq_refl eq_refl)
      as [H _].
    destruct (H 2%nat) as (seen' & w' & Hrun & Hfet & _).
    + intros j _ _. reflexivity.
    + intros j Hj. destruct j as [|[|j]]; [| |lia].
      * vm_compute. apply not_elem_of_nil.
      * vm_compute. intros Hin%list_elem_of_singleton. discriminate Hin.
    + right. reflexivity.
    + exists seen', w'. split; [exact Hrun | exact Hfet].
Defined.

(** C4, as the claim states it, fails for two lists that bear one label
    (here the second list has no label of its own and gets "Liste 1", the
    label of the first): the fingerprints are kept per label, so the
    second list stops at its page 0, whose content a page of the first
    list had, although no page of the second list was fetched before and
    the ceiling of 20 pages is not reached. *)
Lemma C4_lists_of_one_label_share_fingerprints :
  paired_labels Cases.config_one_label
  = [("https://intranet/x", "Liste 1"); ("https://intranet/y", "Liste 1")]
  ∧ page_limit (watch Cases.config_one_label) = 20
  ∧ ∃ seen' records w',
      fetch_lists (Sample.env 204) Cases.config_one_label
        (paired_labels Cases.config_one_label) (∅, []) Sample.w_start
      = (Ok (seen', records), w')
      ∧ fetched w'
        = ["https://intranet/x/0"; "https://intranet/x/1"; "https://intranet/y/0"]
      ∧ Forall (λ e, Parser.page e = 0) records
      ∧ length records = 1%nat.
Proof.
  split_and!; [reflexivity|reflexivity|].
  do 3 eexists. split; [by vm_compute|]. split_and!; [reflexivity| |reflexivity].
  by repeat constructor.
Qed.

Lemma C6_load_state_witness :
  load_state (Sample.env 204) (Sample.w_file None)
    = (Ok State.empty, Sample.w_file None)
  ∧ load_state (Sample.env 204) (Sample.w_file (Some State.Malformed))
    = (Ok State.empty, Sample.w_file (Some State.Malformed))
  ∧ init (Sample.env 204) (Sample.w_file (Some State.Undecodable))
    = (Raise UnicodeDecodeError, Sample.w_file (Some State.Undecodable))
  ∧ init (Sample.env 204) (Sample.w_file (Some (State.Misshapen 0)))
    = (Raise AttributeError, Sample.w_file (Some (State.Misshapen 0)))
  ∧ ∃ s w' n m,
      load_state (Sample.env 204)
        (Sample.w_file (Some (State.Document Sample.bare_document)))
      = (Ok s, w')
      ∧ State.best_previous s "L" "A1234"
        = Some (State.mkEntryState 9999 9999 None None ""
                  (clock (Sample.env 204) n))
      ∧ State.alerts s !! "k"
        = Some (State.mkAlertState (clock (Sample.env 204) m)).
Proof.
  split_and!.
  - destruct (C6_load_state (Sample.env 204) (Sample.w_file None)) as (H & _).
    apply H. reflexivity.
  - destruct (C6_load_state (Sample.env 204)
                (Sample.w_file (Some State.Malformed))) as (_ & H & _).
    apply H. reflexivity.
  - destruct (C6_load_state (Sample.env 204)
                (Sample.w_file (Some State.Undecodable))) as (_ & _ & _ & H & _).
    apply H. reflexivity.
  - destruct (C6_load_state (Sample.env 204)
                (Sample.w_file (Some (State.Misshapen 0))))
      as (_ & _ & _ & _ & _ & H & _).
    apply (H 0%nat). reflexivity.
  - destruct (C6_load_state (Sample.env 204)
                (Sample.w_file (Some (State.Document Sample.bare_document))))
      as (_ & _ & H & _).
    destruct (H Sample.bare_document eq_refl) as (s & w' & Hrun & Hent & Hal).
    destruct (Hent [("L", [("A1234", Sample.bare_entry)])] "L"
                [("A1234", Sample.bare_entry)] "A1234" Sample.bare_entry)
      as (n & _ & Hn);
      [reflexivity | apply NoDup_singleton | apply list_elem_of_singleton; reflexivity
      | apply NoDup_singleton | apply list_elem_of_singleton; reflexivity |].
    destruct (Hal [("k", State.mkAlertJson None)] "k" (State.mkAlertJson None))
      as (m & _ & Hm);
      [reflexivity | apply NoDup_singleton | apply list_elem_of_singleton; reflexivity |].
    exists s, w', n, m. split_and!; [exact Hrun | exact Hn | exact Hm].
Defined.

(** C9: a line with a year/month/day slash date has no date at all in its
    record: [DATE_REGEX] accepts four digits only at the end of a slash
    date, so the token never reaches [_normalise_date], and for no line
    does the ["%Y/%m/%d"] format of [_normalise_date] apply to the token
    found, although it reads such a date.  A day/month/year date is
    normalised, and one that names no day passes through as it is. *)
Theorem C9_year_first_date_is_dropped :
  Parser._extract_date (chars "2024/03/15 A1234") = None
  ∧ Parser.date <$> Parser.parse_entries ["5 A1234 2024/03/15"] "L" 0 ["A1234"]
    = [None]
  ∧ Parser.strptime (chars "2024/03/15") Parser.pct_Y Parser.pct_m Parser.pct_d
    = Some (Parser.mkDate 2024 3 15)
  ∧ Parser._extract_date (chars "15/03/2024 A1234") = Some "2024-03-15"
  ∧ Parser._extract_date (chars "31/02/2024 A1234") = Some "31/02/2024"
  ∧ (∀ line m,
       Re.search Parser.DATE_REGEX line = Some m →
       "-"%char ∉ from_option id [] (Re.group line m 1) →
       Parser.strptime (from_option id [] (Re.group line m 1))
         Parser.pct_Y Parser.pct_m Parser.pct_d = None).
Proof.
  split_and!; [by vm_compute..|]. apply year_first_format_unreachable.
Qed.

Lemma C9_year_first_date_is_dropped_witness :
  Parser.strptime (chars "15/03/2024") Parser.pct_Y Parser.pct_m Parser.pct_d
  = None.
Proof.
  destruct C9_year_first_date_is_dropped as (_ & _ & _ & _ & _ & H).
  apply (H (chars "15/03/2024 A1234") (Re.Found 0 10 [(1, (0, 10)); (3, (0, 10))])%nat).
  - vm_compute. reflexivity.
  - vm_compute. intros Hin. by repeat (apply elem_of_cons in Hin as [?|Hin]; [done|]);
      apply elem_of_nil in Hin.
Defined.

(** After a pass, saving the state, loading it again and a second pass
    over the same pages, the position of the target is not what it was:
    its [updated_at] is the time of the second pass. *)
Lemma C5_restart_refreshes_updated_at :
  _run_once (Sample.env 204) Sample.config Sample.w_start
    = (Ok tt, Sample.after_first_pass)
  ∧ Sample.restart_and_pass Sample.after_first_pass = (Ok tt, Sample.after_restart)
  ∧ State.best_previous (state Sample.after_first_pass) "L" "A1234"
    = Some (entry_state Sample.seen5 (minutes 0))
  ∧ State.best_previous (state Sample.after_restart) "L" "A1234"
    = Some (entry_state Sample.seen5 (minutes 4))
  ∧ State.entries (state Sample.after_restart)
    ≠ State.entries (state Sample.after_first_pass).
Proof.
  split_and!; [by vm_compute..|].
  intros Heq.
  assert (H : State.best_previous (state Sample.after_restart) "L" "A1234"
              = State.best_previous (state Sample.after_first_pass) "L" "A1234").
  { unfold State.best_previous. by rewrite Heq. }
  vm_compute in H. discriminate H.
Qed.

Lemma C5_restart_same_pages_witness :
  ∃ w2,
    Sample.restart_and_pass Sample.after_first_pass = (Ok tt, w2)
    ∧ posted w2 = posted Sample.after_first_pass
    ∧ State.alerts (state w2) = State.alerts (state Sample.after_first_pass)
    ∧ position <$> State.best_previous (state w2) "L" "A1234"
      = Some (5, 0, Some "08:00-12:00", Some "2024-03-15",
              "5 A1234 08:00-12:00 15/03/2024").
Proof.
  destruct (C5_restart_same_pages (Sample.env 204) Sample.config
              (λ _ _ _, eq_refl) Sample.w_start Sample.after_first_pass)
    as (w2 & Hrun & Hp & Ha & Hpos & _); [vm_compute; reflexivity|].
  exists w2. split_and!; [exact Hrun|exact Hp|exact Ha|].
  rewrite Hpos. vm_compute. reflexivity.
Defined.

(* ===================================================================== *)
(** * More on the selection of the best record *)
(* ===================================================================== *)

Lemma first_seen_elem {K : Type} `{EqDecision K} (l : list K) x :
  x ∈ first_seen l ↔ x ∈ l.
Proof.
  induction l as [|y l IH]; simpl; [done|].
  rewrite !elem_of_cons, list_elem_of_filter, IH.
  destruct (decide (x = y)) as [->|Hne]; [split; intros _; by left|].
  split; [intros [?|[_ ?]]; [done|by right] | intros [?|?]; [done|by right]].
Qed.

Lemma dict_keys_elem {K V : Type} `{EqDecision K} (d : list (K * V)) k :
  k ∈ d.*1 ↔ is_Some (dict_get d k).
Proof.
  destruct (dict_get d k) as [v|] eqn:Hget.
  - split; [by eexists|]. intros _. apply dict_get_elem_of in Hget.
    apply list_elem_of_fmap. by exists (k, v).
  - apply dict_get_None in Hget. split; [done|]. by intros [? ?].
Qed.

Lemma select_step_keys_eq best e :
  (select_step best e).*1 =
    if decide (entry_key e ∈ best.*1) then best.*1
    else (best.*1 ++ [entry_key e])%list.
Proof.
  unfold select_step.
  destruct (dict_get best (entry_key e)) as [p|] eqn:Hget.
  - rewrite decide_True by (apply dict_keys_elem; by eexists).
    destruct (better e p); [|done]. by rewrite dict_set_keys, Hget.
  - rewrite decide_False by (by apply dict_get_None).
    by rewrite dict_set_keys, Hget.
Qed.

Lemma filter_all {A : Type} (P : A → Prop) `{∀ x, Decision (P x)} (l : list A) :
  (∀ x, P x) → filter P l = l.
Proof.
  intros HP. induction l as [|x l IH]; [done|].
  by rewrite filter_cons, decide_True, IH.
Qed.

Lemma select_fold_keys_eq l :
  ∀ best,
    (foldl select_step best l).*1
    = (best.*1 ++ filter (λ k, k ∉ best.*1) (first_seen (entry_key <$> l)))%list.
Proof.
  induction l as [|e l IH]; intros best; simpl.
  - by rewrite app_nil_r.
  - rewrite IH, select_step_keys_eq. rewrite filter_cons.
    destruct (decide (entry_key e ∈ best.*1)) as [Hin|Hnot].
    + rewrite decide_False by (intros Hn; by apply Hn).
      f_equal. rewrite list_filter_filter_l; [done|].
      intros k Hk ->. done.
    + rewrite decide_True by done. rewrite <-app_assoc. simpl. do 2 f_equal.
      rewrite list_filter_filter.
      apply list_filter_iff. intros k. rewrite elem_of_app, list_elem_of_singleton.
      split.
      * intros Hk. split; [intros Hin; apply Hk; by left|].
        intros ->. apply Hk. by right.
      * intros [Hk Hne] [?|?]; done.
Qed.

Lemma select_best_first_seen (l : list Parser.Entry) :
  (select_best l).*1 = first_seen (entry_key <$> l).
Proof.
  unfold select_best. rewrite select_fold_keys_eq. simpl.
  apply filter_all. intros k. apply not_elem_of_nil.
Qed.

Lemma select_best_keys_iff (l : list Parser.Entry) k :
  k ∈ (select_best l).*1 ↔ ∃ e, e ∈ l ∧ entry_key e = k.
Proof.
  rewrite select_best_first_seen, first_seen_elem, list_elem_of_fmap.
  split; intros (e & ? & ?); by exists e.
Qed.

(** X1: the selection holds one item per (list, target) pair that occurs
    among the records, in the order in which the pairs first occur (the
    order in which the items are then handled), and the record of an item
    is one of the records of its pair. *)
Theorem select_best_items (l : list Parser.Entry) :
  (select_best l).*1 = first_seen (entry_key <$> l)
  ∧ NoDup (select_best l).*1
  ∧ (∀ k, k ∈ (select_best l).*1 ↔ ∃ e, e ∈ l ∧ entry_key e = k)
  ∧ (∀ k e, (k, e) ∈ select_best l → e ∈ l ∧ entry_key e = k).
Proof.
  split_and!; [apply select_best_first_seen|apply select_best_keys| |].
  - apply select_best_keys_iff.
  - intros k e Hin.
    assert (Hget : dict_get (select_best l) k = Some e).
    { apply dict_elem_of_get; [apply select_best_keys|done]. }
    rewrite select_best_get in Hget.
    apply keep_better_fold_min in Hget as ([Hel|?] & _); [|done].
    by apply of_key_elem in Hel.
Qed.

(** X2: the record selected for a pair is the first, in the order of
    traversal, of the records of the pair that no other undercuts: the
    records of the pair before it are all strictly worse (higher rank, or
    the same rank on a higher page), and none after it is strictly
    better. *)
Theorem select_best_first_least (l : list Parser.Entry) (k : string * string)
    (m : Parser.Entry) :
  dict_get (select_best l) k = Some m →
  ∃ l1 l2,
    of_key k l = (l1 ++ m :: l2)%list
    ∧ (∀ e, e ∈ l1 → lex_lt m e)
    ∧ (∀ e, e ∈ l2 → ¬ lex_lt e m).
Proof.
  rewrite select_best_get.
  destruct (of_key k l) as [|e l'] eqn:Hl; simpl; [done|].
  intros Hm. destruct (keep_better_fold_first _ _ _ Hm)
    as [[-> Hall]|(l1 & l2 & -> & Hlt & H1 & H2)].
  - exists [], l'. split_and!; [done| |done]. by intros e' ?%elem_of_nil.
  - exists (e :: l1), l2. split_and!; [done| |done].
    intros e' [->|?]%elem_of_cons; [done|by apply H1].
Qed.

Lemma select_best_first_least_witness :
  ∃ l1 l2,
    of_key ("L", "A1234") [Sample.rb; Sample.e1; Sample.e0; Sample.ra]
    = (l1 ++ Sample.e0 :: l2)%list
    ∧ (∀ e, e ∈ l1 → lex_lt Sample.e0 e)
    ∧ (∀ e, e ∈ l2 → ¬ lex_lt e Sample.e0).
Proof.
  apply (select_best_first_least
           [Sample.rb; Sample.e1; Sample.e0; Sample.ra] ("L", "A1234") Sample.e0).
  vm_compute. reflexivity.
Defined.

(* ===================================================================== *)
(** * What a pass does to the state and to the webhook *)
(* ===================================================================== *)

Section Handling.
Context (env : Env) (config : AppConfig).
Implicit Types (w : World) (entry : Parser.Entry).

Lemma _maybe_notify_frame entry change_type w r w' :
  _maybe_notify env config entry change_type w = (r, w') →
  fetched w' = fetched w
  ∧ (posted w' = posted w
     ∨ posted w' = (posted w ++ [message_of config entry])%list)
  ∧ (∀ key, is_Some (State.alerts (state w) !! key) →
            is_Some (State.alerts (state w') !! key)).
Proof.
  intros H.
  apply _maybe_notify_cases in H
    as [(_ & -> & _)|(dc & threshold & template & Hdc & Htier & Htpl & H)];
    [by split_and!; [|left|]|].
  assert (Hmsg : message_of config entry
                 = context_of config template (Parser.label entry)
                     (Parser.rank entry) (Parser.target entry)
                     (or_question (Parser.shift entry))
                     (or_question (Parser.date entry))).
  { unfold message_of. by rewrite Htier. }
  destruct H as [(e' & _ & Hsa)|[(_ & Hsa)|(w1 & Hsa & Hrun)]].
  - destruct (should_alert_world _ _ _ _ _ _ Hsa) as (Hs & _ & Hp & Hfe).
    split_and!; [done|by left|by rewrite Hs].
  - destruct (should_alert_world _ _ _ _ _ _ Hsa) as (Hs & _ & Hp & Hfe).
    split_and!; [done|by left|by rewrite Hs].
  - destruct (should_alert_world _ _ _ _ _ _ Hsa) as (Hs & _ & Hp & Hfe).
    destruct (dispatch_cases _ _ _ dc _ _ _ _ _ Hdc Hrun)
      as [(e' & _ & _ & ->)
         |(text & _ & [(e' & Hsend & _ & _ & Hs2 & _ & Hp2)
                      |(w2 & _ & _ & _ & _ & _ & ->)])].
    + split_and!; [done|by left|by rewrite Hs].
    + split_and!; [|right; by rewrite Hp2, Hp, Hmsg|by rewrite Hs2, Hs].
      assert (Hen : enabled config = true).
      { unfold enabled. apply bool_decide_eq_true. rewrite Hdc. by eexists. }
      unfold send, bind, post in Hsend. rewrite Hen in Hsend. simpl in Hsend.
      destruct (webhook env _); simpl in Hsend;
        [unfold raise_for_status, raise, ret in Hsend;
         destruct ((_ <=? _) && _)|]; by simplify_eq.
    + simpl. split_and!; [done|right; by rewrite Hp, Hmsg|].
      intros key. rewrite Hs.
      destruct (decide (key = alert_key entry threshold)) as [->|Hne];
        [rewrite lookup_insert_eq; by eexists | by rewrite lookup_insert_ne].
Qed.

Lemma handle_best_frame k entry w r w' :
  handle_best env config (k, entry) w = (r, w') →
  fetched w' = fetched w
  ∧ (posted w' = posted w
     ∨ posted w' = (posted w ++ [message_of config entry])%list)
  ∧ (∀ key, is_Some (State.alerts (state w) !! key) →
            is_Some (State.alerts (state w') !! key)).
Proof.
  destruct k as [label target]. unfold handle_best, bind at 1, get_state.
  unfold bind at 1. rewrite record_entry_run.
  destruct (classify _ _); intros H.
  - apply _maybe_notify_frame in H. simpl in H. done.
  - apply _maybe_notify_frame in H. simpl in H. done.
  - unfold ret in H. simplify_eq. simpl. by split_and!; [|left|].
Qed.

Lemma for_each_handle_frame items :
  ∀ w r w',
    for_each items (handle_best env config) w = (r, w') →
    fetched w' = fetched w
    ∧ (∃ sent,
         sublist sent items
         ∧ posted w' = (posted w ++ (message_of config <$> sent.*2))%list)
    ∧ (∀ key, is_Some (State.alerts (state w) !! key) →
              is_Some (State.alerts (state w') !! key)).
Proof.
  induction items as [|[k e] items IH]; intros w r w' Hrun.
  - simpl in Hrun. unfold ret in Hrun. simplify_eq.
    split_and!; [done| |done]. exists []. by rewrite app_nil_r.
  - rewrite for_each_cons in Hrun.
    destruct (handle_best env config (k, e) w) as [r1 w1] eqn:H1.
    apply handle_best_frame in H1 as (Hf1 & Hp1 & Ha1).
    assert (Hone : ∃ s1, sublist s1 [(k, e)]
                         ∧ posted w1
                           = (posted w ++ (message_of config <$> s1.*2))%list).
    { destruct Hp1 as [Hp1|Hp1].
      - exists []. rewrite app_nil_r. split; [apply sublist_nil_l|done].
      - by exists [(k, e)]. }
    destruct Hone as (s1 & Hs1 & Hpm).
    destruct r1 as [[]|e1].
    + destruct (IH _ _ _ Hrun) as (Hf & (sent & Hsub & Hp) & Ha).
      split_and!; [congruence| |by intros key ?%Ha1%Ha].
      exists (s1 ++ sent)%list. split.
      * change ((k, e) :: items) with ([(k, e)] ++ items)%list.
        by apply sublist_app.
      * by rewrite Hp, Hpm, !fmap_app, app_assoc.
    + simplify_eq. split_and!; [done| |done].
      exists s1. split; [|done].
      change ((k, e) :: items) with ([(k, e)] ++ items)%list.
      by apply sublist_inserts_r.
Qed.

(** X3: whatever its outcome, the handling of the records of a pass
    fetches nothing and posts at most one message per (list, target) pair
    among the records: the messages it adds, in their order, are the
    messages of some of the selected records, taken in the order of the
    selection, no record twice, and the selection has one record per pair;
    the messages already posted stay. *)
Theorem _handle_entries_posts (entries : list Parser.Entry) w r w' :
  _handle_entries env config entries w = (r, w') →
  fetched w' = fetched w
  ∧ ∃ sent,
      sublist sent (select_best entries)
      ∧ NoDup sent.*1
      ∧ Forall (λ it, dict_get (select_best entries) (entry_key it.2)
                      = Some it.2 ∧ entry_key it.2 = it.1) sent
      ∧ posted w' = (posted w ++ (message_of config <$> sent.*2))%list
      ∧ msg_label <$> (message_of config <$> sent.*2) = sent.*1.*1
      ∧ msg_target <$> (message_of config <$> sent.*2) = sent.*1.*2.
Proof.
  intros (Hf & (sent & Hsub & Hp) & _)%for_each_handle_frame.
  split; [done|]. exists sent.
  assert (Hkey : Forall (λ it, entry_key it.2 = it.1) sent).
  { pose proof (select_best_key_of entries) as Hk.
    rewrite Forall_forall in *. intros it Hin. apply Hk.
    by apply (sublist_subseteq _ _ Hsub). }
  split_and!; [done| | |done| |].
  - apply (sublist_NoDup _ (select_best entries).*1);
      [apply select_best_keys|by apply fmap_sublist].
  - rewrite Forall_forall in *. intros [k e] Hin. split; [|by apply Hkey].
    specialize (Hkey _ Hin). simpl in *. subst k.
    apply dict_elem_of_get; [apply select_best_keys|].
    by apply (sublist_subseteq _ _ Hsub).
  - clear -Hkey. induction Hkey as [|[[l t] e] sent Hk _ IH]; [done|].
    csimpl. rewrite IH. f_equal. unfold entry_key in Hk. simpl in Hk.
    injection Hk as <- _. unfold message_of, context_of.
    by destruct (discord config).
  - clear -Hkey. induction Hkey as [|[[l t] e] sent Hk _ IH]; [done|].
    csimpl. rewrite IH. f_equal. unfold entry_key in Hk. simpl in Hk.
    injection Hk as _ <-. unfold message_of, context_of.
    by destruct (discord config).
Qed.

Lemma handle_best_keeps k entry w r w' label target :
  entry_key entry = k →
  handle_best env config (k, entry) w = (r, w') →
  is_Some (State.best_previous (state w) label target) →
  is_Some (State.best_previous (state w') label target).
Proof.
  intros <- H Hsome.
  destruct (decide (entry_key entry = (label, target))) as [Heq|Hne].
  - injection Heq as <- <-.
    rewrite (handle_best_overwrites _ _ _ _ _ _ H). by eexists.
  - by rewrite (handle_best_others _ _ _ _ _ _ _ _ H Hne).
Qed.

Lemma for_each_handle_keeps items :
  keyed items →
  ∀ w r w' label target,
    for_each items (handle_best env config) w = (r, w') →
    is_Some (State.best_previous (state w) label target) →
    is_Some (State.best_previous (state w') label target).
Proof.
  induction items as [|[k e] items IH]; intros Hk w r w' label target Hrun Hs.
  - simpl in Hrun. unfold ret in Hrun. by simplify_eq.
  - apply keyed_cons in Hk as (-> & _ & Hk). rewrite for_each_cons in Hrun.
    destruct (handle_best env config _ w) as [[[]|e1] w1] eqn:H1.
    + eapply IH; [done|done|]. by eapply handle_best_keeps.
    + simplify_eq. by eapply handle_best_keeps.
Qed.

(** X4: the handling of the records of a pass never removes a position or
    an alert record, whatever its outcome, and it leaves the position of
    every pair that has no record in the pass exactly as it was: a target
    that is no longer on a list keeps the position it was last seen at. *)
Theorem _handle_entries_keeps (entries : list Parser.Entry) w r w' :
  _handle_entries env config entries w = (r, w') →
  (∀ label target,
     is_Some (State.best_previous (state w) label target) →
     is_Some (State.best_previous (state w') label target))
  ∧ (∀ label target,
       (∀ e, e ∈ entries → entry_key e ≠ (label, target)) →
       State.best_previous (state w') label target
       = State.best_previous (state w) label target)
  ∧ (∀ key, is_Some (State.alerts (state w) !! key) →
            is_Some (State.alerts (state w') !! key)).
Proof.
  intros Hrun. unfold _handle_entries in Hrun. split_and!.
  - intros label target. by eapply for_each_handle_keeps; [apply select_best_keyed|].
  - intros label target Hnone.
    eapply for_each_handle_others; [apply select_best_keyed|done|].
    pose proof (select_best_keys_iff entries) as Hkeys.
    rewrite Hkeys. intros (e & Hin & Hk). by apply (Hnone e).
  - by apply for_each_handle_frame in Hrun as (_ & _ & ?).
Qed.

(** X5: with no webhook configured, the handling of the records of a
    pass cannot fail: it returns, posts nothing, leaves the alert records
    and the state file as they were, reads the clock once per selected
    record and writes the position of each. *)
Theorem _handle_entries_without_webhook (entries : list Parser.Entry) w :
  discord config = None →
  ∃ w',
    _handle_entries env config entries w = (Ok tt, w')
    ∧ posted w' = posted w
    ∧ State.alerts (state w') = State.alerts (state w)
    ∧ file w' = file w
    ∧ reads w' = (length (select_best entries) + reads w)%nat
    ∧ ∀ k e, (k, e) ∈ select_best entries →
        ∃ t, State.best_previous (state w') k.1 k.2 = Some (entry_state e t).
Proof.
  intros Hnone.
  assert (Hoff : enabled config = false).
  { unfold enabled. apply bool_decide_eq_false. rewrite Hnone. by intros [? ?]. }
  assert (Hstep : ∀ it w0,
            handle_best env config it w0 = record_entry env it.2 w0).
  { intros [[label target] e] w0. unfold handle_best, bind at 1, get_state.
    unfold bind. rewrite record_entry_run. unfold _maybe_notify. rewrite Hoff.
    by destruct (classify _ _). }
  assert (Hall : ∀ items w0, ∃ w1,
            for_each items (handle_best env config) w0 = (Ok tt, w1)
            ∧ posted w1 = posted w0
            ∧ State.alerts (state w1) = State.alerts (state w0)
            ∧ file w1 = file w0
            ∧ reads w1 = (length items + reads w0)%nat).
  { induction items as [|it items IH]; intros w0.
    - exists w0. by split_and!.
    - rewrite for_each_cons, Hstep, record_entry_run.
      destruct (IH (record_entry env it.2 w0).2) as (w1 & Hrun & Hp & Ha & Hf & Hr).
      rewrite record_entry_run in Hrun, Hp, Ha, Hf, Hr. simpl in *.
      exists w1. split_and!; [done|done|done|done|lia]. }
  destruct (Hall (select_best entries) w) as (w' & Hrun & Hp & Ha & Hf & Hr).
  exists w'. unfold _handle_entries. split_and!; [done..|].
  by apply (for_each_handle_recorded _ _ _ (select_best_keyed entries) _ _ Hrun).
Qed.

Lemma _maybe_notify_posted entry change_type w w' :
  _maybe_notify env config entry change_type w = (Ok tt, w') →
  posted w' ≠ posted w →
  ∃ dc threshold template,
    discord config = Some dc
    ∧ tier config (Parser.rank entry) = (threshold, template)
    ∧ template ≠ ""
    ∧ State.alerts (state w')
      = <[alert_key entry threshold
          := State.mkAlertState (clock env (pred (reads w')))]>
          (State.alerts (state w)).
Proof.
  intros H Hposted.
  apply _maybe_notify_cases in H
    as [(_ & -> & _)|(dc & threshold & template & Hdc & Htier & Htpl & H)];
    [done|].
  exists dc, threshold, template. split_and!; [done..|].
  destruct H as [(e' & ? & _)|[(_ & Hsa)|(w1 & Hsa & Hrun)]]; [done| |].
  - by destruct (should_alert_world _ _ _ _ _ _ Hsa) as (_ & _ & ? & _).
  - destruct (should_alert_world _ _ _ _ _ _ Hsa) as (Hs & _ & _ & _).
    destruct (dispatch_cases _ _ _ dc _ _ _ _ _ Hdc Hrun)
      as [(e' & _ & ? & _)
         |(text & _ & [(e' & _ & ? & _)|(w2 & _ & _ & _ & _ & _ & ->)])];
      [done|done|].
    simpl. by rewrite Hs.
Qed.

Lemma should_alert_early key cooldown w sent :
  State.alerts (state w) !! key = Some (State.mkAlertState sent) →
  clock env (reads w) - sent < minutes cooldown →
  should_alert env key cooldown w
  = (if timedelta_in_range cooldown then Ok false else Raise OverflowError,
     tick w).
Proof.
  intros Hrec Hearly. rewrite should_alert_run, Hrec. unfold timedelta_minutes.
  destruct (timedelta_in_range cooldown); [|done]. simpl. do 2 f_equal. lia.
Qed.

(** X6: a dispatch that has posted has recorded the time of the post under
    the key of the alert, and as long as less than the cooldown has passed
    since, a dispatch of the same record posts nothing and changes
    nothing: one message per key and cooldown window.  It returns, unless
    the cooldown is one that no [timedelta] holds, in which case it is the
    cooldown test that raises. *)
Theorem _maybe_notify_then_suppressed entry change_type w w' :
  _maybe_notify env config entry change_type w = (Ok tt, w') →
  posted w' ≠ posted w →
  ∃ key sent,
    State.alerts (state w') !! key = Some (State.mkAlertState sent)
    ∧ sent = clock env (pred (reads w'))
    ∧ ∀ change_type' w2,
        State.alerts (state w2) !! key = Some (State.mkAlertState sent) →
        clock env (reads w2) - sent < minutes (cooldown_minutes (watch config)) →
        ∃ w3, _maybe_notify env config entry change_type' w2
              = (if timedelta_in_range (cooldown_minutes (watch config))
                 then Ok tt else Raise OverflowError, w3)
              ∧ posted w3 = posted w2 ∧ state w3 = state w2
              ∧ file w3 = file w2.
Proof.
  intros Hrun Hposted.
  destruct (_maybe_notify_posted _ _ _ _ Hrun Hposted)
    as (dc & threshold & template & Hdc & Htier & Htpl & Halerts).
  exists (alert_key entry threshold), (clock env (pred (reads w'))).
  split_and!; [by rewrite Halerts, lookup_insert_eq|done|].
  intros change_type' w2 Hrec Hearly.
  rewrite (_maybe_notify_gate env config _ _ dc threshold template) by done.
  rewrite (should_alert_early _ _ _ _ Hrec Hearly).
  exists (tick w2). by destruct (timedelta_in_range _).
Qed.

End Handling.

Lemma _handle_entries_posts_witness :
  fetched (_handle_entries (Sample.env 204) Sample.config
             [Sample.seen5; Sample.worse9] Sample.w_start).2
  = fetched Sample.w_start
  ∧ ∃ sent,
      sublist sent (select_best [Sample.seen5; Sample.worse9])
      ∧ NoDup sent.*1
      ∧ Forall (λ it, dict_get (select_best [Sample.seen5; Sample.worse9])
                        (entry_key it.2) = Some it.2
                      ∧ entry_key it.2 = it.1) sent
      ∧ posted (_handle_entries (Sample.env 204) Sample.config
                  [Sample.seen5; Sample.worse9] Sample.w_start).2
        = (posted Sample.w_start ++ (message_of Sample.config <$> sent.*2))%list
      ∧ msg_label <$> (message_of Sample.config <$> sent.*2) = sent.*1.*1
      ∧ msg_target <$> (message_of Sample.config <$> sent.*2) = sent.*1.*2.
Proof.
  apply (_handle_entries_posts (Sample.env 204) Sample.config
           [Sample.seen5; Sample.worse9] Sample.w_start
           (_handle_entries (Sample.env 204) Sample.config
              [Sample.seen5; Sample.worse9] Sample.w_start).1).
  apply surjective_pairing.
Defined.

Lemma _handle_entries_keeps_witness :
  is_Some (State.best_previous
             (state (_handle_entries (Sample.env 204) Sample.config [Sample.e0]
                       (Sample.w_seen 0 3)).2) "L" "A1234")
  ∧ is_Some (State.alerts
               (state (_handle_entries (Sample.env 204) Sample.config [Sample.e0]
                         (Sample.w_seen 0 3)).2) !! Sample.key5).
Proof.
  destruct (_handle_entries_keeps (Sample.env 204) Sample.config [Sample.e0]
              (Sample.w_seen 0 3)
              (_handle_entries (Sample.env 204) Sample.config [Sample.e0]
                 (Sample.w_seen 0 3)).1
              (_handle_entries (Sample.env 204) Sample.config [Sample.e0]
                 (Sample.w_seen 0 3)).2) as (Hpos & _ & Hal);
    [apply surjective_pairing|].
  split.
  - apply Hpos. vm_compute. by eexists.
  - apply Hal. vm_compute. by eexists.
Defined.

Lemma _handle_entries_without_webhook_witness :
  ∃ w',
    _handle_entries (Sample.env 204) Cases.config_silent
      [Sample.seen5; Sample.worse9] Sample.w_start = (Ok tt, w')
    ∧ posted w' = [] ∧ file w' = None ∧ reads w' = 1%nat.
Proof.
  destruct (_handle_entries_without_webhook (Sample.env 204) Cases.config_silent
              [Sample.seen5; Sample.worse9] Sample.w_start)
    as (w' & Hrun & Hp & _ & Hf & Hr & _); [reflexivity|].
  exists w'. split_and!; [exact Hrun|exact Hp|exact Hf|exact Hr].
Defined.

Lemma _maybe_notify_then_suppressed_witness :
  ∃ w3,
    _maybe_notify (Sample.env 204) Sample.config Sample.seen5 "update"
      (_maybe_notify (Sample.env 204) Sample.config Sample.seen5 "new"
         Sample.w_start).2
    = (Ok tt, w3)
    ∧ length (posted w3) = 1%nat.
Proof.
  destruct (_maybe_notify_then_suppressed (Sample.env 204) Sample.config
              Sample.seen5 "new" Sample.w_start
              (_maybe_notify (Sample.env 204) Sample.config Sample.seen5 "new"
                 Sample.w_start).2)
    as (key & sent & Hrec & -> & Hnext);
    [vm_compute; reflexivity | vm_compute; discriminate |].
  destruct (Hnext "update" _ Hrec) as (w3 & Hrun & Hp & _).
  - vm_compute. reflexivity.
  - exists w3. split; [exact Hrun|]. rewrite Hp. vm_compute. reflexivity.
Defined.

(* ===================================================================== *)
(** * A pass as a whole and the run loop *)
(* ===================================================================== *)

Section Passes.
Context (env : Env) (config : AppConfig).
Implicit Types (w : World).

Lemma fetch_pages_frame remaining base_url label :
  ∀ page acc w r w',
    fetch_pages env config remaining base_url label page acc w = (r, w') →
    state w' = state w ∧ file w' = file w ∧ reads w' = reads w
    ∧ posted w' = posted w.
Proof.
  induction remaining as [|remaining IH];
    intros page [seen new_entries] w r w' Hrun; simpl in Hrun.
  - unfold ret in Hrun. by simplify_eq.
  - unfold bind, fetch in Hrun.
    destruct (site env _ _) as [result|e]; [|by simplify_eq].
    case_bool_decide.
    + unfold ret in Hrun. by simplify_eq.
    + by apply IH in Hrun.
Qed.

Lemma fetch_lists_frame lists :
  ∀ acc w r w',
    fetch_lists env config lists acc w = (r, w') →
    state w' = state w ∧ file w' = file w ∧ reads w' = reads w
    ∧ posted w' = posted w.
Proof.
  induction lists as [|[base_url label] lists IH]; intros acc w r w' Hrun;
    simpl in Hrun.
  - unfold ret in Hrun. by simplify_eq.
  - unfold bind in Hrun.
    destruct (fetch_pages _ _ _ _ _ _ _ _) as [[acc1|e] w1] eqn:H1.
    + apply fetch_pages_frame in H1 as (? & ? & ? & ?).
      apply IH in Hrun as (? & ? & ? & ?). split_and!; congruence.
    + simplify_eq. by apply fetch_pages_frame in H1.
Qed.

(** X7: when a fetch raises during the pagination of a pass, the pass
    raises the same error at once: the records of the pages fetched before
    are dropped, no position is written, nothing is posted and the state
    file is not written. *)
Theorem _run_once_fetch_error w e w' :
  fetch_lists env config (paired_labels config) (∅, []) w = (Raise e, w') →
  _run_once env config w = (Raise e, w')
  ∧ state w' = state w ∧ file w' = file w ∧ posted w' = posted w
  ∧ reads w' = reads w.
Proof.
  intros Hrun. unfold _run_once, bind. rewrite Hrun.
  split; [done|]. apply fetch_lists_frame in Hrun as (? & ? & ? & ?).
  by split_and!.
Qed.

(** X8: a pass that returns has fetched, then written the position of
    every record it selected, and left the state file equal to the state
    it ends with. *)
Theorem _run_once_saved w w' :
  _run_once env config w = (Ok tt, w') →
  file w' = Some (State.Document (State.payload_of (state w')))
  ∧ ∃ seen entries w1,
      fetch_lists env config (paired_labels config) (∅, []) w
      = (Ok (seen, entries), w1)
      ∧ ∀ k e, (k, e) ∈ select_best entries →
          ∃ t, State.best_previous (state w') k.1 k.2 = Some (entry_state e t).
Proof.
  unfold _run_once, bind. intros Hrun.
  destruct (fetch_lists _ _ _ _ w) as [[[seen entries]|e] w1] eqn:Hf; [|done].
  simpl in Hrun.
  destruct (_handle_entries env config entries w1) as [[[]|e] w2] eqn:Hh; [|done].
  unfold save_state in Hrun. simplify_eq. simpl. split; [done|].
  exists seen, entries, w1. split; [done|].
  by apply (for_each_handle_recorded _ _ _ (select_best_keyed entries) _ _ Hh).
Qed.

Context (once : bool).

(** X9: however [run] ends, it ends with the state file equal to the
    state, and it never lets a KeyboardInterrupt out. *)
Theorem run_always_saves fuel w r w' :
  run env config once fuel w = Some (r, w') →
  file w' = Some (State.Document (State.payload_of (state w')))
  ∧ r ≠ Raise KeyboardInterrupt.
Proof.
  unfold run. destruct (run_body env config once fuel w) as [[r0 w0]|]; [|done].
  simpl. intros [= <- <-].
  destruct r0 as [[]|[]]; simpl; by split.
Qed.

(** X10: a KeyboardInterrupt raised in a round of the loop ends [run]
    without error, the state as it stands at the interrupt having been
    written to the state file. *)
Theorem run_interrupted fuel k w w0 wk wf :
  _login env w = (Ok tt, w0) →
  after_rounds env config once k w0 = Some wk →
  run_round env config once wk = (Raise KeyboardInterrupt, wf) →
  (k < fuel)%nat →
  run env config once fuel w = Some (Ok tt, flushed wf).
Proof.
  intros Hlogin Hk Hr Hlt. unfold run, run_body. rewrite Hlogin.
  by rewrite (run_loop_raise env config once fuel k w0 wk _ wf Hk Hr Hlt).
Qed.

(** X11: when the login raises, [run] fetches and posts nothing and ends
    with that error (without error for a KeyboardInterrupt), after
    writing the state it was started with to the state file. *)
Theorem run_login_error fuel w e :
  login_outcome env = Raise e →
  run env config once fuel w
  = Some (if decide (e = KeyboardInterrupt) then Ok tt else Raise e, flushed w).
Proof.
  intros Hlogin. unfold run, run_body, _login. rewrite Hlogin. simpl.
  by destruct e.
Qed.

End Passes.

Section Loop.
Context (env : Env) (config : AppConfig).

Lemma run_loop_forever fuel :
  ∀ w r w', run_loop env config false fuel w = Some (r, w') → ∃ e, r = Raise e.
Proof.
  induction fuel as [|fuel IH]; intros w r w'; simpl; [done|].
  destruct (run_round env config false w) as [[b|e] w1] eqn:Hr.
  - assert (b = false) as ->.
    { unfold run_round, bind, utcnow, ret in Hr.
      repeat (case_match; simplify_eq); done. }
    apply IH.
  - intros [= <- <-]. by eexists.
Qed.

(** X12: without [--once] the loop has no normal end: [run] returns
    without error only when a KeyboardInterrupt was raised, by the login
    or in a round. *)
Theorem run_ends_by_interrupt fuel w w' :
  run env config false fuel w = Some (Ok tt, w') →
  ∃ w0, run_body env config false fuel w = Some (Raise KeyboardInterrupt, w0)
        ∧ w' = flushed w0.
Proof.
  unfold run.
  destruct (run_body env config false fuel w) as [[r0 w0]|] eqn:Hbody; [|done].
  simpl. intros Hrun. exists w0.
  assert (Hraise : ∃ e, r0 = Raise e).
  { unfold run_body in Hbody. destruct (_login env w) as [[[]|e] w1].
    - by apply run_loop_forever in Hbody.
    - simplify_eq. by eexists. }
  destruct Hraise as [e ->].
  destruct e; unfold finally, save_state in Hrun; simpl in Hrun; by simplify_eq.
Qed.

(** X13: with [--once] the loop is left after one round whatever it did:
    [run] always ends, and rounds beyond the first change nothing. *)
Theorem run_once_terminates fuel w :
  is_Some (run env config true (S fuel) w)
  ∧ run env config true (S fuel) w = run env config true 1 w.
Proof.
  assert (Hloop : ∀ w0, is_Some (run_loop env config true (S fuel) w0)
                        ∧ run_loop env config true (S fuel) w0
                          = run_loop env config true 1 w0).
  { intros w0. simpl.
    destruct (run_round env config true w0) as [[b|e] w1] eqn:Hr.
    - assert (b = true) as ->.
      { unfold run_round, bind, utcnow, ret in Hr.
        repeat (case_match; simplify_eq); done. }
      split; [by eexists|done].
    - split; [by eexists|done]. }
  unfold run, run_body. destruct (_login env w) as [[[]|e] w0].
  - destruct (Hloop w0) as [[o Ho] Heq]. rewrite Heq. rewrite Heq in Ho.
    rewrite Ho. split; [by eexists|done].
  - split; [by eexists|done].
Qed.

End Loop.

Lemma _run_once_fetch_error_witness :
  (_run_once (Cases.env_failing_page ConnectionError) Sample.config
     Sample.w_start).1 = Raise ConnectionError
  ∧ state (_run_once (Cases.env_failing_page ConnectionError) Sample.config
             Sample.w_start).2 = State.empty.
Proof.
  destruct (_run_once_fetch_error (Cases.env_failing_page ConnectionError)
              Sample.config Sample.w_start ConnectionError
              (fetch_lists (Cases.env_failing_page ConnectionError) Sample.config
                 (paired_labels Sample.config) (∅, []) Sample.w_start).2)
    as (Hrun & Hs & _); [vm_compute; reflexivity|].
  rewrite Hrun. split; [reflexivity | exact Hs].
Defined.

Lemma _run_once_saved_witness :
  file Sample.after_first_pass
  = Some (State.Document (State.payload_of (state Sample.after_first_pass))).
Proof.
  apply (_run_once_saved (Sample.env 204) Sample.config Sample.w_start
           Sample.after_first_pass).
  vm_compute. reflexivity.
Defined.

Lemma run_always_saves_witness :
  ∃ r w',
    run (Sample.env 500) Sample.config false 2 Sample.w_start = Some (r, w')
    ∧ file w' = Some (State.Document (State.payload_of (state w')))
    ∧ r ≠ Raise KeyboardInterrupt.
Proof.
  destruct (run (Sample.env 500) Sample.config false 2 Sample.w_start)
    as [[r w']|] eqn:Hrun; [|vm_compute in Hrun; discriminate Hrun].
  exists r, w'. split; [reflexivity|].
  exact (run_always_saves (Sample.env 500) Sample.config false 2
           Sample.w_start r w' Hrun).
Defined.

Lemma run_interrupted_witness :
  ∃ wf,
    run (Cases.env_failing_page KeyboardInterrupt) Sample.config false 3
      Sample.w_start = Some (Ok tt, flushed wf)
    ∧ fetched wf = ["https://intranet/liste/0"; "https://intranet/liste/1"].
Proof.
  eexists. split.
  - eapply (run_interrupted (Cases.env_failing_page KeyboardInterrupt)
              Sample.config false 3 0 Sample.w_start).
    + reflexivity.
    + reflexivity.
    + vm_compute. reflexivity.
    + lia.
  - vm_compute. reflexivity.
Defined.

Lemma run_login_error_witness :
  run (Cases.env_failing_login RuntimeError) Sample.config false 5 Sample.w_start
  = Some (Raise RuntimeError, flushed Sample.w_start).
Proof.
  apply (run_login_error (Cases.env_failing_login RuntimeError) Sample.config
           false 5 Sample.w_start RuntimeError).
  reflexivity.
Defined.

Lemma run_ends_by_interrupt_witness :
  ∃ w0,
    run_body (Cases.env_failing_page KeyboardInterrupt) Sample.config false 3
      Sample.w_start = Some (Raise KeyboardInterrupt, w0).
Proof.
  destruct (run_ends_by_interrupt (Cases.env_failing_page KeyboardInterrupt)
              Sample.config 3 Sample.w_start
              (flushed (run_round (Cases.env_failing_page KeyboardInterrupt)
                          Sample.config false Sample.w_start).2))
    as (w0 & Hbody & _); [vm_compute; reflexivity|].
  exists w0. exact Hbody.
Defined.

(* ===================================================================== *)
(** * What a pass fetches *)
(* ===================================================================== *)

Lemma parse_entries_target lines label page targets :
  Forall (λ e, Parser.target e ∈ upper <$> targets)
    (Parser.parse_entries lines label page targets).
Proof.
  unfold Parser.parse_entries. rewrite Forall_forall. intros e Hin.
  apply list_elem_of_bind in Hin as (raw_line & Hin & _).
  unfold Parser.parse_line in Hin.
  destruct (filter _ _) as [|t ts] eqn:Hf; [by apply elem_of_nil in Hin|].
  apply list_elem_of_fmap in Hin as (t' & -> & Hin). simpl.
  rewrite <-Hf in Hin. by apply list_elem_of_filter in Hin as [? _].
Qed.

Section Fetching.
Context (env : Env) (config : AppConfig).
Implicit Types (w : World).

Lemma fetch_pages_bounded remaining base_url label :
  ∀ (p : nat) seen entries w r w',
    fetch_pages env config remaining base_url label (Z.of_nat p)
      (seen, entries) w = (r, w') →
    ∃ n, (n ≤ remaining)%nat
         ∧ fetched w' = (fetched w ++ (url_of base_url <$> seq p n))%list
         ∧ ∀ seen' entries', r = Ok (seen', entries') →
             ∃ new, entries' = (entries ++ new)%list
                    ∧ Forall (λ e, Parser.label e = label
                                   ∧ Z.of_nat p ≤ Parser.page e < Z.of_nat (p + n)
                                   ∧ Parser.target e
                                     ∈ upper <$> target_ids (watch config)) new.
Proof.
  induction remaining as [|remaining IH]; intros p seen entries w r w' Hrun;
    simpl in Hrun.
  - unfold ret in Hrun. simplify_eq. exists O. split_and!; [done| |].
    + simpl. by rewrite app_nil_r.
    + intros ? ? [= <- <-]. exists []. by rewrite app_nil_r.
  - unfold bind, fetch in Hrun.
    destruct (site env _ _) as [result|e].
    + case_bool_decide.
      * unfold ret in Hrun. simplify_eq. exists 1%nat. split_and!; [lia|done|].
        intros ? ? [= <- <-]. exists []. by rewrite app_nil_r.
      * replace (Z.of_nat p + 1) with (Z.of_nat (S p)) in Hrun by lia.
        apply IH in Hrun as (n & Hn & Hfet & Hent).
        exists (S n). split_and!; [lia| |].
        -- rewrite Hfet. simpl. by rewrite <-app_assoc.
        -- intros seen' entries' ->.
           destruct (Hent _ _ eq_refl) as (new & -> & Hall).
           eexists. rewrite <-app_assoc. split; [done|].
           apply Forall_app. split.
           ++ pose proof (parse_entries_page
                            (extract_lines env (content result) (content_type result))
                            label (Z.of_nat p) (target_ids (watch config))) as H1.
              pose proof (parse_entries_target
                            (extract_lines env (content result) (content_type result))
                            label (Z.of_nat p) (target_ids (watch config))) as H2.
              rewrite Forall_forall in *. intros e He.
              destruct (H1 e He) as [-> ->]. split_and!; [done|lia|lia|by apply H2].
           ++ eapply Forall_impl; [exact Hall|]. simpl.
              intros e (? & ? & ?). split_and!; [done|lia|lia|done].
    + simplify_eq. exists 1%nat. split_and!; [lia|done|done].
Qed.

Lemma fetch_lists_bounded lists :
  ∀ seen entries w r w',
    fetch_lists env config lists (seen, entries) w = (r, w') →
    ∃ urls,
      fetched w' = (fetched w ++ urls)%list
      ∧ (length urls ≤ length lists * Z.to_nat (page_limit (watch config)))%nat
      ∧ Forall (λ u, ∃ base_url j,
                  base_url ∈ lists.*1
                  ∧ 0 ≤ j < page_limit (watch config)
                  ∧ u = page_url base_url j) urls
      ∧ ∀ seen' entries', r = Ok (seen', entries') →
          ∃ new, entries' = (entries ++ new)%list
                 ∧ Forall (λ e, Parser.label e ∈ lists.*2
                                ∧ 0 ≤ Parser.page e < page_limit (watch config)
                                ∧ Parser.target e
                                  ∈ upper <$> target_ids (watch config)) new.
Proof.
  induction lists as [|[base_url label] lists IH];
    intros seen entries w r w' Hrun; simpl in Hrun.
  - unfold ret in Hrun. simplify_eq. exists []. rewrite app_nil_r.
    split_and!; [done|simpl; lia|constructor|].
    intros ? ? [= <- <-]. exists []. by rewrite app_nil_r.
  - unfold bind in Hrun.
    destruct (fetch_pages _ _ _ _ _ _ _ _) as [r1 w1] eqn:H1.
    apply (fetch_pages_bounded _ _ _ 0%nat) in H1 as (n & Hn & Hfet1 & Hent1).
    assert (Hurls1 : Forall (λ u, ∃ b j, b ∈ ((base_url, label) :: lists).*1
                               ∧ 0 ≤ j < page_limit (watch config)
                               ∧ u = page_url b j)
                       (url_of base_url <$> seq 0 n)).
    { rewrite Forall_forall. intros u (j & -> & Hj%elem_of_seq)%list_elem_of_fmap.
      exists base_url, (Z.of_nat j). split_and!; [left|lia|lia|done]. }
    destruct r1 as [[seen1 entries1]|e].
    + destruct (Hent1 _ _ eq_refl) as (new1 & -> & Hall1).
      apply IH in Hrun as (urls & Hfet & Hlen & Hurls & Hent).
      exists ((url_of base_url <$> seq 0 n) ++ urls)%list. split_and!.
      * by rewrite Hfet, Hfet1, app_assoc.
      * rewrite length_app, length_fmap, length_seq. simpl. lia.
      * apply Forall_app. split; [done|].
        eapply Forall_impl; [exact Hurls|]. simpl.
        intros u (b & j & ? & ? & ?). exists b, j. split_and!; [by right|lia|lia|done].
      * intros seen' entries' ->.
        destruct (Hent _ _ eq_refl) as (new & -> & Hall).
        exists (new1 ++ new)%list. rewrite app_assoc. split; [done|].
        apply Forall_app. split.
        -- eapply Forall_impl; [exact Hall1|]. simpl.
           intros e (-> & ? & ?). split_and!; [left|lia|lia|done].
        -- eapply Forall_impl; [exact Hall|]. simpl.
           intros e (? & ? & ?). split_and!; [by right|lia|lia|done].
    + simplify_eq. exists (url_of base_url <$> seq 0 n). split_and!; [done| |done|done].
      rewrite length_fmap, length_seq. simpl. lia.
Qed.

Lemma paired_from_spec urls :
  ∀ index,
    (paired_from config index urls).*1 = urls
    ∧ ∀ i url, urls !! i = Some url →
        paired_from config index urls !! i
        = Some (url, default ("Liste " +:+ pretty (index + i)%nat)
                       (list_labels (watch config) !! (index + i)%nat)).
Proof.
  induction urls as [|u urls IH]; intros index; simpl; [done|].
  destruct (IH (S index)) as [Hfst Hlook]. split; [f_equal; exact Hfst|].
  intros [|i] url Hi; simpl in *.
  - simplify_eq. by rewrite Nat.add_0_r.
  - rewrite (Hlook _ _ Hi). by rewrite Nat.add_succ_r.
Qed.

Lemma paired_labels_urls :
  (paired_labels config).*1 = list_urls (watch config)
  ∧ length (paired_labels config) = length (list_urls (watch config)).
Proof.
  unfold paired_labels.
  destruct (paired_from_spec (list_urls (watch config)) 0) as [Hfst _].
  split; [done|]. by rewrite <-Hfst at 2; rewrite length_fmap.
Qed.

(** X14: the lists of a pass are the configured URLs in their order, the
    i-th under the i-th configured label, or under "Liste i" when there
    are fewer labels than URLs; labels beyond the URLs are not used. *)
Theorem paired_labels_spec :
  (paired_labels config).*1 = list_urls (watch config)
  ∧ length (paired_labels config) = length (list_urls (watch config))
  ∧ ∀ i url, list_urls (watch config) !! i = Some url →
      paired_labels config !! i
      = Some (url, default ("Liste " +:+ pretty i)
                     (list_labels (watch config) !! i)).
Proof.
  destruct paired_labels_urls as [Hfst Hlen]. split_and!; [done|done|].
  unfold paired_labels.
  by destruct (paired_from_spec (list_urls (watch config)) 0) as [_ Hlook].
Qed.

(** X15: whatever its outcome, the pagination of a pass fetches only
    pages of the configured lists with an index from 0 below the page
    ceiling, at most ceiling times lists of them (none when the ceiling is
    zero or negative), and touches neither the state, the state file nor
    the webhook; the records it hands on bear the label of a list, a page
    index below the ceiling and a configured target in upper case. *)
Theorem fetch_lists_fetches w r w' :
  fetch_lists env config (paired_labels config) (∅, []) w = (r, w') →
  (∃ urls,
     fetched w' = (fetched w ++ urls)%list
     ∧ (length urls
        ≤ length (list_urls (watch config))
          * Z.to_nat (page_limit (watch config)))%nat
     ∧ Forall (λ u, ∃ base_url j,
                 base_url ∈ list_urls (watch config)
                 ∧ 0 ≤ j < page_limit (watch config)
                 ∧ u = page_url base_url j) urls)
  ∧ state w' = state w ∧ file w' = file w ∧ posted w' = posted w
  ∧ ∀ seen entries, r = Ok (seen, entries) →
      Forall (λ e, Parser.label e ∈ (paired_labels config).*2
                   ∧ 0 ≤ Parser.page e < page_limit (watch config)
                   ∧ Parser.target e ∈ upper <$> target_ids (watch config))
        entries.
Proof.
  intros Hrun.
  destruct paired_labels_urls as (Hfst & Hlen).
  pose proof (fetch_lists_frame env config _ _ _ _ _ Hrun) as (? & ? & ? & ?).
  apply fetch_lists_bounded in Hrun as (urls & Hfet & Hl & Hurls & Hent).
  rewrite Hfst, Hlen in *.
  split_and!; [by exists urls|done|done|done|].
  intros seen entries ->. destruct (Hent _ _ eq_refl) as (new & -> & Hall).
  done.
Qed.

End Fetching.

Lemma paired_labels_spec_witness :
  paired_labels Cases.config_two_lists
  = [("https://intranet/liste/", "L"); ("https://intranet/autre", "Liste 1")].
Proof.
  destruct (paired_labels_spec Cases.config_two_lists) as (_ & Hlen & Hlook).
  pose proof (Hlook 0%nat "https://intranet/liste/" eq_refl) as H0.
  pose proof (Hlook 1%nat "https://intranet/autre" eq_refl) as H1.
  destruct (paired_labels Cases.config_two_lists) as [|x [|y [|z l]]];
    simpl in *; try discriminate.
  by injection H0 as ->; injection H1 as ->.
Defined.

Lemma fetch_lists_fetches_witness :
  ∃ urls,
    fetched (fetch_lists (Sample.env 204) Sample.config
               (paired_labels Sample.config) (∅, []) Sample.w_start).2
    = (fetched Sample.w_start ++ urls)%list
    ∧ (length urls ≤ 1 * 20)%nat.
Proof.
  destruct (fetch_lists_fetches (Sample.env 204) Sample.config Sample.w_start
              (fetch_lists (Sample.env 204) Sample.config
                 (paired_labels Sample.config) (∅, []) Sample.w_start).1
              (fetch_lists (Sample.env 204) Sample.config
                 (paired_labels Sample.config) (∅, []) Sample.w_start).2)
    as ((urls & Hfet & Hlen & _) & _); [apply surjective_pairing|].
  exists urls. split; [exact Hfet | exact Hlen].
Defined.

(* ===================================================================== *)
(** * The state and its document *)
(* ===================================================================== *)

Section Persistence.
Context (env : Env).
Implicit Types (w : World).

(** X17: what [save_state] writes, [load_state] reads back as the very
    state it was written from, without raising; only the clock has been
    read in between. *)
Theorem save_load_round_trip w :
  ∃ k,
    (save_state >> load_state env) w = (Ok (state w), bump k (flushed w))
    ∧ (save_state >> init env) w = (Ok tt, bump k (flushed w)).
Proof.
  destruct (load_state_flushed env w) as (k & Hload). exists k.
  unfold bind, save_state. fold (flushed w). rewrite Hload. split; [done|].
  unfold init, bind, modify_state. by rewrite Hload.
Qed.

(** X18: recording a record writes its position under its label and
    target, stamped with the reading of the clock, and leaves every other
    position, of the same list or of another, and every alert record as
    it was. *)
Theorem record_entry_lookup (entry : Parser.Entry) w :
  ∃ w',
    record_entry env entry w = (Ok tt, w')
    ∧ State.best_previous (state w') (Parser.label entry) (Parser.target entry)
      = Some (State.mkEntryState (Parser.rank entry) (Parser.page entry)
                (Parser.shift entry) (Parser.date entry) (Parser.raw entry)
                (clock env (reads w)))
    ∧ (∀ label target,
         (label, target) ≠ (Parser.label entry, Parser.target entry) →
         State.best_previous (state w') label target
         = State.best_previous (state w) label target)
    ∧ State.alerts (state w') = State.alerts (state w)
    ∧ file w' = file w.
Proof.
  eexists. rewrite record_entry_run. split; [done|]. simpl.
  split_and!; [apply best_previous_set_eq| |done|done].
  intros label target Hne. apply best_previous_set_ne. congruence.
Qed.

End Persistence.

Lemma key_le_total {V : Type} : Total (@State.key_le V).
Proof. intros a b. apply String.leb_total. Qed.

(** X19: the document written for a state lists the labels in the order of
    their text, each once, under each label its targets in order, each
    once, and the alert keys likewise; it holds a position for exactly the
    pairs that have one in the state, and an alert record for exactly the
    keys that have one. *)
Theorem payload_of_document (s : State.State) :
  ∃ items alerts,
    State.payload_of s = State.mkPayload (Some items) (Some alerts)
    ∧ Sorted State.key_le items ∧ NoDup items.*1
    ∧ Sorted State.key_le alerts ∧ NoDup alerts.*1
    ∧ Forall (λ it, Sorted State.key_le it.2 ∧ NoDup it.2.*1) items
    ∧ (∀ label target es,
         State.best_previous s label target = Some es ↔
         ∃ targets, (label, targets) ∈ items
                    ∧ (target, State.entry_dict es) ∈ targets)
    ∧ (∀ key a,
         State.alerts s !! key = Some a ↔ (key, State.alert_dict a) ∈ alerts).
Proof.
  eexists _, _. split; [reflexivity|].
  split_and!;
    try (apply Sorted_merge_sort, key_le_total); try apply sorted_items_NoDup.
  - rewrite Forall_forall. intros [label targets] Hin. simpl.
    apply sorted_items_elem in Hin. rewrite lookup_fmap in Hin.
    destruct (State.entries s !! label) as [g|]; [|done]. simpl in Hin.
    injection Hin as <-.
    split; [apply Sorted_merge_sort, key_le_total | apply sorted_items_NoDup].
  - intros label target es. unfold State.best_previous. split.
    + destruct (State.entries s !! label) as [g|] eqn:Hg; simpl; [|done].
      intros Hes. eexists. split.
      * apply sorted_items_elem. by rewrite lookup_fmap, Hg.
      * apply sorted_items_elem. by rewrite lookup_fmap, Hes.
    + intros (targets & Hin & Hin2).
      apply sorted_items_elem in Hin. rewrite lookup_fmap in Hin.
      destruct (State.entries s !! label) as [g|]; [|done]. simpl in *.
      injection Hin as <-. apply sorted_items_elem in Hin2.
      rewrite lookup_fmap in Hin2.
      destruct (g !! target) as [es'|]; [|done].
      destruct es, es'. unfold State.entry_dict in Hin2. simpl in Hin2.
      by simplify_eq.
  - intros key a. rewrite sorted_items_elem, lookup_fmap.
    destruct (State.alerts s !! key) as [a'|]; simpl; [|done].
    split; [by intros [= ->]|]. destruct a, a'. unfold State.alert_dict. simpl.
    intros ?. by simplify_eq.
Qed.

(* ===================================================================== *)
(** * What the parser makes of a line *)
(* ===================================================================== *)

Section Parsing.
Import Re Parser.

Lemma chars_text (l : list ascii) : chars (text l) = l.
Proof. apply String.list_ascii_of_string_of_list_ascii. Qed.

Lemma findall_from_elem r s fuel : ∀ pos x,
  x ∈ findall_from r s fuel pos →
  ∃ m, match_at r s (m_start m) = Some (m_end m, m_groups m)
       ∧ x = from_option id [] (group s m 1).
Proof.
  induction fuel as [|fuel IH]; intros pos x; simpl; [by intros ?%elem_of_nil|].
  destruct (search_from r s (length s - pos) pos) as [m|] eqn:Hs;
    [|by intros ?%elem_of_nil].
  intros [->|Hin]%elem_of_cons; [|by eapply IH].
  exists m. split; [by eapply search_from_match|done].
Qed.

Lemma slice_5 (s : list ascii) p a0 a1 a2 a3 a4 :
  s !! p = Some a0 → s !! S p = Some a1 → s !! S (S p) = Some a2 →
  s !! S (S (S p)) = Some a3 → s !! S (S (S (S p))) = Some a4 →
  slice s p (5 + p) = [a0; a1; a2; a3; a4].
Proof.
  intros H0 H1 H2 H3 H4. unfold slice.
  replace (5 + p - p)%nat with 5%nat by lia.
  rewrite (drop_S _ _ _ H0), (drop_S _ _ _ H1), (drop_S _ _ _ H2),
    (drop_S _ _ _ H3), (drop_S _ _ _ H4). reflexivity.
Qed.

Lemma matricule_token_shape s pos e caps :
  match_at MATRICULE_REGEX s pos = Some (e, caps) →
  at_boundary s pos = true ∧ at_boundary s (5 + pos) = true
  ∧ ∃ a0 a1 a2 a3 a4,
      from_option (λ sp, slice s sp.1 sp.2) [] (group_span caps 1)
      = [a0; a1; a2; a3; a4]
      ∧ slice s pos (5 + pos) = [a0; a1; a2; a3; a4]
      ∧ is_upper_AZ a0 = true ∧ is_digit a1 = true ∧ is_digit a2 = true
      ∧ is_digit a3 = true ∧ is_digit a4 = true.
Proof.
  unfold match_at, MATRICULE_REGEX. intros H. simpl in H.
  unfold times in H. simpl in H.
  repeat (case_match; simplify_eq; try done).
  split_and!; [done|done|]. simpl.
  eexists _, _, _, _, _.
  split_and!; [by eapply (slice_5 s pos)|by eapply (slice_5 s pos)|..];
    eassumption.
Qed.

Lemma upper_char_not_lower a :
  is_upper_AZ a = true ∨ is_digit a = true → upper_char a = a.
Proof.
  unfold upper_char, is_upper_AZ, is_digit, between.
  intros H. case_match eqn:Hl; [exfalso|done].
  apply andb_true_iff in Hl as [Hl1%N.leb_le Hl2%N.leb_le].
  destruct H as [H|H]; apply andb_true_iff in H as [H1%N.leb_le H2%N.leb_le]; lia.
Qed.

(** X20: every record [parse_entries] returns comes from one of the lines,
    whose text with its runs of white space made single spaces is the
    record's [raw]; rank, shift and date are read from that text alone,
    so that two targets named on one line share them; the target is one
    of the configured identifiers in capitals, it is a capital letter A-Z
    followed by four digits, and it stands in the line exactly as the
    record has it, between two word boundaries. *)
Theorem parse_entries_records lines label page targets :
  Forall (λ e,
    (∃ raw_line, raw_line ∈ lines
                 ∧ raw e = text (join_sp (split_ws (chars raw_line))))
    ∧ Parser.label e = label ∧ Parser.page e = page
    ∧ rank e = _extract_rank (chars (raw e))
    ∧ shift e = _extract_shift (chars (raw e))
    ∧ date e = _extract_date (chars (raw e))
    ∧ target e ∈ upper <$> targets
    ∧ (∃ a0 a1 a2 a3 a4,
         chars (target e) = [a0; a1; a2; a3; a4]
         ∧ is_upper_AZ a0 = true ∧ is_digit a1 = true ∧ is_digit a2 = true
         ∧ is_digit a3 = true ∧ is_digit a4 = true)
    ∧ (∃ pos, slice (chars (raw e)) pos (5 + pos) = chars (target e)
              ∧ at_boundary (chars (raw e)) pos = true
              ∧ at_boundary (chars (raw e)) (5 + pos) = true))
    (parse_entries lines label page targets).
Proof.
  unfold parse_entries. rewrite Forall_forall. intros e Hin.
  apply list_elem_of_bind in Hin as (raw_line & Hin & Hline).
  unfold parse_line in Hin.
  destruct (filter _ _) as [|t0 ts] eqn:Hf; [by apply elem_of_nil in Hin|].
  apply list_elem_of_fmap in Hin as (t & -> & Hin). simpl.
  rewrite <-Hf in Hin. apply list_elem_of_filter in Hin as [Hup Hin].
  apply findall_from_elem in Hin as (m & Hm & Ht).
  apply matricule_token_shape in Hm
    as (Hb1 & Hb2 & a0 & a1 & a2 & a3 & a4 & Hg & Hs & H0 & H1 & H2 & H3 & H4).
  unfold group in Ht.
  assert (Ht' : t = [a0; a1; a2; a3; a4]).
  { rewrite Ht. destruct (group_span (m_groups m) 1); done. }
  assert (Hupper : upper (text t) = text t).
  { unfold upper. rewrite chars_text, Ht'. simpl.
    by rewrite !upper_char_not_lower by auto. }
  rewrite Hupper in *. rewrite !chars_text.
  split_and!; try done; [by exists raw_line| |].
  - exists a0, a1, a2, a3, a4. by rewrite Ht'.
  - exists (m_start m). by rewrite Ht'.
Qed.

Lemma slice_digits (s : list ascii) p n :
  ∀ l, length l = n → (∀ i a, l !! i = Some a → s !! (i + p)%nat = Some a) →
       slice s p (n + p) = l.
Proof.
  intros l Hlen Hl. unfold slice. replace (n + p - p)%nat with n by lia.
  apply list_eq. intros i. destruct (decide (i < n)%nat) as [Hi|Hi].
  - rewrite lookup_take_lt by done. rewrite lookup_drop.
    destruct (l !! i) as [a|] eqn:Ha.
    + rewrite <-(Hl i a Ha). f_equal. lia.
    + apply lookup_ge_None in Ha. lia.
  - rewrite lookup_take_ge by lia. symmetry. apply lookup_ge_None. lia.
Qed.

Lemma rank_token_shape s pos e caps :
  match_at RANK_REGEX s pos = Some (e, caps) →
  ∃ l, from_option (λ sp, slice s sp.1 sp.2) [] (group_span caps 1) = l
       ∧ (length l ≤ 3)%nat ∧ Forall (λ a, is_digit a = true) l.
Proof.
  unfold match_at, RANK_REGEX. intros H. simpl in H.
  repeat (case_match; simplify_eq; try done); simpl;
    match goal with
    | Ha : s !! pos = Some ?a, Hb : s !! S pos = Some ?b,
      Hc : s !! S (S pos) = Some ?c
      |- ∃ l, slice s pos (S (S (S pos))) = l ∧ _ =>
        exists [a; b; c]; split; [apply (slice_digits s pos 3); [done|]|]
    | Ha : s !! pos = Some ?a, Hb : s !! S pos = Some ?b
      |- ∃ l, slice s pos (S (S pos)) = l ∧ _ =>
        exists [a; b]; split; [apply (slice_digits s pos 2); [done|]|]
    | Ha : s !! pos = Some ?a |- ∃ l, slice s pos (S pos) = l ∧ _ =>
        exists [a]; split; [apply (slice_digits s pos 1); [done|]|]
    end;
    try (split; [simpl; lia|by repeat constructor]);
    intros [|[|[|?]]] ?; simpl; intros; simplify_eq; done.
Qed.

Lemma digit_value_range a : is_digit a = true → 0 ≤ digit_value a ≤ 9.
Proof.
  unfold is_digit, between, digit_value.
  intros [H1%N.leb_le H2%N.leb_le]%andb_true_iff. lia.
Qed.

Lemma int_of_digits_range l :
  (length l ≤ 3)%nat → Forall (λ a, is_digit a = true) l →
  0 ≤ int_of_digits l ≤ 999.
Proof.
  intros Hlen Hall. unfold int_of_digits.
  destruct l as [|a [|b [|c [|x l]]]]; simpl in *; try lia;
    repeat match goal with
           | H : Forall _ (_ :: _) |- _ =>
               apply Forall_cons in H as [?%digit_value_range H]
           end; lia.
Qed.

(** X21: the rank read from a line is 9999 or lies between 1 and 999,
    whatever the line. *)
Theorem _extract_rank_range (line : list ascii) :
  _extract_rank line = 9999 ∨ 1 ≤ _extract_rank line ≤ 999.
Proof.
  unfold _extract_rank.
  destruct (filter _ _) as [|v vs] eqn:Hf; simpl; [by left|right].
  assert (Hin : v ∈ filter (λ v, 0 < v)
                      (int_of_digits <$> findall RANK_REGEX line))
    by (rewrite Hf; left).
  apply list_elem_of_filter in Hin as [Hpos Hin].
  apply list_elem_of_fmap in Hin as (t & -> & Hin).
  apply findall_from_elem in Hin as (m & Hm & ->).
  apply rank_token_shape in Hm as (l & Hl & Hlen & Hall).
  unfold group in *. simpl in *.
  assert (Heq : from_option id []
                  ((λ sp, slice line sp.1 sp.2) <$> group_span (m_groups m) 1)
                = l).
  { rewrite <-Hl. by destruct (group_span (m_groups m) 1). }
  rewrite Heq in *. pose proof (int_of_digits_range l Hlen Hall). lia.
Qed.

(** X22: the date read from a line, when there is one, is the first date
    token of the line as it stands there when the token has a dash or is
    not a day of the calendar read day first, and otherwise the
    year-month-day form of that day; there is none exactly when the line
    has no date token. *)
Theorem _extract_date_forms (line : list ascii) :
  match _extract_date line with
  | None => search DATE_REGEX line = None
  | Some s =>
      ∃ m, search DATE_REGEX line = Some m
           ∧ (s = text (slice line (m_start m) (m_end m))
              ∧ ("-"%char ∈ slice line (m_start m) (m_end m)
                 ∨ strptime (slice line (m_start m) (m_end m))
                     pct_d pct_m pct_Y = None)
              ∨ ∃ dt, strptime (slice line (m_start m) (m_end m))
                        pct_d pct_m pct_Y = Some dt
                      ∧ valid_date dt = true
                      ∧ ("-"%char ∉ slice line (m_start m) (m_end m))
                      ∧ s = text (strftime_ymd dt))
  end.
Proof.
  unfold _extract_date.
  destruct (search DATE_REGEX line) as [m|] eqn:Hs; [|done].
  pose proof (search_from_match _ _ _ _ _ Hs) as Hm.
  apply date_token_shape in Hm as [Hg _].
  assert (Hv : from_option id [] (group line m 1)
               = slice line (m_start m) (m_end m)).
  { unfold group. by rewrite Hg. }
  case_bool_decide as Hdash.
  - exists m. split; [done|]. left. rewrite <-Hv. auto.
  - exists m. split; [done|].
    pose proof (year_first_format_unreachable line m Hs Hdash) as Hyf.
    unfold _normalise_date. rewrite Hyf. rewrite Hv in *.
    destruct (strptime _ pct_d pct_m pct_Y) as [dt|] eqn:Hp.
    + right. exists dt. split_and!; try done.
      unfold strptime in Hp. repeat case_match; simplify_eq. done.
    + left. auto.
Qed.

End Parsing.

(* ===================================================================== *)
(** * The retries of a fetch *)
(* ===================================================================== *)

Section Retries.
Import Http.
Context (srv : Server) (max_retries : Z) (url : string).
Implicit Types (s : Session).

Lemma handlers_transient answer :
  transient answer ↔ handlers (try_get answer) = Retry.
Proof.
  unfold transient, handlers, try_get.
  destruct answer as [response|[status| | | | | | | | | | | | |]]; simpl;
    repeat case_match; simplify_eq; split; intros; simplify_eq; try done;
    bools; lia.
Qed.

Lemma handlers_final answer :
  ¬ transient answer →
  handlers (try_get answer)
  = match final answer with Ok result => Return result | Raise e => Reraise e end
  ∧ final answer ≠ Raise Timeout ∧ final answer ≠ Raise ConnectionError
  ∧ (∀ status, final answer = Raise (HTTPError status) →
       400 ≤ status < 500 ∧ status ≠ 429)
  ∧ (∀ result, final answer = Ok result →
       answer = Ok result ∧ status_code result < 400).
Proof.
  unfold transient, handlers, try_get, final.
  destruct answer as [response|[status| | | | | | | | | | | | |]]; simpl; intros Hnt;
    repeat case_match; simplify_eq; split_and!; intros; simplify_eq;
    try done; bools; try lia; try (split; [done|lia]).
Qed.

Lemma fetch_loop_runs : ∀ todo attempt backoff s r s',
  (0 < todo)%nat → attempt + Z.of_nat todo = max_retries + 1 →
  fetch_loop srv max_retries url todo attempt backoff s = (r, s') →
  ∃ k, (k < todo)%nat
       ∧ requested s' = (requested s ++ replicate (S k) url)%list
       ∧ slept s' = (slept s ++ seq backoff k)%list
       ∧ (∀ i, (i < k)%nat →
            transient (get srv (length (requested s) + i) url))
       ∧ ((transient (get srv (length (requested s) + k) url)
           ∧ S k = todo ∧ r = Raise RuntimeError)
          ∨ (¬ transient (get srv (length (requested s) + k) url)
             ∧ r = final (get srv (length (requested s) + k) url))).
Proof.
  induction todo as [|todo IH]; intros attempt backoff s r s' Hpos Hinv; [lia|].
  simpl.
  destruct (decide (transient (get srv (length (requested s)) url))) as [Ht|Ht].
  - rewrite (proj1 (handlers_transient _) Ht).
    destruct (Z.eqb_spec attempt max_retries) as [->|Hne].
    + intros [= <- <-]. exists 0%nat. simpl.
      rewrite Nat.add_0_r. split_and!; [lia|done|by rewrite app_nil_r|lia|].
      left. split_and!; [done|lia|done].
    + intros Hrun. apply IH in Hrun as (k & Hk & Hreq & Hsl & Hbefore & Hend);
        [|lia|lia].
      simpl in *. rewrite length_app in *. simpl in *.
      exists (S k). split_and!; [lia| | | |].
      * rewrite Hreq, <-app_assoc. done.
      * rewrite Hsl, <-app_assoc. done.
      * intros [|i] Hi; [by rewrite Nat.add_0_r|].
        replace (length (requested s) + S i)%nat
          with (length (requested s) + 1 + i)%nat by lia.
        apply Hbefore. lia.
      * replace (length (requested s) + S k)%nat
          with (length (requested s) + 1 + k)%nat by lia.
        destruct Hend as [(? & ? & ?)|?]; [left|right]; [split_and!|]; try done.
        lia.
  - destruct (handlers_final _ Ht) as (Hh & _). rewrite Hh.
    intros Hrun. exists 0%nat. rewrite Nat.add_0_r. simpl.
    assert (r = final (get srv (length (requested s)) url)
            ∧ s' = mkSession (requested s ++ [url]) (slept s)) as [-> ->].
    { destruct (final _); by simplify_eq. }
    simpl. split_and!; [lia|done|by rewrite app_nil_r|lia|]. right. done.
Qed.



(** X25: whatever the server does, a fetch asks for its URL at most
    [max_retries] times and naps only between two requests; it never
    raises Timeout or ConnectionError, raises HTTPError only with a status
    from 400 to 499 other than 429, returns only a response of a status
    below 400, the one of its last request, and with [max_retries] zero
    or negative it raises a RuntimeError without any request. *)
Theorem fetch_outcomes s r s' :
  fetch srv max_retries url s = (r, s') →
  (∃ k, Z.of_nat k ≤ Z.max 0 max_retries
        ∧ requested s' = (requested s ++ replicate k url)%list
        ∧ slept s' = (slept s ++ seq 0 (k - 1))%list
        ∧ ∀ result, r = Ok result →
            (0 < k)%nat
            ∧ get srv (length (requested s) + (k - 1)) url = Ok result
            ∧ status_code result < 400)
  ∧ r ≠ Raise Timeout ∧ r ≠ Raise ConnectionError
  ∧ (∀ status, r = Raise (HTTPError status) →
       400 ≤ status < 500 ∧ status ≠ 429)
  ∧ (max_retries ≤ 0 → r = Raise RuntimeError ∧ s' = s).
Proof.
  unfold fetch. intros Hrun.
  destruct (Z.to_nat max_retries) as [|todo] eqn:Htodo.
  - simpl in Hrun. injection Hrun as <- <-.
    split_and!; try done. exists 0%nat. simpl. rewrite !app_nil_r.
    split_and!; [lia|done|done|done].
  - apply fetch_loop_runs in Hrun as (k & Hk & Hreq & Hsl & _ & Hend);
      [|lia|lia].
    assert (Hr : r = Raise RuntimeError
                 ∨ ¬ transient (get srv (length (requested s) + k) url)
                   ∧ r = final (get srv (length (requested s) + k) url)).
    { destruct Hend as [(_ & _ & ->)|[? ->]]; auto. }
    split_and!.
    + exists (S k). simpl. rewrite Nat.sub_0_r.
      split_and!; [lia|done|done|].
      intros result ->. destruct Hr as [|[Hnt Hr]]; [done|].
      apply handlers_final in Hnt as (_ & _ & _ & _ & Hok).
      symmetry in Hr. apply Hok in Hr as [? ?]. split_and!; [lia|done|done].
    + destruct Hr as [->|[Hnt ->]]; [done|].
      by apply handlers_final in Hnt as (_ & ? & _).
    + destruct Hr as [->|[Hnt ->]]; [done|].
      by apply handlers_final in Hnt as (_ & _ & ? & _).
    + intros status ->. destruct Hr as [|[Hnt Hr]]; [done|].
      apply handlers_final in Hnt as (_ & _ & _ & Hst & _). by apply Hst.
    + lia.
Qed.

End Retries.



Lemma fetch_outcomes_witness :
  (Http.fetch Cases.server_flaky 2 "https://intranet/liste/0"
     Cases.session_start).1 ≠ Raise Timeout.
Proof.
  destruct (fetch_outcomes Cases.server_flaky 2 "https://intranet/liste/0"
              Cases.session_start
              (Http.fetch Cases.server_flaky 2 "https://intranet/liste/0"
                 Cases.session_start).1
              (Http.fetch Cases.server_flaky 2 "https://intranet/liste/0"
                 Cases.session_start).2) as (_ & H & _);
    [apply surjective_pairing|exact H].
Defined.

(* ===================================================================== *)
(** * The lists of the configuration *)
(* ===================================================================== *)

Section Lists.
Import Config.

Lemma is_char_refl c : is_char c c = true.
Proof. unfold is_char. apply N.eqb_refl. Qed.

Lemma drop_while_head p l a :
  head (drop_while p l) = Some a → p a = false.
Proof.
  induction l as [|b l IH]; simpl; [done|].
  destruct (p b) eqn:Hb; [done|]. simpl. by intros [= <-].
Qed.

Lemma drop_while_id p l :
  (∀ a, head l = Some a → p a = false) → drop_while p l = l.
Proof. destruct l as [|b l]; simpl; [done|]. intros H. by rewrite (H b). Qed.

Lemma drop_while_suffix p l : ∃ k, l = (k ++ drop_while p l)%list.
Proof.
  induction l as [|b l [k IH]]; simpl; [by exists []|].
  destruct (p b); [|by exists []]. exists (b :: k). simpl. by f_equal.
Qed.

Lemma head_reverse {A} (l : list A) : head (reverse l) = last l.
Proof.
  induction l as [|a l IH] using rev_ind; [done|].
  by rewrite reverse_app, last_snoc.
Qed.

Lemma last_suffix {A} (k l : list A) : l ≠ [] → last (k ++ l) = last l.
Proof.
  intros Hne. destruct l as [|a l _] using rev_ind; [done|].
  by rewrite app_assoc, !last_snoc.
Qed.

Lemma text_chars (s : string) : text (chars s) = s.
Proof. apply String.string_of_list_ascii_of_string. Qed.

Lemma strip_spec (s : string) :
  ∃ k1 k2, chars s = (k1 ++ chars (strip s) ++ k2)%list
           ∧ (∀ a, head (chars (strip s)) = Some a → is_space a = false)
           ∧ (∀ a, last (chars (strip s)) = Some a → is_space a = false).
Proof.
  unfold strip, lstrip.
  destruct (drop_while_suffix is_space (chars s)) as [k1 Hk1].
  set (y := drop_while is_space (chars s)) in *.
  destruct (drop_while_suffix is_space (reverse y)) as [k2 Hk2].
  set (z := drop_while is_space (reverse y)) in *.
  unfold chars at 2 3 4, text. rewrite String.list_ascii_of_string_of_list_ascii.
  exists k1, (reverse k2). split_and!.
  - rewrite Hk1 at 1. f_equal. rewrite <-reverse_app, <-Hk2.
    by rewrite reverse_involutive.
  - intros a Ha. rewrite head_reverse in Ha.
    destruct (decide (z = [])) as [Hz|Hz]; [by rewrite Hz in Ha|].
    rewrite <-(last_suffix k2 z Hz), <-Hk2, <-head_reverse in Ha.
    rewrite reverse_involutive in Ha. by eapply drop_while_head.
  - intros a Ha. rewrite <-head_reverse, reverse_involutive in Ha.
    by eapply drop_while_head.
Qed.

Lemma strip_id (s : string) :
  (∀ a, head (chars s) = Some a → is_space a = false) →
  (∀ a, last (chars s) = Some a → is_space a = false) →
  strip s = s.
Proof.
  intros Hh Hl. unfold strip, lstrip.
  rewrite (drop_while_id _ (chars s)) by done.
  rewrite drop_while_id; [by rewrite reverse_involutive, text_chars|].
  intros a. rewrite head_reverse. apply Hl.
Qed.

Lemma strip_strip (s : string) : strip (strip s) = strip s.
Proof.
  destruct (strip_spec s) as (k1 & k2 & _ & Hh & Hl). by apply strip_id.
Qed.

Lemma split_comma_go_pieces l : ∀ cur,
  ","%char ∉ cur → Forall (λ p, ","%char ∉ p) (split_comma_go cur l).
Proof.
  induction l as [|a l IH]; intros cur Hcur; simpl.
  - repeat constructor. by rewrite elem_of_reverse.
  - destruct (is_char "," a) eqn:Ha.
    + constructor; [by rewrite elem_of_reverse|]. apply IH. by intros ?%elem_of_nil.
    + apply IH. intros [Heq|?]%elem_of_cons; [|done].
      by rewrite <-Heq, is_char_refl in Ha.
Qed.

(** X26: every item that [_split_csv] reads from a value is a part of the
    value between two commas without the white space around it: it is
    not empty, has no comma, and neither starts nor ends with white
    space; a missing or empty value gives no item. *)
Theorem _split_csv_items (value : option string) :
  Forall (λ item, item ≠ "" ∧ (","%char ∉ chars item) ∧ strip item = item
                  ∧ ∃ part, part ∈ from_option split_comma [] value
                            ∧ item = strip part)
    (_split_csv value)
  ∧ (value = None ∨ value = Some "" → _split_csv value = []).
Proof.
  split; [|by intros [->| ->]].
  destruct value as [value|]; simpl; [|done].
  case_decide; [done|]. rewrite Forall_forall. intros item Hin.
  apply list_elem_of_bind in Hin as (part & Hitem & Hpart).
  case_decide as Hne; [by apply elem_of_nil in Hitem|].
  apply list_elem_of_singleton in Hitem as ->.
  split_and!; [done| |apply strip_strip|by exists part].
  unfold split_comma in Hpart.
  apply list_elem_of_fmap in Hpart as (p & -> & Hp).
  pose proof (split_comma_go_pieces (chars value) [] (not_elem_of_nil _)) as Hall.
  rewrite Forall_forall in Hall. apply Hall in Hp.
  destruct (strip_spec (text p)) as (k1 & k2 & Heq & _).
  rewrite chars_text in Heq. intros Hc. apply Hp. rewrite Heq.
  rewrite !elem_of_app. auto.
Qed.

Lemma split_comma_go_app item rest : ∀ cur,
  ","%char ∉ item →
  split_comma_go cur (item ++ ","%char :: rest)
  = (reverse cur ++ item)%list :: split_comma_go [] rest.
Proof.
  induction item as [|a item IH]; intros cur Hc; simpl.
  - by rewrite app_nil_r.
  - destruct (is_char "," a) eqn:Ha.
    + apply is_char_eq in Ha as ->. destruct Hc. left.
    + rewrite IH by (intros ?; apply Hc; by right).
      by rewrite reverse_cons, <-app_assoc.
Qed.

Lemma split_comma_go_last item : ∀ cur,
  ","%char ∉ item →
  split_comma_go cur item = [(reverse cur ++ item)%list].
Proof.
  induction item as [|a item IH]; intros cur Hc; simpl.
  - by rewrite app_nil_r.
  - destruct (is_char "," a) eqn:Ha.
    + apply is_char_eq in Ha as ->. destruct Hc. left.
    + rewrite IH by (intros ?; apply Hc; by right).
      by rewrite reverse_cons, <-app_assoc.
Qed.

Lemma chars_app (s1 s2 : string) : chars (s1 +:+ s2) = (chars s1 ++ chars s2)%list.
Proof. induction s1 as [|a s1 IH]; simpl; [done|]. by f_equal. Qed.

Lemma split_comma_join item items :
  Forall (λ item, ","%char ∉ chars item) (item :: items) →
  split_comma (join_comma (item :: items)) = item :: items.
Proof.
  unfold split_comma. revert item.
  induction items as [|item' items IH]; intros item Hall.
  - simpl. apply Forall_cons in Hall as [Hc _].
    rewrite split_comma_go_last by done. simpl. by rewrite text_chars.
  - apply Forall_cons in Hall as [Hc Hall].
    change (join_comma (item :: item' :: items))
      with (item +:+ "," +:+ join_comma (item' :: items)).
    rewrite !chars_app. simpl (chars ","). simpl app at 2.
    rewrite split_comma_go_app by done. rewrite fmap_cons. simpl reverse.
    simpl app. rewrite text_chars. f_equal. by apply IH.
Qed.

(** X27: a list of items that are not empty, have no comma and neither
    start nor end with white space is read back by [_split_csv], in its
    order and with its repetitions, from the items joined by commas. *)
Theorem _split_csv_join (items : list string) :
  Forall (λ item, item ≠ "" ∧ (","%char ∉ chars item) ∧ strip item = item) items →
  _split_csv (Some (join_comma items)) = items.
Proof.
  intros Hall. destruct items as [|item items]; [done|].
  unfold _split_csv.
  assert (Hsplit : split_comma (join_comma (item :: items)) = item :: items).
  { apply split_comma_join. eapply Forall_impl; [exact Hall|]. by intros ? (_ & ? & _). }
  case_decide as Hempty.
  { rewrite Hempty in Hsplit. injection Hsplit as <- _.
    by apply Forall_cons in Hall as [(? & _) _]. }
  rewrite Hsplit. clear Hsplit Hempty.
  induction Hall as [|x l (Hne & _ & Hstrip) _ IH]; [done|].
  simpl. rewrite Hstrip. case_decide; [done|]. simpl. by f_equal.
Qed.

Lemma drop_while_split p l :
  ∃ k, l = (k ++ drop_while p l)%list ∧ Forall (λ a, p a = true) k.
Proof.
  induction l as [|b l (k & IH & Hall)]; simpl; [by exists []|].
  destruct (p b) eqn:Hb; [|by exists []].
  exists (b :: k). simpl. split; [by f_equal|by constructor].
Qed.

(** X16: the URL of a page of a list is the URL of the list without the
    slashes it ends with, however many, then one slash and the number of
    the page: lists whose URLs differ in slashes at the end only are
    fetched at the same URLs. *)
Theorem page_url_stem (base_url : string) (page : Z) :
  ∃ stem n,
    chars base_url = (chars stem ++ replicate n "/"%char)%list
    ∧ last (chars stem) ≠ Some "/"%char
    ∧ page_url base_url page = stem +:+ "/" +:+ pretty page
    ∧ ∀ m, page_url (text (chars stem ++ replicate m "/"%char)) page
           = page_url base_url page.
Proof.
  assert (Hstrip : ∀ l n, last l ≠ Some "/"%char →
            rstrip_slash (text (l ++ replicate n "/"%char)) = text l).
  { intros l n Hl. unfold rstrip_slash. rewrite chars_text, reverse_app.
    rewrite reverse_replicate. f_equal.
    induction n as [|n IH]; simpl.
    - rewrite drop_while_id; [by rewrite reverse_involutive|].
      intros a Ha. rewrite head_reverse in Ha.
      destruct (is_char "/" a) eqn:Hc; [|done].
      apply is_char_eq in Hc as ->. done.
    - exact IH. }
  destruct (drop_while_split (is_char "/") (reverse (chars base_url)))
    as (k & Hk & Hall).
  set (dw := drop_while (is_char "/") (reverse (chars base_url))) in *.
  assert (Hks : k = replicate (length k) "/"%char).
  { clear Hk. induction Hall as [|a k Ha%is_char_eq _ IH]; simpl; [done|].
    by rewrite Ha, <-IH. }
  assert (Hbase : chars base_url
                  = (reverse dw ++ replicate (length k) "/"%char)%list).
  { rewrite <-(reverse_involutive (chars base_url)), Hk, reverse_app.
    by rewrite Hks at 1; rewrite reverse_replicate. }
  assert (Hlast : last (reverse dw) ≠ Some "/"%char).
  { rewrite <-head_reverse, reverse_involutive. intros Hh.
    apply drop_while_head in Hh. by rewrite is_char_refl in Hh. }
  exists (text (reverse dw)), (length k). rewrite chars_text.
  assert (Hurl : ∀ m, page_url (text (reverse dw ++ replicate m "/"%char)) page
                      = text (reverse dw) +:+ "/" +:+ pretty page).
  { intros m. unfold page_url. by rewrite Hstrip. }
  split_and!; [done|done| |].
  - by rewrite <-(text_chars base_url), Hbase, Hurl.
  - intros m. by rewrite Hurl, <-(text_chars base_url), Hbase, Hurl.
Qed.

End Lists.

Lemma _split_csv_join_witness :
  Config._split_csv (Some "https://a/1,https://b/2")
  = ["https://a/1"; "https://b/2"].
Proof.
  apply (_split_csv_join ["https://a/1"; "https://b/2"]).
  repeat constructor; try done; vm_compute;
    intros H; repeat (apply elem_of_cons in H as [H|H]; [discriminate H|]);
    by apply elem_of_nil in H.
Defined.

(* ===================================================================== *)
(** * The user field of a login form *)
(* ===================================================================== *)

Section Login.
Import Http.

Lemma lower_keys_get (keys : list string) : ∀ acc candidate key,
  dict_get (foldl (λ acc key, dict_set acc (lower key) key) acc keys) candidate
  = Some key →
  dict_get acc candidate = Some key ∨ (key ∈ keys ∧ lower key = candidate).
Proof.
  induction keys as [|k keys IH]; intros acc candidate key Hget; simpl in *.
  - by left.
  - apply IH in Hget as [Hget|[Hin Hlow]]; [|right; split; [by right|done]].
    destruct (decide (lower k = candidate)) as [Heq|Hne].
    + rewrite <-Heq, dict_get_set_eq in Hget. injection Hget as <-.
      right. split; [left|done].
    + rewrite dict_get_set_ne in Hget by done. by left.
Qed.

Lemma first_candidate_spec keys candidates key :
  first_candidate keys candidates = Some key →
  ∃ candidate, candidate ∈ candidates ∧ dict_get keys candidate = Some key.
Proof.
  induction candidates as [|c cs IH]; simpl; [done|].
  destruct (dict_get keys c) as [k|] eqn:Hget.
  - intros [= ->]. exists c. split; [left|done].
  - intros (c' & Hin & Hc')%IH. exists c'. split; [by right|done].
Qed.

Lemma first_other_spec keys :
  match first_other keys with
  | Some key => key ∈ keys ∧ contains (chars "pass") (chars (lower key)) = false
  | None => ∀ key, key ∈ keys →
                   contains (chars "pass") (chars (lower key)) = true
  end.
Proof.
  induction keys as [|k keys IH]; simpl; [by intros ? ?%elem_of_nil|].
  destruct (contains _ (chars (lower k))) eqn:Hk.
  - destruct (first_other keys) as [key|].
    + destruct IH. split; [by right|done].
    + intros key [->|?]%elem_of_cons; [done|by apply IH].
  - split; [left|done].
Qed.

(** X28: the user field chosen for a login form is one of the fields of
    the form, and never one whose name has "pass" in it, whatever the
    case of its letters; no field is chosen only when the name of every
    field of the form has. *)
Theorem _detect_user_field_choice (payload : list (string * string)) :
  match _detect_user_field payload with
  | Some key =>
      key ∈ payload.*1 ∧ contains (chars "pass") (chars (lower key)) = false
  | None =>
      ∀ key, key ∈ payload.*1 →
             contains (chars "pass") (chars (lower key)) = true
  end.
Proof.
  unfold _detect_user_field.
  destruct (first_candidate _ _) as [key|] eqn:Hc; [|apply first_other_spec].
  apply first_candidate_spec in Hc as (candidate & Hin & Hget).
  unfold lower_keys in Hget.
  apply lower_keys_get in Hget as [?|[Hkey Hlow]]; [done|].
  split; [done|]. rewrite Hlow.
  repeat (apply elem_of_cons in Hin as [->|Hin]; [by vm_compute|]).
  by apply elem_of_nil in Hin.
Qed.

End Login.
